(** * Sampling penalty kernels and indexed copy of the turbomind engine

    A shallow embedding of
    - the logit post-processing kernels (temperature scaling, repetition
      penalty, minimum-length masking) of the sampling penalty kernels file,
    - [LlamaBatch::IndexedCopy] / [LlamaBatch::IndexedCopyImpl] of
      [src/turbomind/models/llama/LlamaBatch.h],
    together with the properties the specification states about them.

    Modelling conventions.
    - Floating-point values are [spec_float]s; every arithmetic operation is
      the correctly rounded IEEE-754 operation (round to nearest even) of the
      format it is computed in: binary32 for [float], binary16 for [half],
      bfloat16 for [__nv_bfloat16].
    - A device buffer is a [list]; an access outside the buffer is the error
      [OutOfBounds]; a failed [assert] is the error [AssertionFailed].
    - A kernel launch runs the blocks of the grid, and the threads of each
      block, one after the other in index order.  [__syncthreads()] splits a
      block into phases: every thread of the block finishes a phase before
      any thread starts the next one.
    - Sizes, strides and loop counters ([int] in the source) are natural
      numbers, assumed to fit in [int]; token ids and lengths read from
      buffers are integers.  Where the source adds to a value read from a
      buffer, the sum is the 32-bit [int] sum: signed overflow is undefined
      in the source, and wraps around in the compiled kernel and in the
      model. *)

From Stdlib Require Import ZArith Bool List Lia.
From Stdlib Require Import Floats.SpecFloat.
From stdpp Require Import base tactics option list gmap.

Set Warnings "-abstract-large-number".
#[local] Open Scope nat_scope.

(* ================================================================== *)
(** * Floating-point formats *)
(* ================================================================== *)

Module Fp.

Record format := Format { prec : Z; emax : Z }.

Definition binary32 : format := Format 24 128.
Definition binary16 : format := Format 11 16.
Definition bfloat16 : format := Format 8 128.

Definition add (f : format) : spec_float -> spec_float -> spec_float :=
  SFadd (prec f) (emax f).
Definition sub (f : format) : spec_float -> spec_float -> spec_float :=
  SFsub (prec f) (emax f).
Definition mul (f : format) : spec_float -> spec_float -> spec_float :=
  SFmul (prec f) (emax f).
Definition div (f : format) : spec_float -> spec_float -> spec_float :=
  SFdiv (prec f) (emax f).
Definition opp : spec_float -> spec_float := SFopp.
Definition ltb : spec_float -> spec_float -> bool := SFltb.

(** Conversion of a value into format [f], rounding to nearest even. *)
Definition round (f : format) (x : spec_float) : spec_float :=
  match x with
  | S754_finite s m e => binary_round (prec f) (emax f) s m e
  | _ => x
  end.

(** The value of an integer literal in format [f]. *)
Definition of_Z (f : format) (z : Z) : spec_float :=
  binary_normalize (prec f) (emax f) z 0 false.

(** Largest finite value of the format. *)
Definition max_float (f : format) : spec_float :=
  SFmax_float (prec f) (emax f).

Definition zero : spec_float := S754_zero false.

Definition is_zero (x : spec_float) : bool :=
  match x with S754_zero _ => true | _ => false end.

(** Numerical equality: the same value, where the two zeros count as the
    same number. *)
Definition num_eq (x y : spec_float) : Prop :=
  x = y \/ (is_zero x = true /\ is_zero y = true).

End Fp.

(** The [float] and the [half] of an integer value. *)
Definition f32 (z : Z) : spec_float := Fp.of_Z Fp.binary32 z.
Definition f16 (z : Z) : spec_float := Fp.of_Z Fp.binary16 z.
Arguments f32 z%_Z.
Arguments f16 z%_Z.

(** [1.f] and [1e-6f]. *)
Definition f32_one : spec_float := f32 1.
Definition f32_eps : spec_float := Fp.div Fp.binary32 (f32 1) (f32 1000000).

(* ================================================================== *)
(** * Element types of the templated kernels *)
(* ================================================================== *)

(** The types the kernels are instantiated with. *)
Inductive dtype := Float | Half | BFloat16.

Definition dtype_eqb (a b : dtype) : bool :=
  match a, b with
  | Float, Float | Half, Half | BFloat16, BFloat16 => true
  | _, _ => false
  end.

Definition fmt (T : dtype) : Fp.format :=
  match T with
  | Float => Fp.binary32
  | Half => Fp.binary16
  | BFloat16 => Fp.bfloat16
  end.

(** [(T)x] for a [float] [x]. *)
Definition of_float (T : dtype) (x : spec_float) : spec_float :=
  match T with
  | Float => x
  | _ => Fp.round (fmt T) x
  end.

(** [(float)x] for an [x] of type [T]. *)
Definition to_float (T : dtype) (x : spec_float) : spec_float :=
  match T with
  | Float => x
  | _ => Fp.round Fp.binary32 x
  end.

(** Modelled from the spec: [getMaxValue<T>()] is declared in a header that
    is not part of the sources at hand; the specification describes
    [-MAX_T_VAL] as "the minimum representable finite value for the element
    type", so [getMaxValue<T>()] is the largest finite value of [T]. *)
Definition getMaxValue (T : dtype) : spec_float := Fp.max_float (fmt T).

(* ================================================================== *)
(** * Errors, buffers, loops and launches *)
(* ================================================================== *)

Inductive error :=
  OutOfBounds | AssertionFailed | CheckFailed | DivisionByZero | OutOfFuel.

Inductive result (A : Type) : Type :=
| Ok (a : A)
| Err (e : error).
Arguments Ok {A} a.
Arguments Err {A} e.

Definition bind {A B : Type} (c : result A) (k : A -> result B) : result B :=
  match c with
  | Ok a => k a
  | Err e => Err e
  end.

Notation "x <- c ;; k" := (bind c (fun x => k))
  (at level 100, c at next level, right associativity).
Notation "c ;;; k" := (bind c (fun _ => k))
  (at level 100, right associativity).

Definition assert (b : bool) : result unit :=
  if b then Ok tt else Err AssertionFailed.

(** [buf[i]] as an rvalue. *)
Definition load {A : Type} (buf : list A) (i : nat) : result A :=
  match buf !! i with
  | Some x => Ok x
  | None => Err OutOfBounds
  end.

(** [buf[i] = x]. *)
Definition store {A : Type} (buf : list A) (i : nat) (x : A) : result (list A) :=
  if i <? length buf then Ok (<[i := x]> buf) else Err OutOfBounds.

(** Accesses at an [int] offset, which may be negative. *)
Definition loadZ {A : Type} (buf : list A) (i : Z) : result A :=
  if (i <? 0)%Z then Err OutOfBounds else load buf (Z.to_nat i).

Definition storeZ {A : Type} (buf : list A) (i : Z) (x : A) : result (list A) :=
  if (i <? 0)%Z then Err OutOfBounds else store buf (Z.to_nat i) x.

Fixpoint foldM {A St : Type} (f : A -> St -> result St) (l : list A) (s : St)
  : result St :=
  match l with
  | [] => Ok s
  | a :: l' => s' <- f a s ;; foldM f l' s'
  end.

(** [for (int index = start; index < bound; index += stride) body(index)].
    The loop runs at most [fuel] iterations; needing more is [OutOfFuel]. *)
Fixpoint strided_for {St : Type} (fuel : nat) (index bound stride : nat)
  (body : nat -> St -> result St) (s : St) : result St :=
  if index <? bound then
    match fuel with
    | O => Err OutOfFuel
    | S fuel' =>
        s' <- body index s ;;
        strided_for fuel' (index + stride) bound stride body s'
    end
  else Ok s.

(** The threads [0 .. blockDim-1] of one block, for one phase. *)
Definition run_threads {St : Type} (blockDim : nat)
  (thread : nat -> St -> result St) (s : St) : result St :=
  foldM thread (seq 0 blockDim) s.

(** The blocks [0 .. gridDim-1] of a grid. *)
Definition run_blocks {St : Type} (gridDim : nat)
  (block : nat -> St -> result St) (s : St) : result St :=
  foldM block (seq 0 gridDim) s.

(** [kernel<<<gridDim, blockDim>>>] for a kernel without barrier. *)
Definition launch {St : Type} (gridDim blockDim : nat)
  (kernel : nat -> nat -> St -> result St) (s : St) : result St :=
  run_blocks gridDim (fun blockIdx => run_threads blockDim (kernel blockIdx)) s.

(* ================================================================== *)
(** * Temperature penalty, one temperature for the batch *)
(* ================================================================== *)

(** A logits buffer, row-major. *)
Abbreviation Logits := (list spec_float) (only parsing).

Section ApplyTemperaturePenalty.
Variable T : dtype.
Variables (bias : option (list spec_float)) (temperature_inverse : spec_float).
Variables (m vocab_size vocab_size_padd : nat).

(** Loop body of [applyTemperaturePenalty<T>]. *)
Definition applyTemperaturePenalty_body (index : nat) (logits : Logits)
  : result Logits :=
  bias_val <- match bias with
              | None => Ok (of_float T Fp.zero)
              | Some b => load b (index mod vocab_size_padd)
              end ;;
  if index mod vocab_size_padd <? vocab_size then
    x <- load logits index ;;
    store logits index
      (Fp.mul (fmt T) (Fp.add (fmt T) x bias_val) (of_float T temperature_inverse))
  else
    store logits index (Fp.opp (getMaxValue T)).

Definition applyTemperaturePenalty (gridDim blockDim blockIdx threadIdx : nat)
  (logits : Logits) : result Logits :=
  strided_for (m * vocab_size_padd)
    (blockIdx * blockDim + threadIdx) (m * vocab_size_padd) (blockDim * gridDim)
    applyTemperaturePenalty_body logits.
End ApplyTemperaturePenalty.

(** ** The [half2] specialization *)

(** A [half2] is a pair of [half]s; a [half*] buffer viewed through
    [reinterpret_cast<half2*>] has the pair [(buf[2i], buf[2i+1])] at index
    [i]. *)
Abbreviation half2 := (spec_float * spec_float)%type (only parsing).

Definition load2 (buf : Logits) (i : nat) : result half2 :=
  x <- load buf (2 * i) ;; y <- load buf (2 * i + 1) ;; Ok (x, y).

Definition store2 (buf : Logits) (i : nat) (v : half2) : result Logits :=
  buf' <- store buf (2 * i) (fst v) ;; store buf' (2 * i + 1) (snd v).

Definition __float2half2_rn (x : spec_float) : half2 :=
  (Fp.round Fp.binary16 x, Fp.round Fp.binary16 x).

Definition __hadd2 (a b : half2) : half2 :=
  (Fp.add Fp.binary16 (fst a) (fst b), Fp.add Fp.binary16 (snd a) (snd b)).

Definition __hmul2 (a b : half2) : half2 :=
  (Fp.mul Fp.binary16 (fst a) (fst b), Fp.mul Fp.binary16 (snd a) (snd b)).

Section ApplyTemperaturePenaltyHalf2.
Variables (bias : option (list spec_float)) (temperature_inverse : spec_float).
Variables (batch_size vocab_size vocab_size_padded : nat).

Definition applyTemperaturePenalty_half2_body (index : nat) (logits : Logits)
  : result Logits :=
  let mask_val := __float2half2_rn (f32 (-65504)) in
  let temp_inv := __float2half2_rn temperature_inverse in
  let half_vocab_size := vocab_size / 2 in
  let half_vocab_size_padded := vocab_size_padded / 2 in
  let vocab_idx := index mod half_vocab_size_padded in
  logit <- (if vocab_idx <? half_vocab_size then load2 logits index
            else Ok mask_val) ;;
  if vocab_idx <? half_vocab_size then
    logit <- match bias with
             | Some b => bv <- load2 b vocab_idx ;; Ok (__hadd2 logit bv)
             | None => Ok logit
             end ;;
    store2 logits index (__hmul2 logit temp_inv)
  else Ok logits.

Definition applyTemperaturePenalty_half2
  (gridDim blockDim blockIdx threadIdx : nat) (logits : Logits)
  : result Logits :=
  assert (vocab_size mod 2 =? 0) ;;;
  assert (vocab_size_padded mod 2 =? 0) ;;;
  strided_for (batch_size * (vocab_size_padded / 2))
    (blockIdx * blockDim + threadIdx) (batch_size * (vocab_size_padded / 2))
    (blockDim * gridDim)
    applyTemperaturePenalty_half2_body logits.
End ApplyTemperaturePenaltyHalf2.

(** [invokeApplyTemperaturePenalty<T>]: the host side. *)
Definition invokeApplyTemperaturePenalty (T : dtype) (logits : Logits)
  (bias : option (list spec_float)) (temperature : spec_float)
  (batch_size vocab_size vocab_size_padd : nat) : result Logits :=
  let block := Nat.min vocab_size_padd 1024 in
  if block =? 0 then Err DivisionByZero else
  let grid := Nat.min (batch_size * vocab_size_padd / block) 65536 in
  let temperature_inverse :=
    Fp.div Fp.binary32 f32_one (Fp.add Fp.binary32 temperature f32_eps) in
  if dtype_eqb T Half && (vocab_size mod 2 =? 0) && (vocab_size_padd mod 2 =? 0)
  then
    launch grid block
      (applyTemperaturePenalty_half2 bias temperature_inverse
         batch_size vocab_size vocab_size_padd grid block) logits
  else
    launch grid block
      (applyTemperaturePenalty T bias temperature_inverse
         batch_size vocab_size vocab_size_padd grid block) logits.

(* ================================================================== *)
(** * Temperature penalty, one temperature per row *)
(* ================================================================== *)

Section BatchApplyTemperaturePenalty.
Variable T : dtype.
Variables (bias : option (list spec_float)) (temperatures : list spec_float).
Variables (batch_size vocab_size vocab_size_padd : nat).

(** First phase: the threads fill the shared array [inv_temperatures]. *)
Definition batchApplyTemperaturePenalty_init (threadIdx : nat)
  (inv_temperatures : list spec_float) : result (list spec_float) :=
  if threadIdx <? batch_size then
    t <- load temperatures threadIdx ;;
    store inv_temperatures threadIdx
      (Fp.div Fp.binary32 f32_one (Fp.add Fp.binary32 t f32_eps))
  else Ok inv_temperatures.

Definition batchApplyTemperaturePenalty_body (inv_temperatures : list spec_float)
  (index : nat) (logits : Logits) : result Logits :=
  let batch_idx := index / vocab_size_padd in
  let vocab_idx := index mod vocab_size_padd in
  logit <- (if vocab_idx <? vocab_size then load logits index
            else Ok (Fp.opp (getMaxValue T))) ;;
  logit <- (if vocab_idx <? vocab_size then
              logit <- match bias with
                       | Some b =>
                           bv <- load b vocab_idx ;;
                           Ok (of_float T (Fp.add Fp.binary32 (to_float T logit)
                                             (to_float T bv)))
                       | None => Ok logit
                       end ;;
              inv <- load inv_temperatures batch_idx ;;
              Ok (of_float T (Fp.mul Fp.binary32 (to_float T logit) inv))
            else Ok logit) ;;
  store logits index logit.

(** One block; [smem0] is the content of its dynamic shared memory
    ([batch_size] floats) when the block starts. *)
Definition batchApplyTemperaturePenalty (gridDim blockDim : nat)
  (smem0 : list spec_float) (blockIdx : nat) (logits : Logits)
  : result Logits :=
  inv_temperatures <-
    run_threads blockDim batchApplyTemperaturePenalty_init smem0 ;;
  (* __syncthreads() *)
  run_threads blockDim
    (fun threadIdx =>
       strided_for (batch_size * vocab_size_padd)
         (blockIdx * blockDim + threadIdx) (batch_size * vocab_size_padd)
         (blockDim * gridDim)
         (batchApplyTemperaturePenalty_body inv_temperatures))
    logits.
End BatchApplyTemperaturePenalty.

(* ================================================================== *)
(** * Temperature penalty, vectorized ([_v2]) *)
(* ================================================================== *)

(** [Load(vec, p)] and [Store(p, vec)] of an [Array<T, vec_size>]; the
    element-wise branch taken when the array is narrower than a [uint] moves
    the same elements. *)
Definition load_vec (buf : Logits) (p vec_size : nat) : result (list spec_float) :=
  if p + vec_size <=? length buf then Ok (take vec_size (drop p buf))
  else Err OutOfBounds.

Definition store_vec (buf : Logits) (p : nat) (vec : list spec_float)
  : result Logits :=
  if p + length vec <=? length buf then Ok (list_inserts p vec buf)
  else Err OutOfBounds.

Section BatchApplyTemperaturePenaltyV2.
(** The CUDA intrinsic [fdividef]. *)
Variable fdividef : spec_float -> spec_float -> spec_float.
Variables (T : dtype) (vec_size : nat).
Variables (temperatures : list spec_float).
Variables (vocab_size vocab_size_padded : nat).

Definition batchApplyTemperaturePenalty_v2_init (bi threadIdx : nat)
  (shared_scale : spec_float) : result spec_float :=
  if threadIdx =? 0 then
    t <- load temperatures bi ;;
    Ok (fdividef f32_one (Fp.add Fp.binary32 t f32_eps))
  else Ok shared_scale.

(** The element-wise step on [vec], for the chunk starting at column [i]. *)
Definition batchApplyTemperaturePenalty_v2_process (scale : spec_float)
  (i : nat) (vec : list spec_float) : list spec_float :=
  imap (fun c x =>
          if i + c <? vocab_size
          then of_float T (Fp.mul Fp.binary32 (to_float T x) scale)
          else Fp.opp (getMaxValue T)) vec.

Definition batchApplyTemperaturePenalty_v2_body (scale : spec_float)
  (bi : nat) (i : nat) (logits : Logits) : result Logits :=
  vec <- load_vec logits (bi * vocab_size_padded + i) vec_size ;;
  store_vec logits (bi * vocab_size_padded + i)
    (batchApplyTemperaturePenalty_v2_process scale i vec).

(** One block of the two-dimensional grid; [shared0] is the content of
    [shared_scale] when the block starts.  The kernel receives [bias] and
    [batch_size] and reads neither. *)
Definition batchApplyTemperaturePenalty_v2
  (bias : option (list spec_float)) (batch_size : nat)
  (gridDim_x blockDim : nat)
  (shared0 : spec_float) (blockIdx_x blockIdx_y : nat) (logits : Logits)
  : result Logits :=
  let bi := blockIdx_y in
  shared_scale <-
    run_threads blockDim (batchApplyTemperaturePenalty_v2_init bi) shared0 ;;
  (* __syncthreads() *)
  let step := gridDim_x * blockDim * vec_size in
  run_threads blockDim
    (fun threadIdx =>
       let vi := blockIdx_x * blockDim + threadIdx in
       strided_for vocab_size_padded (vi * vec_size) vocab_size_padded step
         (batchApplyTemperaturePenalty_v2_body shared_scale bi))
    logits.
End BatchApplyTemperaturePenaltyV2.

(** [invokeBatchApplyTemperaturePenalty_v2<T>]: the host side. *)
Definition invokeBatchApplyTemperaturePenalty_v2
  (fdividef : spec_float -> spec_float -> spec_float) (shared0 : spec_float)
  (T : dtype) (logits : Logits)
  (bias : option (list spec_float)) (temperatures : list spec_float)
  (batch_size vocab_size vocab_size_padded : nat) : result Logits :=
  let invoke (vec_size : nat) :=
    let threads := 256 in
    let blocks_per_tok :=
      (vocab_size_padded + threads * vec_size - 1) / (threads * vec_size) in
    run_blocks batch_size (fun blockIdx_y =>
      run_blocks blocks_per_tok (fun blockIdx_x =>
        batchApplyTemperaturePenalty_v2 fdividef T vec_size temperatures
          vocab_size vocab_size_padded bias batch_size blocks_per_tok threads
          shared0 blockIdx_x blockIdx_y))
      logits in
  if vocab_size_padded mod 4 =? 0 then invoke 4
  else if vocab_size_padded mod 2 =? 0 then invoke 2
  else invoke 1.

(* ================================================================== *)
(** * Repetition penalty *)
(* ================================================================== *)

Inductive RepetitionPenaltyType := Additive | Multiplicative | NoPenalty.

(** The penalized value of a logit, computed in [float]:
    [logit - penalty], or [logit < 0.0f ? logit * penalty : logit / penalty],
    or the logit itself for [RepetitionPenaltyType::None]. *)
Definition penalized (penalty_type : RepetitionPenaltyType)
  (logit penalty : spec_float) : spec_float :=
  match penalty_type with
  | Additive => Fp.sub Fp.binary32 logit penalty
  | Multiplicative =>
      if Fp.ltb logit Fp.zero then Fp.mul Fp.binary32 logit penalty
      else Fp.div Fp.binary32 logit penalty
  | NoPenalty => logit
  end.

(** The buffers a block of a repetition penalty kernel works on: the
    logits, and the scratch arrays [penalty_logits] and [penalty_indices]
    ([step] entries each). *)
Record PenaltyState := mkPenaltyState {
  st_logits : Logits;
  penalty_logits : list spec_float;
  penalty_indices : list Z;
}.

(** [index >= input_length && index < max_input_length]: a padding slot of
    the prompt. *)
Definition is_padding (input_length : Z) (max_input_length index : nat) : bool :=
  (input_length <=? Z.of_nat index)%Z && (index <? max_input_length).

(** [input_lengths != nullptr ? input_lengths[row] : max_input_length]. *)
Definition row_input_length (input_lengths : option (list Z))
  (max_input_length row : nat) : result Z :=
  match input_lengths with
  | Some lens => load lens row
  | None => Ok (Z.of_nat max_input_length)
  end.

(** ** One penalty for the whole batch: [applyRepetitionPenalty] *)

Section ApplyRepetitionPenalty.
Variables (T : dtype) (penalty_type : RepetitionPenaltyType).
Variables (penalty : spec_float) (output_ids : list Z).
Variables (batch_size vocab_size vocab_size_padd : nat).
Variables (input_lengths : option (list Z)) (max_input_len step : nat).

(** First loop; [base] is the offset of the row, [blockIdx.x * vocab_size_padd]. *)
Definition applyRepetitionPenalty_read (blockIdx : nat) (input_length : Z)
  (index : nat) (st : PenaltyState) : result PenaltyState :=
  if is_padding input_length max_input_len index then Ok st
  else
    penalty_index <- load output_ids (index * batch_size + blockIdx) ;;
    if (Z.of_nat vocab_size <=? penalty_index)%Z then Ok st
    else
      indices <- store (penalty_indices st) index penalty_index ;;
      x <- loadZ (st_logits st)
             (Z.of_nat (blockIdx * vocab_size_padd) + penalty_index) ;;
      let logit := to_float T x in
      plogits <- store (penalty_logits st) index
                   (penalized penalty_type logit penalty) ;;
      Ok (mkPenaltyState (st_logits st) plogits indices).

(** Second loop. *)
Definition applyRepetitionPenalty_write (blockIdx : nat) (input_length : Z)
  (index : nat) (st : PenaltyState) : result PenaltyState :=
  if is_padding input_length max_input_len index then Ok st
  else
    penalty_index <- load (penalty_indices st) index ;;
    if (Z.of_nat vocab_size <=? penalty_index)%Z then Ok st
    else
      v <- load (penalty_logits st) index ;;
      logits <- storeZ (st_logits st)
                  (Z.of_nat (blockIdx * vocab_size_padd) + penalty_index)
                  (of_float T v) ;;
      Ok (mkPenaltyState logits (penalty_logits st) (penalty_indices st)).

(** One block.  Its dynamic shared memory holds [penalty_logits] and
    [penalty_indices], with the contents [smem_logits], [smem_indices] when
    the block starts.  The two loops are separated by [__syncthreads()]
    when the block has more than one warp; a single warp runs its threads
    in lockstep, so the loops are two phases in both cases. *)
Definition applyRepetitionPenalty (blockDim : nat)
  (smem_logits : list spec_float) (smem_indices : list Z)
  (blockIdx : nat) (logits : Logits) : result Logits :=
  input_length <- row_input_length input_lengths max_input_len blockIdx ;;
  st <- run_threads blockDim
          (fun threadIdx =>
             strided_for step threadIdx step blockDim
               (applyRepetitionPenalty_read blockIdx input_length))
          (mkPenaltyState logits smem_logits smem_indices) ;;
  st <- run_threads blockDim
          (fun threadIdx =>
             strided_for step threadIdx step blockDim
               (applyRepetitionPenalty_write blockIdx input_length))
          st ;;
  Ok (st_logits st).
End ApplyRepetitionPenalty.

(** [invokeApplyRepetitionPenalty<T>]: the host side.  [smem_logits b] and
    [smem_indices b] are the initial contents of the shared memory of
    block [b]. *)
Definition invokeApplyRepetitionPenalty (T : dtype) (logits : Logits)
  (penalty : spec_float) (output_ids : list Z)
  (batch_size local_batch_size vocab_size vocab_size_padd : nat)
  (input_lengths : option (list Z)) (max_input_len step : nat)
  (penalty_type : RepetitionPenaltyType)
  (smem_logits : nat -> list spec_float) (smem_indices : nat -> list Z)
  : result Logits :=
  let block := Nat.min step 1024 in
  let grid := local_batch_size in
  match penalty_type with
  | NoPenalty => Ok logits
  | _ =>
      run_blocks grid (fun blockIdx =>
        applyRepetitionPenalty T penalty_type penalty output_ids
          batch_size vocab_size vocab_size_padd input_lengths max_input_len step
          block (smem_logits blockIdx) (smem_indices blockIdx) blockIdx)
        logits
  end.

(** ** One penalty per row: [batchApplyRepetitionPenalty] *)

Section BatchApplyRepetitionPenalty.
Variables (T : dtype) (penalty_type : RepetitionPenaltyType).
Variables (penalties : list spec_float) (output_ids : list Z).
Variables (batch_size vocab_size : nat).
Variables (input_lengths : option (list Z)) (max_input_length step : nat).

(** Phase 1. Find indices to penalize and keep the penalized values. *)
Definition batchApplyRepetitionPenalty_read (batch_idx : nat)
  (penalty : spec_float) (input_length : Z)
  (index : nat) (st : PenaltyState) : result PenaltyState :=
  if is_padding input_length max_input_length index then Ok st
  else
    penalty_index <- load output_ids (index * batch_size + batch_idx) ;;
    assert (penalty_index <? Z.of_nat vocab_size)%Z ;;;
    indices <- store (penalty_indices st) index penalty_index ;;
    x <- loadZ (st_logits st)
           (Z.of_nat (batch_idx * vocab_size) + penalty_index) ;;
    let logit := to_float T x in
    plogits <- store (penalty_logits st) index
                 (penalized penalty_type logit penalty) ;;
    Ok (mkPenaltyState (st_logits st) plogits indices).

(** Phase 2. Replace a logit value by the penalized one. *)
Definition batchApplyRepetitionPenalty_write (batch_idx : nat)
  (input_length : Z) (index : nat) (st : PenaltyState) : result PenaltyState :=
  if is_padding input_length max_input_length index then Ok st
  else
    penalty_index <- load (penalty_indices st) index ;;
    v <- load (penalty_logits st) index ;;
    logits <- storeZ (st_logits st)
                (Z.of_nat (batch_idx * vocab_size) + penalty_index)
                (of_float T v) ;;
    Ok (mkPenaltyState logits (penalty_logits st) (penalty_indices st)).

(** One block.  [ws_logits] and [ws_indices] are the contents of the two
    halves of this row's slice of [penalty_workspace] when the block
    starts. *)
Definition batchApplyRepetitionPenalty (blockDim : nat)
  (ws_logits : list spec_float) (ws_indices : list Z)
  (blockIdx : nat) (logits : Logits) : result Logits :=
  let batch_idx := blockIdx in
  penalty <- load penalties batch_idx ;;
  input_length <- row_input_length input_lengths max_input_length batch_idx ;;
  st <- run_threads blockDim
          (fun threadIdx =>
             strided_for step threadIdx step blockDim
               (batchApplyRepetitionPenalty_read batch_idx penalty input_length))
          (mkPenaltyState logits ws_logits ws_indices) ;;
  (* __syncthreads() *)
  st <- run_threads blockDim
          (fun threadIdx =>
             strided_for step threadIdx step blockDim
               (batchApplyRepetitionPenalty_write batch_idx input_length))
          st ;;
  Ok (st_logits st).
End BatchApplyRepetitionPenalty.

(** [invokeBatchApplyRepetitionPenalty<T>]: the host side. *)
Definition invokeBatchApplyRepetitionPenalty (T : dtype) (logits : Logits)
  (penalties : list spec_float)
  (ws_logits : nat -> list spec_float) (ws_indices : nat -> list Z)
  (output_ids : list Z)
  (batch_size local_batch_size vocab_size : nat)
  (input_lengths : option (list Z)) (max_input_length step : nat)
  (penalty_type : RepetitionPenaltyType) : result Logits :=
  let block := Nat.min step 1024 in
  let grid := local_batch_size in
  match penalty_type with
  | NoPenalty => Ok logits
  | _ =>
      run_blocks grid (fun blockIdx =>
        batchApplyRepetitionPenalty T penalty_type penalties output_ids
          batch_size vocab_size input_lengths max_input_length step
          block (ws_logits blockIdx) (ws_indices blockIdx) blockIdx)
        logits
  end.

(* ================================================================== *)
(** * Minimum-length penalty *)
(* ================================================================== *)

(** [(int)z]: the 32-bit two's complement value of [z]. *)
Definition int_wrap (z : Z) : Z := ((z + 2 ^ 31) mod 2 ^ 32 - 2 ^ 31)%Z.

(** [a + b] on [int]s, wrapping around on overflow. *)
Definition int_add (a b : Z) : Z := int_wrap (a + b).

Section BatchApplyMinLengthPenalty.
Variable T : dtype.
Variables (min_lengths sequence_lengths : list Z).
Variables (vocab_size_padded batch_size : nat).
Variables (end_ids : list Z) (end_ids_size : nat).

Definition batchApplyMinLengthPenalty (gridDim blockDim blockIdx threadIdx : nat)
  (logits : Logits) : result Logits :=
  let tid := threadIdx + blockIdx * blockDim in
  if end_ids_size =? 0 then Err DivisionByZero else
  let bid := tid / end_ids_size in
  let eid := tid mod end_ids_size in
  if bid <? batch_size then
    end_id <- load end_ids (bid * end_ids_size + eid) ;;
    if (0 <? end_id)%Z then
      seq_len <- load sequence_lengths bid ;;
      min_len <- load min_lengths bid ;;
      if (int_add seq_len 1 <? min_len)%Z then
        let mask_val := Fp.opp (getMaxValue T) in
        storeZ logits (Z.of_nat (bid * vocab_size_padded) + end_id) mask_val
      else Ok logits
    else Ok logits
  else Ok logits.
End BatchApplyMinLengthPenalty.

(** [invokeMinLengthPenalty<T>]: the host side.  The launch passes [block]
    as the grid size and [grid] as the block size, as in the source. *)
Definition invokeMinLengthPenalty (T : dtype) (logits : Logits)
  (min_lengths sequnece_lengths : list Z)
  (vocab_size_padded batch_size : nat)
  (end_ids : list Z) (end_ids_size : nat) : result Logits :=
  let block := Nat.min (batch_size * end_ids_size) 1024 in
  if block =? 0 then Err DivisionByZero else
  let grid := (batch_size * end_ids_size + block - 1) / block in
  launch block grid
    (batchApplyMinLengthPenalty T min_lengths sequnece_lengths
       vocab_size_padded batch_size end_ids end_ids_size block grid)
    logits.


(* ================================================================== *)
(** * Indexed copy of per-slot buffers ([LlamaBatch.h]) *)
(* ================================================================== *)

(** Device memory: the buffers by address, each a sequence of bytes. *)
Abbreviation Memory := (gmap nat (list Byte.byte)) (only parsing).

(** One [std::tuple<Ts*, Ts*, int>] of a copy: the source and destination
    buffers, [sizeof(Ts)], and the number of elements of a slot. *)
Record Cpy := mkCpy {
  cpy_src : nat;
  cpy_dst : nat;
  cpy_sizeof : nat;
  cpy_count : nat;
}.

(** Slot [j] of a buffer of slots of [sz] bytes. *)
Definition slot (buf : list Byte.byte) (sz j : nat) : option (list Byte.byte) :=
  if j * sz + sz <=? length buf then Some (take sz (drop (j * sz) buf)) else None.

Definition write_slot (buf : list Byte.byte) (sz j : nat)
  (bytes : list Byte.byte) : list Byte.byte :=
  list_inserts (j * sz) bytes buf.

(** [idx ? idx[k] : k] for an index array that may be [nullptr]. *)
Definition index_at (idx : option (list nat)) (k : nat) : result nat :=
  match idx with
  | Some l => load l k
  | None => Ok k
  end.

(** Copy of slot [si] of buffer [src] to slot [di] of buffer [dst]. *)
Definition copy_slot (src dst sz si di : nat) (mem : Memory) : result Memory :=
  match mem !! src with
  | Some sbuf =>
      match slot sbuf sz si with
      | Some bytes =>
          match mem !! dst with
          | Some dbuf =>
              if di * sz + sz <=? length dbuf
              then Ok (<[dst := write_slot dbuf sz di bytes]> mem)
              else Err OutOfBounds
          | None => Err OutOfBounds
          end
      | None => Err OutOfBounds
      end
  | None => Err OutOfBounds
  end.

(** Modelled from the spec: [invokeIndexedCopy] is declared in
    [llama_kernels.h] and defined outside the sources at hand.  The
    specification: "given a list of source slot indices and a list of
    destination slot indices (same length, or one side empty meaning
    identity), copy each of N named per-slot buffers of element size [sz_i]
    from [src[k]] to [dst[k]] for all k".  The copies are made buffer after
    buffer, and for a buffer in the order of [k]. *)
Definition invokeIndexedCopy (src_ptr dst_ptr elem_sz : list nat)
  (src_idx dst_idx : option (list nat)) (count n : nat) (mem : Memory)
  : result Memory :=
  foldM (fun i mem =>
           src <- load src_ptr i ;;
           dst <- load dst_ptr i ;;
           sz <- load elem_sz i ;;
           foldM (fun k mem =>
                    si <- index_at src_idx k ;;
                    di <- index_at dst_idx k ;;
                    copy_slot src dst sz si di mem)
             (seq 0 count) mem)
    (seq 0 n) mem.

(** [LlamaBatch::IndexedCopyImpl]. *)
Definition IndexedCopyImpl (src_idx dst_idx : option (list nat)) (count : nat)
  (cpys : list Cpy) (mem : Memory) : result Memory :=
  if count =? 0 then Ok mem
  else
    let N := length cpys in
    let src_ptr := cpy_src <$> cpys in
    let dst_ptr := cpy_dst <$> cpys in
    let elem_sz := (fun c => cpy_sizeof c * cpy_count c) <$> cpys in
    invokeIndexedCopy src_ptr dst_ptr elem_sz src_idx dst_idx count N mem.

Definition is_empty {A : Type} (l : list A) : bool :=
  match l with [] => true | _ => false end.

(** [LlamaBatch::IndexedCopy] on two index vectors.  A failed [FT_CHECK] is
    the error [CheckFailed].  The slot indices ([int] in the source) are
    natural numbers. *)
Definition IndexedCopy (src_idx dst_idx : list nat) (cpys : list Cpy)
  (mem : Memory) : result Memory :=
  (* has the same size, or one is empty *)
  if (length src_idx =? length dst_idx)
     || xorb (is_empty src_idx) (is_empty dst_idx)
  then
    IndexedCopyImpl (if is_empty src_idx then None else Some src_idx)
      (if is_empty dst_idx then None else Some dst_idx)
      (Nat.max (length src_idx) (length dst_idx)) cpys mem
  else Err CheckFailed.

(** [LlamaBatch::IndexedCopy] on a count: identity indices on both sides. *)
Definition IndexedCopy_count (count : nat) (cpys : list Cpy) (mem : Memory)
  : result Memory :=
  IndexedCopyImpl None None count cpys mem.

(* ================================================================== *)
(** * Temperature penalty: what the scalar kernel computes *)
(* ================================================================== *)

(** The bias value the scalar kernel adds at column [v]. *)
Definition bias_at (T : dtype) (bias : option (list spec_float)) (v : nat)
  : spec_float :=
  match bias with
  | None => of_float T Fp.zero
  | Some b => default Fp.zero (b !! v)
  end.

(** The logit the scalar kernel leaves at flat position [index] when it finds
    [x] there: the biased logit times the reciprocal [r] of the temperature,
    or the sentinel in a padding column. *)
Definition temperature_scaled (T : dtype) (bias : option (list spec_float))
  (r : spec_float) (vocab_size vocab_size_padd : nat)
  (index : nat) (x : spec_float) : spec_float :=
  if index mod vocab_size_padd <? vocab_size then
    Fp.mul (fmt T) (Fp.add (fmt T) x (bias_at T bias (index mod vocab_size_padd)))
      (of_float T r)
  else Fp.opp (getMaxValue T).

(** A bias buffer, when given, has an entry for every padded column. *)
Definition bias_fits (bias : option (list spec_float)) (vocab_size_padd : nat)
  : Prop :=
  match bias with
  | Some b => vocab_size_padd <= length b
  | None => True
  end.

(** The value the specification states for a valid column,
    [(L[v] + B[v]) / (temperature + 1e-6)], the quotient being computed in
    [float] and converted to the element type. *)
Definition temperature_quotient (T : dtype) (x b temperature : spec_float)
  : spec_float :=
  of_float T
    (Fp.div Fp.binary32
       (Fp.add Fp.binary32 (to_float T x) (to_float T b))
       (Fp.add Fp.binary32 temperature f32_eps)).

(* ================================================================== *)
(** * Minimum-length penalty: which logits are masked *)
(* ================================================================== *)

(** The end ids configured for row [bid]. *)
Definition row_end_ids (end_ids : list Z) (end_ids_size bid : nat) : list Z :=
  take end_ids_size (drop (bid * end_ids_size) end_ids).

(** Column [col] of row [bid] is masked when the row is shorter than its
    minimum length and [col] is one of its end ids, end ids [<= 0] apart. *)
Definition min_length_masked (min_lengths sequence_lengths end_ids : list Z)
  (end_ids_size bid col : nat) : bool :=
  match sequence_lengths !! bid, min_lengths !! bid with
  | Some seq_len, Some min_len =>
      (seq_len + 1 <? min_len)%Z
      && existsb (fun end_id => (0 <? end_id)%Z && (end_id =? Z.of_nat col)%Z)
           (row_end_ids end_ids end_ids_size bid)
  | _, _ => false
  end.

(* ================================================================== *)
(** * Repetition penalty: the history of a row *)
(* ================================================================== *)

(** The token id the history of row [row] contributes at position [index]:
    none at a padding slot. *)
Definition history_id (output_ids : list Z) (batch_size row : nat)
  (input_length : Z) (max_input_length index : nat) : option Z :=
  if is_padding input_length max_input_length index then None
  else output_ids !! (index * batch_size + row).

(** The token ids of the considered positions [index < step] of a row. *)
Definition history_ids (output_ids : list Z) (batch_size row : nat)
  (input_length : Z) (max_input_length step : nat) : list Z :=
  omap (history_id output_ids batch_size row input_length max_input_length)
    (seq 0 step).

(** Every considered position of the row holds a token id of the
    vocabulary. *)
Definition history_valid (output_ids : list Z) (batch_size vocab_size row : nat)
  (input_length : Z) (max_input_length step : nat) : bool :=
  forallb (fun index =>
             is_padding input_length max_input_length index
             || match output_ids !! (index * batch_size + row) with
                | Some id => (0 <=? id)%Z && (id <? Z.of_nat vocab_size)%Z
                | None => false
                end)
    (seq 0 step).

(** The penalized logit, as an element of type [T]. *)
Definition penalized_logit (T : dtype) (penalty_type : RepetitionPenaltyType)
  (penalty x : spec_float) : spec_float :=
  of_float T (penalized penalty_type (to_float T x) penalty).

(** Position [j] of the buffer holds the logit of one of the token ids
    [ids] of the row that starts at offset [base]. *)
Definition row_hit (ids : list Z) (base j : nat) : bool :=
  existsb (fun id => (Z.of_nat j =? Z.of_nat base + id)%Z) ids.

(** Every row of the launch has an input length and a valid history. *)
Definition histories_valid (output_ids : list Z)
  (batch_size local_batch_size vocab_size : nat)
  (input_lengths : option (list Z)) (max_input_length step : nat) : bool :=
  forallb (fun row =>
             match row_input_length input_lengths max_input_length row with
             | Ok input_length =>
                 history_valid output_ids batch_size vocab_size row input_length
                   max_input_length step
             | Err _ => false
             end)
    (seq 0 local_batch_size).

(* ================================================================== *)
(** * Temperature penalty: what the batched kernels compute *)
(* ================================================================== *)

(** [1.0f / (temperature + 1e-6f)]. *)
Definition inv_temperature (temperature : spec_float) : spec_float :=
  Fp.div Fp.binary32 f32_one (Fp.add Fp.binary32 temperature f32_eps).

(** The logit [batchApplyTemperaturePenalty<T>] leaves at flat position
    [index] when it finds [x] there. *)
Definition batch_temperature_scaled (T : dtype) (bias : option (list spec_float))
  (temperatures : list spec_float) (vocab_size vocab_size_padd : nat)
  (index : nat) (x : spec_float) : spec_float :=
  if index mod vocab_size_padd <? vocab_size then
    let biased :=
      match bias with
      | Some b =>
          of_float T
            (Fp.add Fp.binary32 (to_float T x)
               (to_float T (default Fp.zero (b !! (index mod vocab_size_padd)))))
      | None => x
      end in
    of_float T
      (Fp.mul Fp.binary32 (to_float T biased)
         (inv_temperature (default Fp.zero (temperatures !! (index / vocab_size_padd)))))
  else Fp.opp (getMaxValue T).

(** The logit the vectorized kernel leaves at flat position [index] when it
    finds [x] there. *)
Definition v2_temperature_scaled
  (fdividef : spec_float -> spec_float -> spec_float) (T : dtype)
  (temperatures : list spec_float) (vocab_size vocab_size_padded : nat)
  (index : nat) (x : spec_float) : spec_float :=
  if index mod vocab_size_padded <? vocab_size then
    of_float T
      (Fp.mul Fp.binary32 (to_float T x)
         (fdividef f32_one
            (Fp.add Fp.binary32
               (default Fp.zero (temperatures !! (index / vocab_size_padded)))
               f32_eps)))
  else Fp.opp (getMaxValue T).

(** The logit the [half2] specialization leaves at flat position [index]
    when it finds [x] there: padding columns keep their value. *)
Definition half2_temperature_scaled (bias : option (list spec_float))
  (r : spec_float) (vocab_size vocab_size_padded : nat)
  (index : nat) (x : spec_float) : spec_float :=
  if index mod vocab_size_padded <? vocab_size then
    Fp.mul Fp.binary16
      match bias with
      | Some b =>
          Fp.add Fp.binary16 x (default Fp.zero (b !! (index mod vocab_size_padded)))
      | None => x
      end
      (Fp.round Fp.binary16 r)
  else x.

(* ================================================================== *)
(** * Indexed copy: the indices and the buffers of a copy *)
(* ================================================================== *)

(** The slot indices an index vector stands for: an empty vector is the
    identity [0, 1, ...] over the length of the other one. *)
Definition effective_indices (idx other : list nat) : list nat :=
  if is_empty idx then seq 0 (length other) else idx.

(** The bytes of a slot of [c]. *)
Definition cpy_elem_sz (c : Cpy) : nat := cpy_sizeof c * cpy_count c.

(** The buffers of [c] exist and hold every slot the index lists name. *)
Definition cpy_ready (mem : Memory) (S D : list nat) (c : Cpy) : Prop :=
  exists sb db,
    mem !! cpy_src c = Some sb /\ mem !! cpy_dst c = Some db
    /\ (forall s, s ∈ S -> s * cpy_elem_sz c + cpy_elem_sz c <= length sb)
    /\ (forall d, d ∈ D -> d * cpy_elem_sz c + cpy_elem_sz c <= length db).

(** No two copies write the same buffer, and no copy reads the buffer another
    copy writes. *)
Definition cpys_separate (cpys : list Cpy) : Prop :=
  NoDup (cpy_dst <$> cpys)
  /\ forall i j c1 c2, cpys !! i = Some c1 -> cpys !! j = Some c2 -> i <> j ->
       cpy_src c1 <> cpy_dst c2.

(** After the copy, the destination buffer of [c] holds at each [D[k]] what
    the source buffer held at [S[k]], and what it held itself at every slot
    named in neither list. *)
Definition cpy_done (mem mem' : Memory) (S D : list nat) (c : Cpy) : Prop :=
  exists sb db db',
    mem !! cpy_src c = Some sb /\ mem !! cpy_dst c = Some db
    /\ mem' !! cpy_dst c = Some db'
    /\ length db' = length db
    /\ (forall k s d, S !! k = Some s -> D !! k = Some d ->
          slot db' (cpy_elem_sz c) d = slot sb (cpy_elem_sz c) s)
    /\ (forall j, j ∉ S -> j ∉ D ->
          slot db' (cpy_elem_sz c) j = slot db (cpy_elem_sz c) j).

(* ================================================================== *)
(** * Vocabulary for the proofs *)
(* ================================================================== *)

(** ** The indices a strided loop visits *)

Fixpoint strided_indices (fuel index bound stride : nat) : list nat :=
  if index <? bound then
    match fuel with
    | O => []
    | S fuel' => index :: strided_indices fuel' (index + stride) bound stride
    end
  else [].

(** The loop indices visited by [nthreads] threads, where thread [tid] runs
    [for (i = tid * c; i < bound; i += nthreads * c)]. *)
Definition grid_indices (c nthreads bound : nat) : list nat :=
  seq 0 nthreads ≫=
    (fun tid => strided_indices bound (tid * c) bound (nthreads * c)).

(** An iteration [idx] of a loop over a buffer of length [len] is local when
    it succeeds, keeps the length, and rewrites exactly the positions it
    owns: [owner j] is the loop index whose iteration accesses position [j],
    and [g j x] is the value it leaves there when it finds [x]. *)
Definition body_ok {A : Type} (body : nat -> list A -> result (list A))
  (owner : nat -> nat) (g : nat -> A -> A) (len : nat) (idx : nat) : Prop :=
  forall l, length l = len ->
    exists l', body idx l = Ok l' /\ length l' = len /\
      forall j, l' !! j = if decide (owner j = idx) then g j <$> l !! j else l !! j.

(** An iteration [idx] scatters when it succeeds, keeps the invariant [Inv]
    and the length of the buffer [buf s], and writes at most one position,
    [target idx], where it leaves [val] of that position. *)
Definition scatter_ok {St A : Type} (body : nat -> St -> result St)
  (buf : St -> list A) (Inv : St -> Prop)
  (target : nat -> option nat) (val : nat -> A) (len : nat) (idx : nat) : Prop :=
  forall s, Inv s -> length (buf s) = len ->
    exists s', body idx s = Ok s' /\ Inv s' /\ length (buf s') = len /\
      forall j, buf s' !! j =
        if decide (target idx = Some j) then Some (val j) else buf s !! j.

(** The position thread [tid] of the minimum-length kernel writes, if any. *)
Definition min_length_target (min_lengths sequence_lengths end_ids : list Z)
  (vocab_size_padded batch_size end_ids_size tid : nat) : option nat :=
  let bid := tid / end_ids_size in
  if bid <? batch_size then
    match end_ids !! tid, sequence_lengths !! bid, min_lengths !! bid with
    | Some end_id, Some seq_len, Some min_len =>
        if (0 <? end_id)%Z && (int_add seq_len 1 <? min_len)%Z
        then Some (Z.to_nat (Z.of_nat (bid * vocab_size_padded) + end_id))
        else None
    | _, _, _ => None
    end
  else None.

(** Column [col] of row [bid] is masked by the kernel: as
    [min_length_masked], with the [int] sum [sequence_length + 1]. *)
Definition min_length_masked_int (min_lengths sequence_lengths end_ids : list Z)
  (end_ids_size bid col : nat) : bool :=
  match sequence_lengths !! bid, min_lengths !! bid with
  | Some seq_len, Some min_len =>
      (int_add seq_len 1 <? min_len)%Z
      && existsb (fun end_id => (0 <? end_id)%Z && (end_id =? Z.of_nat col)%Z)
           (row_end_ids end_ids end_ids_size bid)
  | _, _ => false
  end.

(** The values an [int] can hold, [INT_MAX] apart. *)
Definition below_int_max (z : Z) : Prop := (- 2 ^ 31 <= z < 2 ^ 31 - 1)%Z.

(** The scratch entry (index and penalized logit) at position [k]. *)
Definition ws_entry (st : PenaltyState) (k : nat) : option (Z * spec_float) :=
  match penalty_indices st !! k, penalty_logits st !! k with
  | Some i, Some v => Some (i, v)
  | _, _ => None
  end.

(** The scratch entry the first loop computes at position [index] for a row
    whose logits start at offset [base] of the buffer [L]. *)
Definition penalty_expected (T : dtype) (penalty_type : RepetitionPenaltyType)
  (output_ids : list Z) (batch_size row base : nat) (penalty : spec_float)
  (input_length : Z) (max_input_length : nat) (L : Logits) (index : nat)
  : option (Z * spec_float) :=
  match history_id output_ids batch_size row input_length max_input_length index with
  | Some id =>
      match L !! Z.to_nat (Z.of_nat base + id) with
      | Some x => Some (id, penalized penalty_type (to_float T x) penalty)
      | None => None
      end
  | None => None
  end.

(** An iteration of the first loop is right when it succeeds, leaves the
    logits [L] alone and, at a considered position, stores the expected
    entry at that position of the scratch arrays. *)
Definition read_ok (body : nat -> PenaltyState -> result PenaltyState)
  (expected : nat -> option (Z * spec_float)) (L : Logits) (step idx : nat)
  : Prop :=
  forall st, st_logits st = L ->
    length (penalty_logits st) = step -> length (penalty_indices st) = step ->
    exists st', body idx st = Ok st' /\ st_logits st' = L
      /\ length (penalty_logits st') = step /\ length (penalty_indices st') = step
      /\ forall k, ws_entry st' k =
           match (if decide (k = idx) then expected idx else None) with
           | Some e => Some e
           | None => ws_entry st k
           end.

(** The position the second loop writes at iteration [idx]. *)
Definition penalty_target (expected : nat -> option (Z * spec_float))
  (base idx : nat) : option nat :=
  match expected idx with
  | Some (id, _) => Some (Z.to_nat (Z.of_nat base + id))
  | None => None
  end.

(** The scratch arrays hold the expected entries of the first loop. *)
Definition ws_filled (expected : nat -> option (Z * spec_float)) (step : nat)
  (st : PenaltyState) : Prop :=
  length (penalty_logits st) = step /\ length (penalty_indices st) = step
  /\ forall k e, k < step -> expected k = Some e -> ws_entry st k = Some e.

(** The copies of one buffer, in the order of [k]. *)
Definition copy_buffer (src dst sz : nat) (src_idx dst_idx : option (list nat))
  (count : nat) (mem : Memory) : result Memory :=
  foldM (fun k mem =>
           si <- index_at src_idx k ;;
           di <- index_at dst_idx k ;;
           copy_slot src dst sz si di mem)
    (seq 0 count) mem.

(* ================================================================== *)
(** * Temperature penalty, one temperature per row: the host side *)
(* ================================================================== *)

Section BatchApplyTemperaturePenaltyH2.
Variables (bias : option (list spec_float)) (temperatures : list spec_float).
Variables (batch_size vocab_size vocab_size_padded : nat).

(** The start of a thread of [batchApplyTemperaturePenalty_h2]: the two
    assertions, then its entry of the shared array [h2_inv_temperatures]. *)
Definition batchApplyTemperaturePenalty_h2_init (threadIdx : nat)
  (h2_inv_temperatures : list half2) : result (list half2) :=
  assert (vocab_size mod 2 =? 0) ;;;
  assert (vocab_size_padded mod 2 =? 0) ;;;
  if threadIdx <? batch_size then
    t <- load temperatures threadIdx ;;
    store h2_inv_temperatures threadIdx
      (__float2half2_rn
         (Fp.div Fp.binary32 f32_one (Fp.add Fp.binary32 t f32_eps)))
  else Ok h2_inv_temperatures.

Definition batchApplyTemperaturePenalty_h2_body (h2_inv_temperatures : list half2)
  (index : nat) (logits : Logits) : result Logits :=
  let mask_val := __float2half2_rn (f32 (-65504)) in
  let half_vocab_size := vocab_size / 2 in
  let half_vocab_size_padded := vocab_size_padded / 2 in
  let batch_idx := index / half_vocab_size_padded in
  let vocab_idx := index mod half_vocab_size_padded in
  logit <- (if vocab_idx <? half_vocab_size then load2 logits index
            else Ok mask_val) ;;
  if vocab_idx <? half_vocab_size then
    logit <- match bias with
             | Some b => bv <- load2 b vocab_idx ;; Ok (__hadd2 logit bv)
             | None => Ok logit
             end ;;
    inv <- load h2_inv_temperatures batch_idx ;;
    store2 logits index (__hmul2 logit inv)
  else Ok logits.

(** One block; [smem0] is the content of its dynamic shared memory
    ([batch_size] pairs) when the block starts. *)
Definition batchApplyTemperaturePenalty_h2 (gridDim blockDim : nat)
  (smem0 : list half2) (blockIdx : nat) (logits : Logits) : result Logits :=
  h2_inv_temperatures <-
    run_threads blockDim batchApplyTemperaturePenalty_h2_init smem0 ;;
  (* __syncthreads() *)
  run_threads blockDim
    (fun threadIdx =>
       strided_for (batch_size * (vocab_size_padded / 2))
         (blockIdx * blockDim + threadIdx) (batch_size * (vocab_size_padded / 2))
         (blockDim * gridDim)
         (batchApplyTemperaturePenalty_h2_body h2_inv_temperatures))
    logits.
End BatchApplyTemperaturePenaltyH2.

(** [invokeBatchApplyTemperaturePenalty<T>]: the host side.  [smem0 b] and
    [h2_smem0 b] are the initial contents of the shared memory of block [b],
    as an array of [float] and as an array of [half2]. *)
Definition invokeBatchApplyTemperaturePenalty (T : dtype) (logits : Logits)
  (bias : option (list spec_float)) (temperatures : list spec_float)
  (batch_size vocab_size vocab_size_padd : nat)
  (smem0 : nat -> list spec_float) (h2_smem0 : nat -> list half2)
  : result Logits :=
  let block := Nat.min vocab_size_padd 1024 in
  if block =? 0 then Err DivisionByZero else
  let grid := Nat.min (batch_size * vocab_size_padd / block) 65536 in
  if dtype_eqb T Half && (vocab_size mod 2 =? 0) && (vocab_size_padd mod 2 =? 0)
  then
    run_blocks grid (fun blockIdx =>
      batchApplyTemperaturePenalty_h2 bias temperatures batch_size vocab_size
        vocab_size_padd grid block (h2_smem0 blockIdx) blockIdx) logits
  else
    run_blocks grid (fun blockIdx =>
      batchApplyTemperaturePenalty T bias temperatures batch_size vocab_size
        vocab_size_padd grid block (smem0 blockIdx) blockIdx) logits.

(** The pair of [half]s the [half2] kernel keeps for a temperature. *)
Definition h2_inv_temperature (t : spec_float) : half2 :=
  __float2half2_rn (inv_temperature t).

(** The logit [batchApplyTemperaturePenalty_h2] leaves at flat position
    [index] when it finds [x] there: padding columns keep their value. *)
Definition batch_h2_temperature_scaled (bias : option (list spec_float))
  (temperatures : list spec_float) (vocab_size vocab_size_padded : nat)
  (index : nat) (x : spec_float) : spec_float :=
  if index mod vocab_size_padded <? vocab_size then
    Fp.mul Fp.binary16
      match bias with
      | Some b =>
          Fp.add Fp.binary16 x (default Fp.zero (b !! (index mod vocab_size_padded)))
      | None => x
      end
      (Fp.round Fp.binary16
         (inv_temperature
            (default Fp.zero (temperatures !! (index / vocab_size_padded)))))
  else x.

(* ================================================================== *)
(** * [LlamaBatch::Copy] and [LlamaBatch::Clear] *)
(* ================================================================== *)

(** A pointer into device memory: a buffer and a byte offset in it. *)
Record Ptr := mkPtr {
  ptr_buf : nat;
  ptr_off : nat;
}.

(** [p + n] for a [U*] pointer [p], [sizeof_U] being [sizeof(U)]. *)
Definition ptr_add (sizeof_U : nat) (p : Ptr) (n : nat) : Ptr :=
  mkPtr (ptr_buf p) (ptr_off p + sizeof_U * n).

Definition read_bytes (mem : Memory) (p : Ptr) (n : nat)
  : result (list Byte.byte) :=
  match mem !! ptr_buf p with
  | Some buf =>
      if ptr_off p + n <=? length buf then Ok (take n (drop (ptr_off p) buf))
      else Err OutOfBounds
  | None => Err OutOfBounds
  end.

Definition write_bytes (mem : Memory) (p : Ptr) (bytes : list Byte.byte)
  : result Memory :=
  match mem !! ptr_buf p with
  | Some buf =>
      if ptr_off p + length bytes <=? length buf
      then Ok (<[ptr_buf p := list_inserts (ptr_off p) bytes buf]> mem)
      else Err OutOfBounds
  | None => Err OutOfBounds
  end.

(** [cudaMemcpyAsync(dst, src, n, cudaMemcpyDefault, stream_)] and
    [cudaMemsetAsync(data, value, n, stream_)], in the order of the stream:
    [n] bytes are copied, or set to [value]. *)
Definition cudaMemcpyAsync (dst src : Ptr) (n : nat) (mem : Memory)
  : result Memory :=
  bytes <- read_bytes mem src n ;; write_bytes mem dst bytes.

Definition cudaMemsetAsync (data : Ptr) (value : Byte.byte) (n : nat)
  (mem : Memory) : result Memory :=
  write_bytes mem data (replicate n value).

(** [LlamaBatch::Copy]: returns [dst += count] and the memory. *)
Definition Copy (sizeof_U : nat) (src : Ptr) (count : nat) (dst : Ptr)
  (mem : Memory) : result (Ptr * Memory) :=
  mem' <- cudaMemcpyAsync dst src (sizeof_U * count) mem ;;
  Ok (ptr_add sizeof_U dst count, mem').

(** [LlamaBatch::Clear]: returns [data += count] and the memory. *)
Definition Clear (sizeof_U : nat) (data : Ptr) (count : nat) (mem : Memory)
  : result (Ptr * Memory) :=
  mem' <- cudaMemsetAsync data Byte.x00 (sizeof_U * count) mem ;;
  Ok (ptr_add sizeof_U data count, mem').

(* ================================================================== *)
(** * Indexed copy between buffers *)
(* ================================================================== *)

(** No two copies write the same buffer, and no copy reads a buffer that a
    copy writes, its own destination included. *)
Definition cpys_out_of_place (cpys : list Cpy) : Prop :=
  NoDup (cpy_dst <$> cpys)
  /\ forall c1 c2, c1 ∈ cpys -> c2 ∈ cpys -> cpy_src c1 <> cpy_dst c2.

(** After the copy, the destination buffer of [c] holds at each [D[k]] what
    the source buffer held at [S[k]], and what it held itself at every slot
    that is not in [D]. *)
Definition cpy_moved (mem mem' : Memory) (S D : list nat) (c : Cpy) : Prop :=
  exists sb db db',
    mem !! cpy_src c = Some sb /\ mem !! cpy_dst c = Some db
    /\ mem' !! cpy_dst c = Some db'
    /\ length db' = length db
    /\ (forall k s d, S !! k = Some s -> D !! k = Some d ->
          slot db' (cpy_elem_sz c) d = slot sb (cpy_elem_sz c) s)
    /\ (forall j, j ∉ D -> slot db' (cpy_elem_sz c) j = slot db (cpy_elem_sz c) j).

(* ================================================================== *)
(** * Reasoning about loops and launches *)
(* ================================================================== *)

Arguments Fp.add : simpl never.
Arguments Fp.sub : simpl never.
Arguments Fp.mul : simpl never.
Arguments Fp.div : simpl never.
Arguments Fp.round : simpl never.
Arguments Fp.of_Z : simpl never.
Arguments Fp.max_float : simpl never.
Arguments of_float : simpl never.
Arguments to_float : simpl never.
Arguments getMaxValue : simpl never.

Lemma bind_Ok {A B : Type} (c : result A) (k : A -> result B) (b : B) :
  bind c k = Ok b <-> exists a, c = Ok a /\ k a = Ok b.
Proof.
  destruct c as [a|e]; simpl; split.
  - intros H; exists a; auto.
  - intros (a' & Ha & Hk); congruence.
  - discriminate.
  - intros (a' & Ha & _); discriminate.
Qed.

Lemma load_Ok {A : Type} (buf : list A) (i : nat) (x : A) :
  load buf i = Ok x <-> buf !! i = Some x.
Proof. unfold load; destruct (buf !! i); split; congruence. Qed.

Lemma load_lookup {A : Type} (buf : list A) (i : nat) (x : A) :
  buf !! i = Some x -> load buf i = Ok x.
Proof. apply load_Ok. Qed.

Lemma store_lt {A : Type} (buf : list A) (i : nat) (x : A) :
  i < length buf -> store buf i x = Ok (<[i := x]> buf).
Proof.
  intros Hi; unfold store.
  destruct (i <? length buf) eqn:E; [done|].
  apply Nat.ltb_ge in E; lia.
Qed.

Lemma store_Ok {A : Type} (buf buf' : list A) (i : nat) (x : A) :
  store buf i x = Ok buf' <-> i < length buf /\ buf' = <[i := x]> buf.
Proof.
  unfold store; destruct (i <? length buf) eqn:E.
  - apply Nat.ltb_lt in E; split; [intros [= <-]; auto | intros [_ ->]; auto].
  - apply Nat.ltb_ge in E; split; [discriminate | intros [? _]; lia].
Qed.

Lemma foldM_app {A St : Type} (f : A -> St -> result St) (l1 l2 : list A) (s : St) :
  foldM f (l1 ++ l2) s = (s' <- foldM f l1 s ;; foldM f l2 s').
Proof.
  revert s; induction l1 as [|a l1 IH]; intros s; simpl; [done|].
  destruct (f a s) as [s1|e]; simpl; auto.
Qed.

Lemma foldM_concat {A B St : Type} (f : B -> St -> result St) (g : A -> list B)
  (l : list A) (s : St) :
  foldM (fun a => foldM f (g a)) l s = foldM f (concat (map g l)) s.
Proof.
  revert s; induction l as [|a l IH]; intros s; simpl; [done|].
  rewrite foldM_app. destruct (foldM f (g a) s); simpl; auto.
Qed.

Lemma foldM_ext {A St : Type} (f g : A -> St -> result St) (l : list A) (s : St) :
  (forall a s, a ∈ l -> f a s = g a s) -> foldM f l s = foldM g l s.
Proof.
  revert s; induction l as [|a l IH]; intros s H; simpl; [done|].
  rewrite H by left. destruct (g a s); simpl; [|done].
  apply IH. intros; apply H; by right.
Qed.


Lemma strided_for_foldM {St : Type} (fuel index bound stride : nat)
  (body : nat -> St -> result St) (s : St) :
  bound <= index + fuel * stride ->
  strided_for fuel index bound stride body s
  = foldM body (strided_indices fuel index bound stride) s.
Proof.
  revert index s; induction fuel as [|fuel IH]; intros index s Hfuel; simpl.
  - destruct (index <? bound) eqn:E; [|done].
    apply Nat.ltb_lt in E; lia.
  - destruct (index <? bound) eqn:E; [|done]. simpl.
    destruct (body index s) as [s'|e]; simpl; [|done].
    apply IH; lia.
Qed.

Lemma elem_of_strided_indices (fuel index bound stride i : nat) :
  0 < stride -> bound <= index + fuel * stride ->
  i ∈ strided_indices fuel index bound stride
  <-> index <= i < bound /\ (i - index) mod stride = 0.
Proof.
  intros Hs. revert index; induction fuel as [|fuel IH]; intros index Hfuel; simpl.
  - destruct (index <? bound) eqn:E.
    + apply Nat.ltb_lt in E; lia.
    + apply Nat.ltb_ge in E. rewrite elem_of_nil. lia.
  - destruct (index <? bound) eqn:E.
    + apply Nat.ltb_lt in E. rewrite elem_of_cons, IH by lia. split.
      * intros [->|[[H1 H2] H3]].
        -- rewrite Nat.sub_diag, Nat.Div0.mod_0_l; lia.
        -- split; [lia|].
           replace (i - index) with ((i - (index + stride)) + 1 * stride) by lia.
           by rewrite Nat.Div0.mod_add.
      * intros [[H1 H2] H3].
        destruct (decide (i = index)) as [|Hne]; [by left|right].
        assert (stride <= i - index).
        { destruct (decide (i - index < stride)) as [Hlt|]; [|lia].
          rewrite Nat.mod_small in H3 by done. lia. }
        split; [lia|].
        replace (i - index) with ((i - (index + stride)) + 1 * stride) in H3 by lia.
        by rewrite Nat.Div0.mod_add in H3.
    + apply Nat.ltb_ge in E. rewrite elem_of_nil. lia.
Qed.

Lemma strided_indices_lb (fuel index bound stride i : nat) :
  i ∈ strided_indices fuel index bound stride -> index <= i.
Proof.
  revert index; induction fuel as [|fuel IH]; intros index; simpl.
  - destruct (index <? bound); rewrite elem_of_nil; tauto.
  - destruct (index <? bound); [|rewrite elem_of_nil; tauto].
    rewrite elem_of_cons. intros [->|H]; [lia|]. apply IH in H. lia.
Qed.

Lemma NoDup_strided_indices (fuel index bound stride : nat) :
  0 < stride -> NoDup (strided_indices fuel index bound stride).
Proof.
  intros Hs. revert index; induction fuel as [|fuel IH]; intros index; simpl.
  - destruct (index <? bound); constructor.
  - destruct (index <? bound); [|constructor].
    constructor; [|apply IH].
    intros H%strided_indices_lb. lia.
Qed.

Lemma foldM_bind_list {A B St : Type} (f : B -> St -> result St) (g : A -> list B)
  (l : list A) (s : St) :
  foldM (fun a => foldM f (g a)) l s = foldM f (l ≫= g) s.
Proof.
  revert s; induction l as [|a l IH]; intros s; [done|].
  rewrite bind_cons, foldM_app. simpl.
  destruct (foldM f (g a) s); simpl; auto.
Qed.

Lemma foldM_fmap {A B St : Type} (f : B -> St -> result St) (h : A -> B)
  (l : list A) (s : St) :
  foldM f (h <$> l) s = foldM (fun a => f (h a)) l s.
Proof.
  revert s; induction l as [|a l IH]; intros s; simpl; [done|].
  destruct (f (h a) s); simpl; auto.
Qed.

(** A launch runs the threads in the order of their global index
    [blockIdx * blockDim + threadIdx]. *)
Lemma launch_flat {St : Type} (gridDim blockDim : nat)
  (kernel : nat -> nat -> St -> result St) (F : nat -> St -> result St) (s : St) :
  (forall bx t s, bx < gridDim -> t < blockDim ->
     kernel bx t s = F (bx * blockDim + t) s) ->
  launch gridDim blockDim kernel s = foldM F (seq 0 (gridDim * blockDim)) s.
Proof.
  unfold launch, run_blocks, run_threads.
  revert s; induction gridDim as [|g IH]; intros s HF; [done|].
  rewrite seq_S, foldM_app. simpl Nat.add.
  replace (S g * blockDim) with (g * blockDim + blockDim) by lia.
  rewrite seq_app, foldM_app, IH by (intros; apply HF; lia).
  destruct (foldM F (seq 0 (g * blockDim)) s) as [s'|e]; simpl; [|done].
  assert (E : foldM (kernel g) (seq 0 blockDim) s'
              = foldM F (seq (g * blockDim) blockDim) s').
  { rewrite <- (Nat.add_0_r (g * blockDim)), <- fmap_add_seq, foldM_fmap.
    apply foldM_ext. intros t s0 Ht%elem_of_seq. apply HF; lia. }
  rewrite E. by destruct (foldM F (seq (g * blockDim) blockDim) s').
Qed.


Lemma fuel_enough (bound start stride : nat) :
  0 < stride -> bound <= start + bound * stride.
Proof.
  intros Hs. assert (bound * 1 <= bound * stride) by (apply Nat.mul_le_mono_l; lia).
  lia.
Qed.

Lemma elem_of_grid_indices (c nthreads bound i : nat) :
  0 < c -> 0 < nthreads ->
  i ∈ grid_indices c nthreads bound <-> i < bound /\ i mod c = 0.
Proof.
  intros Hc Hn. unfold grid_indices. rewrite list_elem_of_bind. split.
  - intros (tid & Hi & Htid%elem_of_seq).
    assert (Hnc : 0 < nthreads * c) by (apply Nat.mul_pos_pos; lia).
    apply elem_of_strided_indices in Hi; [|done|by apply fuel_enough].
    destruct Hi as [[H1 H2] H3]. split; [done|].
    apply Nat.Div0.div_exact in H3.
    replace i with ((tid + nthreads * ((i - tid * c) / (nthreads * c))) * c) by nia.
    apply Nat.Div0.mod_mul.
  - intros [Hi Hm]. apply Nat.Div0.div_exact in Hm.
    pose proof (Nat.div_mod_eq (i / c) nthreads) as Hk.
    pose proof (Nat.mod_upper_bound (i / c) nthreads ltac:(lia)) as Hub.
    assert (Hnc : 0 < nthreads * c) by (apply Nat.mul_pos_pos; lia).
    exists ((i / c) mod nthreads). split; [|apply elem_of_seq; lia].
    apply elem_of_strided_indices; [done|by apply fuel_enough|].
    split; [nia|].
    replace (i - (i / c) mod nthreads * c)
      with ((i / c / nthreads) * (nthreads * c)) by nia.
    apply Nat.Div0.mod_mul.
Qed.

Lemma NoDup_grid_indices (c nthreads bound : nat) :
  0 < c -> 0 < nthreads -> NoDup (grid_indices c nthreads bound).
Proof.
  intros Hc Hn. unfold grid_indices. apply NoDup_bind.
  - intros t1 t2 i Ht1%elem_of_seq Ht2%elem_of_seq Hi1 Hi2.
    assert (Hnc : 0 < nthreads * c) by (apply Nat.mul_pos_pos; lia).
    apply elem_of_strided_indices in Hi1; [|done|by apply fuel_enough].
    apply elem_of_strided_indices in Hi2; [|done|by apply fuel_enough].
    destruct Hi1 as [[H1 _] H1'], Hi2 as [[H2 _] H2'].
    apply Nat.Div0.div_exact in H1', H2'.
    set (q1 := (i - t1 * c) / (nthreads * c)) in *.
    set (q2 := (i - t2 * c) / (nthreads * c)) in *.
    assert (E : t1 + nthreads * q1 = t2 + nthreads * q2) by nia.
    assert (E1 : (t1 + nthreads * q1) mod nthreads = t1).
    { rewrite Nat.mul_comm, Nat.Div0.mod_add. apply Nat.mod_small; lia. }
    assert (E2 : (t2 + nthreads * q2) mod nthreads = t2).
    { rewrite Nat.mul_comm, Nat.Div0.mod_add. apply Nat.mod_small; lia. }
    congruence.
  - intros tid _. apply NoDup_strided_indices. apply Nat.mul_pos_pos; lia.
  - apply NoDup_seq.
Qed.

(** ** Loops whose iterations own disjoint parts of a buffer *)

Section Pointwise.
Context {A : Type}.
Variables (body : nat -> list A -> result (list A)).
(** [owner j] is the loop index whose iteration accesses position [j];
    [g j x] is the value it leaves there when it finds [x]. *)
Variables (owner : nat -> nat) (g : nat -> A -> A) (len : nat).

Lemma foldM_pointwise (vis : list nat) (l : list A) :
  NoDup vis -> (forall idx, idx ∈ vis -> body_ok body owner g len idx) ->
  length l = len ->
  exists l', foldM body vis l = Ok l' /\ length l' = len /\
    forall j, l' !! j = if decide (owner j ∈ vis) then g j <$> l !! j else l !! j.
Proof.
  intros Hnd. revert l. induction Hnd as [|idx vis Hnotin Hnd IH]; intros l Hok Hlen.
  - exists l. split_and!; [done..|]. intros j.
    destruct (decide (owner j ∈ [])) as [H%elem_of_nil|]; done.
  - destruct (Hok idx ltac:(left) l Hlen) as (l1 & Hb & Hlen1 & H1).
    destruct (IH l1 ltac:(intros; apply Hok; by right) Hlen1) as (l' & Hf & Hlen' & H').
    exists l'. simpl. rewrite Hb. simpl. split_and!; [done..|].
    intros j. rewrite H', H1.
    destruct (decide (owner j = idx)) as [E|E].
    + destruct (decide (owner j ∈ vis)) as [Hin|_]; [congruence|].
      destruct (decide (owner j ∈ idx :: vis)) as [|Hn]; [done|].
      exfalso; apply Hn; rewrite E; left.
    + destruct (decide (owner j ∈ vis)) as [Hin|Hn].
      * destruct (decide (owner j ∈ idx :: vis)) as [|Hn']; [done|].
        exfalso; apply Hn'; by right.
      * destruct (decide (owner j ∈ idx :: vis)) as [Hin'|]; [|done].
        apply elem_of_cons in Hin' as [?|?]; done.
Qed.
End Pointwise.

Lemma grid_pointwise {A : Type} (body : nat -> list A -> result (list A))
  (owner : nat -> nat) (g : nat -> A -> A) (c nthreads bound : nat) (l : list A) :
  0 < c -> 0 < nthreads ->
  (forall idx, idx < bound -> idx mod c = 0 -> body_ok body owner g (length l) idx) ->
  exists l',
    foldM (fun tid => strided_for bound (tid * c) bound (nthreads * c) body)
      (seq 0 nthreads) l = Ok l'
    /\ length l' = length l
    /\ forall j, l' !! j =
         if decide (owner j < bound /\ owner j mod c = 0)
         then g j <$> l !! j else l !! j.
Proof.
  intros Hc Hn Hok.
  assert (Hnc : 0 < nthreads * c) by (apply Nat.mul_pos_pos; lia).
  rewrite (foldM_ext _
    (fun tid => foldM body (strided_indices bound (tid * c) bound (nthreads * c))))
    by (intros; apply strided_for_foldM; by apply fuel_enough).
  rewrite foldM_bind_list. fold (grid_indices c nthreads bound).
  destruct (foldM_pointwise body owner g (length l) (grid_indices c nthreads bound) l)
    as (l' & Hrun & Hlen & Hl'); [by apply NoDup_grid_indices| |done|].
  { intros idx Hin. apply elem_of_grid_indices in Hin as [? ?]; [|done..].
    by apply Hok. }
  exists l'. split_and!; [done..|].
  intros j. rewrite Hl'.
  destruct (decide (owner j ∈ grid_indices c nthreads bound)) as [Hin|Hin];
    rewrite elem_of_grid_indices in Hin by done;
    destruct (decide (owner j < bound /\ owner j mod c = 0)); tauto.
Qed.


Lemma applyTemperaturePenalty_body_ok (T : dtype) (bias : option (list spec_float))
  (r : spec_float) (m vocab_size vocab_size_padd idx : nat) :
  0 < vocab_size_padd -> bias_fits bias vocab_size_padd ->
  idx < m * vocab_size_padd ->
  body_ok (applyTemperaturePenalty_body T bias r vocab_size vocab_size_padd)
    (fun j => j) (temperature_scaled T bias r vocab_size vocab_size_padd)
    (m * vocab_size_padd) idx.
Proof.
  intros Hvp Hb Hidx l Hlen.
  unfold applyTemperaturePenalty_body.
  assert (Hmod : idx mod vocab_size_padd < vocab_size_padd)
    by (apply Nat.mod_upper_bound; lia).
  destruct (lookup_lt_is_Some_2 l idx ltac:(lia)) as [x Hx].
  assert (Hbias : match bias with
                  | None => Ok (of_float T Fp.zero)
                  | Some b => load b (idx mod vocab_size_padd)
                  end = Ok (bias_at T bias (idx mod vocab_size_padd))).
  { unfold bias_at. destruct bias as [b|]; [|done].
    destruct (lookup_lt_is_Some_2 b (idx mod vocab_size_padd)) as [y Hy].
    { simpl in Hb. lia. }
    rewrite Hy. by apply load_lookup. }
  rewrite Hbias. simpl.
  exists (<[idx := temperature_scaled T bias r vocab_size vocab_size_padd idx x]> l).
  split.
  { unfold temperature_scaled. destruct (idx mod vocab_size_padd <? vocab_size).
    - rewrite (load_lookup _ _ _ Hx). simpl. apply store_lt. lia.
    - apply store_lt. lia. }
  split; [by rewrite length_insert|].
  intros j. rewrite list_lookup_insert.
  destruct (decide (j = idx)) as [->|Hne].
  - rewrite decide_True by (split; [done|lia]). by rewrite Hx.
  - by rewrite decide_False by (intros [? _]; congruence).
Qed.

Lemma applyTemperaturePenalty_launch (T : dtype) (bias : option (list spec_float))
  (r : spec_float) (m vocab_size vocab_size_padd gridDim blockDim : nat)
  (logits : Logits) :
  0 < gridDim -> 0 < blockDim -> 0 < vocab_size_padd ->
  bias_fits bias vocab_size_padd ->
  length logits = m * vocab_size_padd ->
  exists out,
    launch gridDim blockDim
      (applyTemperaturePenalty T bias r m vocab_size vocab_size_padd gridDim blockDim)
      logits = Ok out
    /\ length out = length logits
    /\ forall j, out !! j =
         temperature_scaled T bias r vocab_size vocab_size_padd j <$> logits !! j.
Proof.
  intros Hg Hb Hvp Hbias Hlen.
  set (N := m * vocab_size_padd) in *.
  set (body := applyTemperaturePenalty_body T bias r vocab_size vocab_size_padd).
  rewrite (launch_flat _ _ _
    (fun tid => strided_for N (tid * 1) N (gridDim * blockDim * 1) body)).
  2:{ intros bx t s _ _. unfold applyTemperaturePenalty. fold N body.
      by rewrite !Nat.mul_1_r, (Nat.mul_comm blockDim gridDim). }
  destruct (grid_pointwise body (fun j => j)
              (temperature_scaled T bias r vocab_size vocab_size_padd)
              1 (gridDim * blockDim) N logits)
    as (out & Hrun & Hlen' & Hout); [lia|by apply Nat.mul_pos_pos| |].
  { intros idx Hidx _. rewrite Hlen.
    by apply applyTemperaturePenalty_body_ok. }
  exists out. split; [exact Hrun|split; [exact Hlen'|]].
  intros j. rewrite Hout.
  destruct (decide (j < N /\ j mod 1 = 0)) as [|Hn]; [done|].
  assert (Hj : logits !! j = None).
  { apply lookup_ge_None_2. rewrite Hlen. destruct (decide (j < N)); [|lia].
    exfalso; apply Hn; split; [done|]. apply Nat.mod_1_r. }
  by rewrite Hj.
Qed.

Lemma launch_config_pos (batch_size vocab_size_padd : nat) :
  0 < batch_size -> 0 < vocab_size_padd ->
  0 < Nat.min vocab_size_padd 1024
  /\ 0 < Nat.min (batch_size * vocab_size_padd / Nat.min vocab_size_padd 1024) 65536.
Proof.
  intros Hb Hvp.
  assert (H1024 : 0 < 1024) by (apply Nat.ltb_lt; reflexivity).
  assert (H65536 : 0 < 65536) by (apply Nat.ltb_lt; reflexivity).
  set (block := Nat.min vocab_size_padd 1024).
  assert (Hblock : 0 < block) by (unfold block; lia).
  split; [done|].
  assert (batch_size <= batch_size * vocab_size_padd / block).
  { apply Nat.div_le_lower_bound; [lia|].
    rewrite (Nat.mul_comm block). apply Nat.mul_le_mono_l. unfold block; lia. }
  lia.
Qed.

(** What the scalar kernel leaves in the buffer, under the launch
    configuration chosen by the host function. *)
Lemma invokeApplyTemperaturePenalty_scalar (T : dtype) (logits : Logits)
  (bias : option (list spec_float)) (temperature : spec_float)
  (batch_size vocab_size vocab_size_padd : nat) :
  0 < batch_size -> 0 < vocab_size_padd ->
  bias_fits bias vocab_size_padd ->
  length logits = batch_size * vocab_size_padd ->
  dtype_eqb T Half && (vocab_size mod 2 =? 0) && (vocab_size_padd mod 2 =? 0) = false ->
  exists out,
    invokeApplyTemperaturePenalty T logits bias temperature
      batch_size vocab_size vocab_size_padd = Ok out
    /\ length out = length logits
    /\ forall j, out !! j =
         temperature_scaled T bias
           (Fp.div Fp.binary32 f32_one (Fp.add Fp.binary32 temperature f32_eps))
           vocab_size vocab_size_padd j <$> logits !! j.
Proof.
  intros Hb Hvp Hbias Hlen Hpath.
  destruct (launch_config_pos batch_size vocab_size_padd Hb Hvp) as [Hblock Hgrid].
  unfold invokeApplyTemperaturePenalty. rewrite Hpath.
  destruct (Nat.min vocab_size_padd 1024 =? 0) eqn:E;
    [apply Nat.eqb_eq in E; lia|].
  by apply applyTemperaturePenalty_launch.
Qed.

(** ** Loops whose iterations write a value that depends on the position only *)

Section Scatter.
Context {St A : Type}.
Variables (body : nat -> St -> result St) (buf : St -> list A).
Variables (Inv : St -> Prop) (target : nat -> option nat) (val : nat -> A).
Variable len : nat.

Lemma foldM_scatter (vis : list nat) (s : St) :
  (forall idx, idx ∈ vis -> scatter_ok body buf Inv target val len idx) ->
  Inv s -> length (buf s) = len ->
  exists s', foldM body vis s = Ok s' /\ Inv s' /\ length (buf s') = len /\
    forall j, buf s' !! j =
      if decide (Exists (fun idx => target idx = Some j) vis)
      then Some (val j) else buf s !! j.
Proof.
  revert s. induction vis as [|idx vis IH]; intros s Hok HI Hlen.
  - exists s. split_and!; [done..|]. intros j.
    destruct (decide _) as [H%Exists_nil|]; done.
  - destruct (Hok idx ltac:(left) s HI Hlen) as (s1 & Hb & HI1 & Hlen1 & H1).
    destruct (IH s1 ltac:(intros; apply Hok; by right) HI1 Hlen1)
      as (s' & Hf & HI' & Hlen' & H').
    exists s'. simpl. rewrite Hb. simpl. split_and!; [done..|].
    intros j. rewrite H', H1.
    destruct (decide (Exists (fun idx => target idx = Some j) vis)) as [Hex|Hex].
    + rewrite decide_True by (by apply Exists_cons_tl). done.
    + destruct (decide (target idx = Some j)) as [E|E].
      * rewrite decide_True by (by apply Exists_cons_hd). done.
      * rewrite decide_False; [done|].
        intros [?|?]%Exists_cons; done.
Qed.
End Scatter.

(* ================================================================== *)
(** * Minimum-length penalty *)
(* ================================================================== *)

Lemma storeZ_Ok {A : Type} (buf : list A) (i : Z) (x : A) :
  (0 <= i < Z.of_nat (length buf))%Z ->
  storeZ buf i x = Ok (<[Z.to_nat i := x]> buf).
Proof.
  intros Hi. unfold storeZ.
  destruct (i <? 0)%Z eqn:E; [apply Z.ltb_lt in E; lia|].
  apply store_lt. lia.
Qed.

Lemma loadZ_Ok {A : Type} (buf : list A) (i : Z) (x : A) :
  (0 <= i)%Z -> buf !! Z.to_nat i = Some x -> loadZ buf i = Ok x.
Proof.
  intros Hi Hx. unfold loadZ.
  destruct (i <? 0)%Z eqn:E; [apply Z.ltb_lt in E; lia|].
  by apply load_lookup.
Qed.

Lemma div_mod_unique (E q r : nat) : r < E -> (q * E + r) / E = q /\ (q * E + r) mod E = r.
Proof.
  intros Hr. split.
  - rewrite Nat.div_add_l by lia. rewrite Nat.div_small by done. lia.
  - rewrite Nat.add_comm, Nat.Div0.mod_add. by apply Nat.mod_small.
Qed.

Lemma ceil_div_covers (n block : nat) :
  0 < block -> n <= block * ((n + block - 1) / block).
Proof.
  intros Hb.
  pose proof (Nat.div_mod_eq (n + block - 1) block) as H.
  pose proof (Nat.mod_upper_bound (n + block - 1) block ltac:(lia)) as Hr.
  lia.
Qed.

Section MinLength.
Variable T : dtype.
Variables (min_lengths sequence_lengths : list Z).
Variables (vocab_size_padded batch_size : nat).
Variables (end_ids : list Z) (end_ids_size : nat).
Hypothesis HE : 0 < end_ids_size.
Hypothesis Hend_len : batch_size * end_ids_size <= length end_ids.
Hypothesis Hseq_len : batch_size <= length sequence_lengths.
Hypothesis Hmin_len : batch_size <= length min_lengths.
Hypothesis Hend_range :
  forall i end_id, i < batch_size * end_ids_size -> end_ids !! i = Some end_id ->
    (end_id < Z.of_nat vocab_size_padded)%Z.

Let target := min_length_target min_lengths sequence_lengths end_ids
                vocab_size_padded batch_size end_ids_size.
Let mask_val := Fp.opp (getMaxValue T).
Let thread (tid : nat) :=
  batchApplyMinLengthPenalty T min_lengths sequence_lengths
    vocab_size_padded batch_size end_ids end_ids_size 1 1 tid 0.

Lemma min_length_bid_lt (tid : nat) :
  tid / end_ids_size < batch_size -> tid < batch_size * end_ids_size.
Proof.
  clear -HE. intros Hb. pose proof (Nat.div_mod_eq tid end_ids_size).
  pose proof (Nat.mod_upper_bound tid end_ids_size ltac:(lia)). nia.
Qed.

Lemma min_length_thread_ok (tid : nat) :
  scatter_ok thread (fun l => l) (fun _ => True) target (fun _ => mask_val)
    (batch_size * vocab_size_padded) tid.
Proof.
  intros l _ Hlen.
  unfold thread, target, batchApplyMinLengthPenalty, min_length_target.
  rewrite Nat.add_0_l, Nat.mul_1_r.
  destruct (end_ids_size =? 0) eqn:E0; [apply Nat.eqb_eq in E0; lia|].
  destruct (tid / end_ids_size <? batch_size) eqn:Ebid.
  2:{ exists l. split_and!; [done..|]. intros j. first [done | by destruct (decide _)]. }
  apply Nat.ltb_lt in Ebid.
  pose proof (min_length_bid_lt tid Ebid) as Htid.
  replace (tid / end_ids_size * end_ids_size + tid mod end_ids_size) with tid
    by (pose proof (Nat.div_mod_eq tid end_ids_size); lia).
  destruct (lookup_lt_is_Some_2 end_ids tid ltac:(lia)) as [end_id Hend].
  destruct (lookup_lt_is_Some_2 sequence_lengths (tid / end_ids_size) ltac:(lia))
    as [seq_len Hseq].
  destruct (lookup_lt_is_Some_2 min_lengths (tid / end_ids_size) ltac:(lia))
    as [min_len Hmin].
  rewrite Hend, Hseq, Hmin, (load_lookup _ _ _ Hend). simpl.
  destruct (0 <? end_id)%Z eqn:Epos; simpl.
  2:{ exists l. split_and!; [done..|]. intros j. first [done | by destruct (decide _)]. }
  rewrite (load_lookup _ _ _ Hseq), (load_lookup _ _ _ Hmin). simpl.
  destruct (int_add seq_len 1 <? min_len)%Z eqn:Ecmp.
  2:{ exists l. split_and!; [done..|]. intros j. first [done | by destruct (decide _)]. }
  apply Z.ltb_lt in Epos. pose proof (Hend_range tid end_id Htid Hend) as Hr.
  set (p := (Z.of_nat (tid / end_ids_size * vocab_size_padded) + end_id)%Z).
  assert (Hp : (0 <= p < Z.of_nat (length l))%Z).
  { unfold p. rewrite Hlen. nia. }
  rewrite storeZ_Ok by done.
  eexists. split_and!; [done|done|by rewrite length_insert|].
  intros j. rewrite list_lookup_insert.
  destruct (decide (Z.to_nat p = j)) as [<-|Hne].
  - rewrite !decide_True; [done|done|]. split; [done|lia].
  - rewrite !decide_False; [done| |]; [congruence|tauto].
Qed.

Lemma row_col_unique (q q' r r' : nat) :
  r < vocab_size_padded -> r' < vocab_size_padded ->
  q * vocab_size_padded + r = q' * vocab_size_padded + r' -> q = q' /\ r = r'.
Proof.
  clear. intros Hr Hr' E.
  destruct (div_mod_unique vocab_size_padded q r Hr) as [Hq Hm].
  destruct (div_mod_unique vocab_size_padded q' r' Hr') as [Hq' Hm'].
  rewrite E in Hq, Hm. split; congruence.
Qed.

Lemma row_end_ids_lookup (bid eid : nat) :
  eid < end_ids_size ->
  row_end_ids end_ids end_ids_size bid !! eid
  = end_ids !! (bid * end_ids_size + eid).
Proof.
  clear. intros He. unfold row_end_ids.
  by rewrite lookup_take_lt, lookup_drop.
Qed.

Lemma min_length_masked_iff (nthreads bid col : nat) :
  batch_size * end_ids_size <= nthreads ->
  bid < batch_size -> col < vocab_size_padded ->
  Exists (fun tid => target tid = Some (bid * vocab_size_padded + col))
    (seq 0 nthreads)
  <-> min_length_masked_int min_lengths sequence_lengths end_ids end_ids_size
        bid col = true.
Proof.
  intros Hn Hbid Hcol. rewrite Exists_exists. split.
  - intros (tid & _ & Ht). unfold target, min_length_target in Ht.
    destruct (tid / end_ids_size <? batch_size) eqn:Ebid; [|done].
    apply Nat.ltb_lt in Ebid. pose proof (min_length_bid_lt tid Ebid) as Htid.
    destruct (end_ids !! tid) as [end_id|] eqn:Hend; [|done].
    destruct (sequence_lengths !! (tid / end_ids_size)) as [seq_len|] eqn:Hseq; [|done].
    destruct (min_lengths !! (tid / end_ids_size)) as [min_len|] eqn:Hmin; [|done].
    destruct (0 <? end_id)%Z eqn:Epos; [|done].
    destruct (int_add seq_len 1 <? min_len)%Z eqn:Ecmp; [|done].
    simpl in Ht. injection Ht as Ht.
    apply Z.ltb_lt in Epos. pose proof (Hend_range tid end_id Htid Hend) as Hr.
    destruct (row_col_unique (tid / end_ids_size) bid (Z.to_nat end_id) col)
      as [Eb Ec]; [lia|done|lia|].
    unfold min_length_masked_int. rewrite <- Eb, Hseq, Hmin, Ecmp. simpl.
    apply existsb_exists. exists end_id. split.
    + apply list_elem_of_In, (list_elem_of_lookup_2 _ (tid mod end_ids_size)).
      rewrite row_end_ids_lookup by (apply Nat.mod_upper_bound; lia).
      rewrite <- Hend. f_equal.
      pose proof (Nat.div_mod_eq tid end_ids_size); lia.
    + apply andb_true_iff. split; [by apply Z.ltb_lt|]. apply Z.eqb_eq. lia.
  - unfold min_length_masked_int.
    destruct (sequence_lengths !! bid) as [seq_len|] eqn:Hseq; [|done].
    destruct (min_lengths !! bid) as [min_len|] eqn:Hmin; [|done].
    intros [Ecmp Hex]%andb_true_iff.
    apply existsb_exists in Hex as (end_id & Hin & [Epos Eeq]%andb_true_iff).
    apply list_elem_of_In, list_elem_of_lookup_1 in Hin as [eid Heid].
    assert (He : eid < end_ids_size).
    { apply lookup_lt_Some in Heid. unfold row_end_ids in Heid.
      rewrite length_take in Heid. lia. }
    rewrite row_end_ids_lookup in Heid by done.
    destruct (div_mod_unique end_ids_size bid eid He) as [Hq Hm].
    exists (bid * end_ids_size + eid). split.
    + apply elem_of_seq. nia.
    + unfold target, min_length_target. rewrite Hq.
      destruct (bid <? batch_size) eqn:Eb; [|apply Nat.ltb_ge in Eb; lia].
      rewrite Heid, Hseq, Hmin, Epos, Ecmp. simpl. f_equal.
      apply Z.eqb_eq in Eeq. lia.
Qed.

(** What the kernel leaves in the buffer, for any launch with enough
    threads. *)
Lemma batchApplyMinLengthPenalty_launch (gridDim blockDim : nat) (logits : Logits) :
  batch_size * end_ids_size <= gridDim * blockDim ->
  length logits = batch_size * vocab_size_padded ->
  exists out,
    launch gridDim blockDim
      (batchApplyMinLengthPenalty T min_lengths sequence_lengths
         vocab_size_padded batch_size end_ids end_ids_size gridDim blockDim)
      logits = Ok out
    /\ length out = length logits
    /\ forall bid col, bid < batch_size -> col < vocab_size_padded ->
         out !! (bid * vocab_size_padded + col) =
           if min_length_masked_int min_lengths sequence_lengths end_ids
                end_ids_size bid col
           then Some (Fp.opp (getMaxValue T))
           else logits !! (bid * vocab_size_padded + col).
Proof.
  intros Hn Hlen.
  rewrite (launch_flat _ _ _ thread).
  2:{ intros bx t s _ _. unfold thread, batchApplyMinLengthPenalty.
      by rewrite Nat.add_0_l, Nat.mul_1_r, (Nat.add_comm t). }
  destruct (foldM_scatter thread (fun l => l) (fun _ => True) target
              (fun _ => mask_val) (batch_size * vocab_size_padded)
              (seq 0 (gridDim * blockDim)) logits)
    as (out & Hrun & _ & Hlen' & Hout); [|done|done|].
  { intros tid _. apply min_length_thread_ok. }
  exists out. split; [done|]. split; [congruence|].
  intros bid col Hbid Hcol. rewrite Hout.
  destruct (min_length_masked_int _ _ _ _ bid col) eqn:Em.
  - rewrite decide_True; [done|]. by apply min_length_masked_iff.
  - rewrite decide_False; [done|].
    intros H%min_length_masked_iff; [congruence|done..].
Qed.
End MinLength.

(** The host function launches enough threads. *)
Lemma invokeMinLengthPenalty_spec (T : dtype) (logits : Logits)
  (min_lengths sequence_lengths : list Z) (vocab_size_padded batch_size : nat)
  (end_ids : list Z) (end_ids_size : nat) :
  0 < batch_size -> 0 < end_ids_size ->
  length logits = batch_size * vocab_size_padded ->
  batch_size * end_ids_size <= length end_ids ->
  batch_size <= length sequence_lengths ->
  batch_size <= length min_lengths ->
  (forall i end_id, i < batch_size * end_ids_size -> end_ids !! i = Some end_id ->
     (end_id < Z.of_nat vocab_size_padded)%Z) ->
  exists out,
    invokeMinLengthPenalty T logits min_lengths sequence_lengths
      vocab_size_padded batch_size end_ids end_ids_size = Ok out
    /\ length out = length logits
    /\ forall bid col, bid < batch_size -> col < vocab_size_padded ->
         out !! (bid * vocab_size_padded + col) =
           if min_length_masked_int min_lengths sequence_lengths end_ids
                end_ids_size bid col
           then Some (Fp.opp (getMaxValue T))
           else logits !! (bid * vocab_size_padded + col).
Proof.
  intros Hb HE Hlen Hend Hseq Hmin Hrange.
  unfold invokeMinLengthPenalty.
  assert (H1024 : 0 < 1024) by (apply Nat.ltb_lt; reflexivity).
  assert (Hn : 0 < batch_size * end_ids_size) by (apply Nat.mul_pos_pos; lia).
  set (block := Nat.min (batch_size * end_ids_size) 1024).
  assert (Hblock : 0 < block) by (unfold block; lia).
  destruct (block =? 0) eqn:E0; [apply Nat.eqb_eq in E0; lia|].
  apply batchApplyMinLengthPenalty_launch; try done.
  by apply ceil_div_covers.
Qed.

(** Below [INT_MAX], [sequence_length + 1] does not overflow. *)
Lemma int_add_1 (z : Z) : below_int_max z -> int_add z 1 = (z + 1)%Z.
Proof.
  unfold below_int_max, int_add, int_wrap. intros Hz.
  rewrite Z.mod_small; lia.
Qed.

Lemma min_length_masked_int_eq (min_lengths sequence_lengths end_ids : list Z)
  (end_ids_size bid col : nat) :
  Forall below_int_max sequence_lengths ->
  min_length_masked_int min_lengths sequence_lengths end_ids end_ids_size bid col
  = min_length_masked min_lengths sequence_lengths end_ids end_ids_size bid col.
Proof.
  intros Hrange. unfold min_length_masked_int, min_length_masked.
  destruct (sequence_lengths !! bid) as [s|] eqn:Hs; [|done].
  rewrite int_add_1; [done|].
  rewrite Forall_forall in Hrange. apply Hrange.
  by apply list_elem_of_lookup_2 in Hs.
Qed.

(* ================================================================== *)
(** * Repetition penalty *)
(* ================================================================== *)

(** ** The first loop, for any body that is right at every position *)

Lemma foldM_read (body : nat -> PenaltyState -> result PenaltyState)
  (expected : nat -> option (Z * spec_float)) (L : Logits) (step : nat)
  (vis : list nat) (st : PenaltyState) :
  (forall idx, idx ∈ vis -> read_ok body expected L step idx) ->
  st_logits st = L ->
  length (penalty_logits st) = step -> length (penalty_indices st) = step ->
  exists st', foldM body vis st = Ok st' /\ st_logits st' = L
    /\ length (penalty_logits st') = step /\ length (penalty_indices st') = step
    /\ forall k e, expected k = Some e ->
         k ∈ vis \/ ws_entry st k = Some e -> ws_entry st' k = Some e.
Proof.
  revert st. induction vis as [|a vis IH]; intros st Hok HL Hpl Hpi.
  - exists st. split_and!; [done..|].
    intros k e _ [H%elem_of_nil|H]; done.
  - destruct (Hok a ltac:(left) st HL Hpl Hpi) as (st1 & Hb & HL1 & Hpl1 & Hpi1 & H1).
    destruct (IH st1 ltac:(intros; apply Hok; by right) HL1 Hpl1 Hpi1)
      as (st' & Hf & HL' & Hpl' & Hpi' & H').
    exists st'. simpl. rewrite Hb. simpl. split_and!; [done..|].
    intros k e He Hk. apply H'; [done|].
    destruct (decide (k = a)) as [->|Hne].
    + right. rewrite H1, decide_True by done. by rewrite He.
    + destruct Hk as [[?|?]%elem_of_cons|Hk]; [done|by left|].
      right. rewrite H1, decide_False by done. done.
Qed.

(** The threads of a block running the same strided loop over [step]
    positions visit every position. *)
Lemma run_threads_strided (blockDim step : nat) :
  0 < blockDim \/ step = 0 ->
  exists vis, (forall idx, idx ∈ vis <-> idx < step) /\
    forall (St : Type) (body : nat -> St -> result St) (s : St),
      run_threads blockDim
        (fun threadIdx => strided_for step threadIdx step blockDim body) s
      = foldM body vis s.
Proof.
  intros [Hb | ->].
  - exists (grid_indices 1 blockDim step). split.
    + intros idx. rewrite elem_of_grid_indices by lia.
      rewrite Nat.mod_1_r. tauto.
    + intros St body s. unfold run_threads, grid_indices.
      rewrite <- foldM_bind_list. apply foldM_ext. intros t s' _.
      rewrite !Nat.mul_1_r. apply strided_for_foldM. by apply fuel_enough.
  - exists []. split.
    + intros idx. rewrite elem_of_nil. lia.
    + intros St body s. unfold run_threads.
      induction (seq 0 blockDim) as [|t l IH]; [done|]. simpl. apply IH.
Qed.

(** ** One row *)

Section RepetitionRow.
Variables (T : dtype) (penalty_type : RepetitionPenaltyType).
Variables (output_ids : list Z) (batch_size vocab_size row base : nat).
Variables (penalty : spec_float) (input_length : Z).
Variables (max_input_length step : nat).
Variable L : Logits.
Hypothesis Hvalid :
  history_valid output_ids batch_size vocab_size row input_length
    max_input_length step = true.
Hypothesis Hfits : base + vocab_size <= length L.

Let expected :=
  penalty_expected T penalty_type output_ids batch_size row base penalty
    input_length max_input_length L.
Let ids := history_ids output_ids batch_size row input_length max_input_length step.

Lemma valid_position (idx : nat) :
  idx < step -> is_padding input_length max_input_length idx = false ->
  exists id x,
    output_ids !! (idx * batch_size + row) = Some id
    /\ (0 <= id < Z.of_nat vocab_size)%Z
    /\ L !! Z.to_nat (Z.of_nat base + id) = Some x
    /\ expected idx = Some (id, penalized penalty_type (to_float T x) penalty).
Proof.
  intros Hidx Hpad. unfold history_valid in Hvalid.
  rewrite forallb_forall in Hvalid.
  specialize (Hvalid idx ltac:(apply in_seq; lia)).
  rewrite Hpad in Hvalid. simpl in Hvalid.
  destruct (output_ids !! (idx * batch_size + row)) as [id|] eqn:Hid; [|done].
  apply andb_true_iff in Hvalid as [H0%Z.leb_le Hv%Z.ltb_lt].
  destruct (lookup_lt_is_Some_2 L (Z.to_nat (Z.of_nat base + id)) ltac:(lia))
    as [x Hx].
  exists id, x. split_and!; [done|lia|lia|done|].
  unfold expected, penalty_expected, history_id. rewrite Hpad, Hid. simpl.
  by rewrite Hx.
Qed.

Lemma expected_padding (idx : nat) :
  is_padding input_length max_input_length idx = true -> expected idx = None.
Proof.
  intros Hpad. unfold expected, penalty_expected, history_id. by rewrite Hpad.
Qed.

Lemma ws_entry_insert (st : PenaltyState) (idx k : nat) (id : Z) (v : spec_float) :
  idx < length (penalty_logits st) -> idx < length (penalty_indices st) ->
  ws_entry (mkPenaltyState (st_logits st) (<[idx := v]> (penalty_logits st))
              (<[idx := id]> (penalty_indices st))) k
  = if decide (k = idx) then Some (id, v) else ws_entry st k.
Proof.
  clear. intros H1 H2. unfold ws_entry. simpl.
  destruct (decide (k = idx)) as [->|Hne].
  - by rewrite !list_lookup_insert_eq.
  - by rewrite !list_lookup_insert_ne.
Qed.

Lemma batch_read_ok (idx : nat) :
  idx < step -> base = row * vocab_size ->
  read_ok (batchApplyRepetitionPenalty_read T penalty_type output_ids batch_size
             vocab_size max_input_length row penalty input_length)
    expected L step idx.
Proof.
  intros Hidx Hbase st HL Hpl Hpi. unfold batchApplyRepetitionPenalty_read.
  destruct (is_padding input_length max_input_length idx) eqn:Hpad.
  - exists st. split_and!; [done..|]. intros k.
    rewrite expected_padding by done. by destruct (decide (k = idx)).
  - destruct (valid_position idx Hidx Hpad) as (id & x & Hid & Hrange & Hx & He).
    rewrite (load_lookup _ _ _ Hid). simpl.
    destruct (id <? Z.of_nat vocab_size)%Z eqn:Elt; [|apply Z.ltb_ge in Elt; lia].
    simpl. rewrite store_lt by lia. simpl.
    rewrite <- Hbase, HL, (loadZ_Ok L (Z.of_nat base + id) x ltac:(lia) Hx). simpl.
    rewrite store_lt by lia. simpl.
    eexists. split; [done|]. simpl.
    split_and!; [done|by rewrite length_insert..|].
    intros k. rewrite <- HL at 1. rewrite ws_entry_insert by lia.
    destruct (decide (k = idx)); [by rewrite He|done].
Qed.

Lemma apply_read_ok (vocab_size_padd idx : nat) :
  idx < step -> base = row * vocab_size_padd ->
  read_ok (applyRepetitionPenalty_read T penalty_type penalty output_ids batch_size
             vocab_size vocab_size_padd max_input_length row input_length)
    expected L step idx.
Proof.
  intros Hidx Hbase st HL Hpl Hpi. unfold applyRepetitionPenalty_read.
  destruct (is_padding input_length max_input_length idx) eqn:Hpad.
  - exists st. split_and!; [done..|]. intros k.
    rewrite expected_padding by done. by destruct (decide (k = idx)).
  - destruct (valid_position idx Hidx Hpad) as (id & x & Hid & Hrange & Hx & He).
    rewrite (load_lookup _ _ _ Hid). simpl.
    destruct (Z.of_nat vocab_size <=? id)%Z eqn:Ele; [apply Z.leb_le in Ele; lia|].
    rewrite store_lt by lia. simpl.
    rewrite <- Hbase, HL, (loadZ_Ok L (Z.of_nat base + id) x ltac:(lia) Hx). simpl.
    rewrite store_lt by lia. simpl.
    eexists. split; [done|]. simpl.
    split_and!; [done|by rewrite length_insert..|].
    intros k. rewrite <- HL at 1. rewrite ws_entry_insert by lia.
    destruct (decide (k = idx)); [by rewrite He|done].
Qed.

Let target := penalty_target expected base.
Let val (j : nat) := penalized_logit T penalty_type penalty (default Fp.zero (L !! j)).

Lemma filled_entry (st : PenaltyState) (idx : nat) (id : Z) (v : spec_float) :
  ws_filled expected step st -> idx < step -> expected idx = Some (id, v) ->
  penalty_indices st !! idx = Some id /\ penalty_logits st !! idx = Some v.
Proof.
  clear. intros (_ & _ & H) Hidx He. specialize (H idx _ Hidx He).
  unfold ws_entry in H.
  destruct (penalty_indices st !! idx), (penalty_logits st !! idx);
    simplify_eq; done.
Qed.

Lemma write_post (l : Logits) (idx : nat) (id : Z) (x : spec_float) (j : nat) :
  length l = length L ->
  (0 <= id < Z.of_nat vocab_size)%Z ->
  L !! Z.to_nat (Z.of_nat base + id) = Some x ->
  expected idx = Some (id, penalized penalty_type (to_float T x) penalty) ->
  <[Z.to_nat (Z.of_nat base + id) :=
      of_float T (penalized penalty_type (to_float T x) penalty)]> l !! j
  = if decide (target idx = Some j) then Some (val j) else l !! j.
Proof.
  intros Hlen Hrange Hx He. unfold target, penalty_target. rewrite He.
  rewrite list_lookup_insert.
  destruct (decide (Z.to_nat (Z.of_nat base + id) = j)) as [<-|Hne].
  - rewrite !decide_True; [|done|]. 2:{ split; [done|lia]. }
    unfold val, penalized_logit. by rewrite Hx.
  - rewrite !decide_False; [done| |]; [congruence|tauto].
Qed.

Lemma batch_write_ok (idx : nat) :
  idx < step -> base = row * vocab_size ->
  scatter_ok (batchApplyRepetitionPenalty_write T vocab_size max_input_length row
                input_length)
    st_logits (ws_filled expected step) target val (length L) idx.
Proof.
  intros Hidx Hbase st HInv Hlen. unfold batchApplyRepetitionPenalty_write.
  destruct (is_padding input_length max_input_length idx) eqn:Hpad.
  - exists st. split_and!; [done..|]. intros j.
    unfold target, penalty_target. rewrite expected_padding by done.
    by destruct (decide (None = Some j)).
  - destruct (valid_position idx Hidx Hpad) as (id & x & Hid & Hrange & Hx & He).
    destruct (filled_entry st idx _ _ HInv Hidx He) as [Hpi Hpl].
    rewrite (load_lookup _ _ _ Hpi). simpl.
    rewrite (load_lookup _ _ _ Hpl). simpl.
    rewrite <- Hbase, storeZ_Ok by lia. simpl.
    eexists. split; [done|]. simpl.
    split_and!; [done|by rewrite length_insert|].
    intros j. by apply write_post.
Qed.

Lemma apply_write_ok (vocab_size_padd idx : nat) :
  idx < step -> base = row * vocab_size_padd ->
  scatter_ok (applyRepetitionPenalty_write T vocab_size vocab_size_padd
                max_input_length row input_length)
    st_logits (ws_filled expected step) target val (length L) idx.
Proof.
  intros Hidx Hbase st HInv Hlen. unfold applyRepetitionPenalty_write.
  destruct (is_padding input_length max_input_length idx) eqn:Hpad.
  - exists st. split_and!; [done..|]. intros j.
    unfold target, penalty_target. rewrite expected_padding by done.
    by destruct (decide (None = Some j)).
  - destruct (valid_position idx Hidx Hpad) as (id & x & Hid & Hrange & Hx & He).
    destruct (filled_entry st idx _ _ HInv Hidx He) as [Hpi Hpl].
    rewrite (load_lookup _ _ _ Hpi). simpl.
    destruct (Z.of_nat vocab_size <=? id)%Z eqn:Ele; [apply Z.leb_le in Ele; lia|].
    rewrite (load_lookup _ _ _ Hpl). simpl.
    rewrite <- Hbase, storeZ_Ok by lia. simpl.
    eexists. split; [done|]. simpl.
    split_and!; [done|by rewrite length_insert|].
    intros j. by apply write_post.
Qed.

(** The positions the second loop writes are those of the history ids. *)
Lemma target_hit (vis : list nat) (j : nat) :
  (forall idx, idx ∈ vis <-> idx < step) ->
  Exists (fun idx => target idx = Some j) vis <-> row_hit ids base j = true.
Proof.
  intros Hvis. rewrite Exists_exists. unfold row_hit. rewrite existsb_exists.
  split.
  - intros (idx & Hin%Hvis & Ht). unfold target, penalty_target in Ht.
    destruct (is_padding input_length max_input_length idx) eqn:Hpad.
    { by rewrite expected_padding in Ht. }
    destruct (valid_position idx Hin Hpad) as (id & x & Hid & Hrange & Hx & He).
    rewrite He in Ht. injection Ht as <-.
    exists id. split; [|apply Z.eqb_eq; lia].
    apply list_elem_of_In, list_elem_of_omap. exists idx. split.
    + apply elem_of_seq. lia.
    + unfold history_id. by rewrite Hpad.
  - intros (id & Hin & Hj%Z.eqb_eq).
    apply list_elem_of_In, list_elem_of_omap in Hin as (idx & Hidx%elem_of_seq & Hh).
    unfold history_id in Hh.
    destruct (is_padding input_length max_input_length idx) eqn:Hpad; [done|].
    destruct (valid_position idx ltac:(lia) Hpad) as (id' & x & Hid & Hrange & Hx & He).
    assert (id' = id) by congruence. subst id'.
    exists idx. split; [apply Hvis; lia|].
    unfold target, penalty_target. rewrite He. f_equal. lia.
Qed.
(** The two loops, for bodies that are right at every position. *)
Lemma two_phase_row (read write : nat -> PenaltyState -> result PenaltyState)
  (vis : list nat) (ws_logits : list spec_float) (ws_indices : list Z) :
  (forall idx, idx ∈ vis <-> idx < step) ->
  (forall idx, idx < step -> read_ok read expected L step idx) ->
  (forall idx, idx < step ->
     scatter_ok write st_logits (ws_filled expected step) target val (length L) idx) ->
  length ws_logits = step -> length ws_indices = step ->
  exists st1 st2,
    foldM read vis (mkPenaltyState L ws_logits ws_indices) = Ok st1
    /\ foldM write vis st1 = Ok st2
    /\ length (st_logits st2) = length L
    /\ forall j, st_logits st2 !! j =
         (if row_hit ids base j then penalized_logit T penalty_type penalty
          else fun x => x) <$> L !! j.
Proof.
  intros Hvis Hread Hwrite Hwl Hwi.
  destruct (foldM_read read expected L step vis (mkPenaltyState L ws_logits ws_indices))
    as (st1 & Hrun1 & HL1 & Hpl1 & Hpi1 & Hent); [|done..|].
  { intros idx Hin%Hvis. by apply Hread. }
  destruct (foldM_scatter write st_logits (ws_filled expected step) target val
              (length L) vis st1)
    as (st2 & Hrun2 & _ & Hlen2 & Hout); [| |by rewrite HL1|].
  { intros idx Hin%Hvis. by apply Hwrite. }
  { split_and!; [done..|]. intros k e Hk He. apply Hent; [done|].
    left. by apply Hvis. }
  exists st1, st2. split_and!; [done..|].
  intros j. rewrite Hout, HL1.
  destruct (row_hit ids base j) eqn:Ehit.
  - rewrite decide_True by (by apply target_hit).
    unfold row_hit in Ehit. apply existsb_exists in Ehit as (id & Hin & Hj%Z.eqb_eq).
    apply list_elem_of_In, list_elem_of_omap in Hin as (idx & Hidx%elem_of_seq & Hh).
    unfold history_id in Hh.
    destruct (is_padding input_length max_input_length idx) eqn:Hpad; [done|].
    destruct (valid_position idx ltac:(lia) Hpad) as (id' & x & Hid & Hrange & Hx & He).
    assert (id' = id) by congruence. subst id'.
    replace (Z.to_nat (Z.of_nat base + id)) with j in Hx by lia.
    unfold val. by rewrite Hx.
  - rewrite decide_False.
    + by destruct (L !! j).
    + intros H%target_hit; [congruence|done].
Qed.

Lemma batchApplyRepetitionPenalty_row (penalties : list spec_float)
  (input_lengths : option (list Z)) (blockDim : nat)
  (ws_logits : list spec_float) (ws_indices : list Z) :
  0 < blockDim \/ step = 0 -> base = row * vocab_size ->
  penalties !! row = Some penalty ->
  row_input_length input_lengths max_input_length row = Ok input_length ->
  length ws_logits = step -> length ws_indices = step ->
  exists out,
    batchApplyRepetitionPenalty T penalty_type penalties output_ids batch_size
      vocab_size input_lengths max_input_length step blockDim
      ws_logits ws_indices row L = Ok out
    /\ length out = length L
    /\ forall j, out !! j =
         (if row_hit ids base j then penalized_logit T penalty_type penalty
          else fun x => x) <$> L !! j.
Proof.
  intros Hb Hbase Hpen Hil Hwl Hwi.
  destruct (run_threads_strided blockDim step Hb) as (vis & Hvis & Hrun).
  destruct (two_phase_row
              (batchApplyRepetitionPenalty_read T penalty_type output_ids batch_size
                 vocab_size max_input_length row penalty input_length)
              (batchApplyRepetitionPenalty_write T vocab_size max_input_length row
                 input_length)
              vis ws_logits ws_indices Hvis)
    as (st1 & st2 & Hrun1 & Hrun2 & Hlen & Hout); [| |done..|].
  { intros idx Hidx. by apply batch_read_ok. }
  { intros idx Hidx. by apply batch_write_ok. }
  exists (st_logits st2). split; [|done].
  unfold batchApplyRepetitionPenalty.
  rewrite (load_lookup _ _ _ Hpen), Hil. simpl.
  rewrite Hrun, Hrun1. simpl. by rewrite Hrun, Hrun2.
Qed.

Lemma applyRepetitionPenalty_row (vocab_size_padd : nat)
  (input_lengths : option (list Z)) (blockDim : nat)
  (smem_logits : list spec_float) (smem_indices : list Z) :
  0 < blockDim \/ step = 0 -> base = row * vocab_size_padd ->
  row_input_length input_lengths max_input_length row = Ok input_length ->
  length smem_logits = step -> length smem_indices = step ->
  exists out,
    applyRepetitionPenalty T penalty_type penalty output_ids batch_size
      vocab_size vocab_size_padd input_lengths max_input_length step blockDim
      smem_logits smem_indices row L = Ok out
    /\ length out = length L
    /\ forall j, out !! j =
         (if row_hit ids base j then penalized_logit T penalty_type penalty
          else fun x => x) <$> L !! j.
Proof.
  intros Hb Hbase Hil Hwl Hwi.
  destruct (run_threads_strided blockDim step Hb) as (vis & Hvis & Hrun).
  destruct (two_phase_row
              (applyRepetitionPenalty_read T penalty_type penalty output_ids
                 batch_size vocab_size vocab_size_padd max_input_length row
                 input_length)
              (applyRepetitionPenalty_write T vocab_size vocab_size_padd
                 max_input_length row input_length)
              vis smem_logits smem_indices Hvis)
    as (st1 & st2 & Hrun1 & Hrun2 & Hlen & Hout); [| |done..|].
  { intros idx Hidx. by apply apply_read_ok. }
  { intros idx Hidx. by apply apply_write_ok. }
  exists (st_logits st2). split; [|done].
  unfold applyRepetitionPenalty. rewrite Hil. simpl.
  rewrite Hrun, Hrun1. simpl. by rewrite Hrun, Hrun2.
Qed.

End RepetitionRow.

(** ** All rows *)

Lemma history_ids_range (output_ids : list Z) (batch_size vocab_size row : nat)
  (input_length : Z) (max_input_length step : nat) (id : Z) :
  history_valid output_ids batch_size vocab_size row input_length
    max_input_length step = true ->
  id ∈ history_ids output_ids batch_size row input_length max_input_length step ->
  (0 <= id < Z.of_nat vocab_size)%Z.
Proof.
  unfold history_valid, history_ids. rewrite forallb_forall.
  intros Hvalid (idx & Hidx%elem_of_seq & Hh)%list_elem_of_omap.
  specialize (Hvalid idx ltac:(apply in_seq; lia)).
  unfold history_id in Hh.
  destruct (is_padding input_length max_input_length idx); [done|].
  simpl in Hvalid. rewrite Hh in Hvalid.
  apply andb_true_iff in Hvalid as [H0%Z.leb_le Hv%Z.ltb_lt]. lia.
Qed.

(** A hit lies in the row. *)
Lemma row_hit_range (output_ids : list Z) (batch_size vocab_size row base : nat)
  (input_length : Z) (max_input_length step j : nat) :
  history_valid output_ids batch_size vocab_size row input_length
    max_input_length step = true ->
  row_hit (history_ids output_ids batch_size row input_length max_input_length step)
    base j = true ->
  base <= j < base + vocab_size.
Proof.
  intros Hvalid (id & Hin%list_elem_of_In & Hj%Z.eqb_eq)%existsb_exists.
  apply (history_ids_range _ _ _ _ _ _ _ _ Hvalid) in Hin. lia.
Qed.

Lemma row_hit_column (ids : list Z) (base v : nat) :
  row_hit ids base (base + v) = true <-> Z.of_nat v ∈ ids.
Proof.
  unfold row_hit. rewrite existsb_exists. split.
  - intros (id & Hin%list_elem_of_In & Hj%Z.eqb_eq).
    by replace (Z.of_nat v) with id by lia.
  - intros Hin. exists (Z.of_nat v). split; [by apply list_elem_of_In|].
    apply Z.eqb_eq. lia.
Qed.

Lemma fmap_if_id {A : Type} (c : bool) (f : A -> A) (o : option A) :
  (if c then f else fun x => x) <$> o = (fun x => if c then f x else x) <$> o.
Proof. by destruct c, o. Qed.

(** Blocks that each rewrite the hit positions of their own row. *)
Lemma penalty_grid (block : nat -> Logits -> result Logits)
  (stride vocab_size local_batch_size : nat)
  (pen : nat -> spec_float -> spec_float) (ids : nat -> list Z) (logits : Logits) :
  vocab_size <= stride ->
  length logits = local_batch_size * stride ->
  (forall b l, b < local_batch_size -> length l = local_batch_size * stride ->
     exists l', block b l = Ok l' /\ length l' = length l /\
       forall j, l' !! j =
         (if row_hit (ids b) (b * stride) j then pen b else fun x => x) <$> l !! j) ->
  (forall b j, b < local_batch_size -> row_hit (ids b) (b * stride) j = true ->
     b * stride <= j < b * stride + vocab_size) ->
  exists out,
    run_blocks local_batch_size block logits = Ok out
    /\ length out = length logits
    /\ forall row v x, row < local_batch_size -> v < stride ->
         logits !! (row * stride + v) = Some x ->
         out !! (row * stride + v) =
           Some (if decide (Z.of_nat v ∈ ids row) then pen row x else x).
Proof.
  intros HV Hlen Hblock Hrange.
  set (g := fun j x =>
              if row_hit (ids (j / stride)) (j / stride * stride) j
              then pen (j / stride) x else x).
  destruct (foldM_pointwise block (fun j => j / stride) g
              (local_batch_size * stride) (seq 0 local_batch_size) logits)
    as (out & Hrun & Hlen' & Hout); [apply NoDup_seq| |done|].
  { intros b Hb%elem_of_seq l Hl.
    destruct (Hblock b l ltac:(lia) Hl) as (l' & Hrun & Hlen' & Hl').
    exists l'. split_and!; [done|congruence|].
    intros j. rewrite Hl'.
    destruct (decide (j / stride = b)) as [<-|Hne].
    - unfold g. apply fmap_if_id.
    - destruct (row_hit (ids b) (b * stride) j) eqn:Ehit; [|by destruct (l !! j)].
      apply Hrange in Ehit; [|lia]. exfalso. apply Hne.
      destruct (div_mod_unique stride b (j - b * stride) ltac:(lia)) as [Hq _].
      by replace (b * stride + (j - b * stride)) with j in Hq by lia. }
  exists out. split; [done|]. split; [congruence|].
  intros row v x Hrow Hv Hx. rewrite Hout, Hx.
  destruct (div_mod_unique stride row v Hv) as [Hq _].
  rewrite decide_True by (apply elem_of_seq; lia). simpl. f_equal.
  unfold g. rewrite Hq.
  destruct (decide (Z.of_nat v ∈ ids row)) as [Hin|Hin].
  - by rewrite (proj2 (row_hit_column (ids row) (row * stride) v) Hin).
  - destruct (row_hit (ids row) (row * stride) (row * stride + v)) eqn:Ehit; [|done].
    by apply row_hit_column in Ehit.
Qed.

Lemma histories_valid_row (output_ids : list Z)
  (batch_size local_batch_size vocab_size : nat)
  (input_lengths : option (list Z)) (max_input_length step row : nat) :
  histories_valid output_ids batch_size local_batch_size vocab_size
    input_lengths max_input_length step = true ->
  row < local_batch_size ->
  exists input_length,
    row_input_length input_lengths max_input_length row = Ok input_length
    /\ history_valid output_ids batch_size vocab_size row input_length
         max_input_length step = true.
Proof.
  unfold histories_valid. rewrite forallb_forall. intros H Hrow.
  specialize (H row ltac:(apply in_seq; lia)).
  destruct (row_input_length input_lengths max_input_length row) as [il|]; [|done].
  by exists il.
Qed.

Lemma min_step_pos (step : nat) : 0 < Nat.min step 1024 \/ step = 0.
Proof.
  assert (H1024 : 0 < 1024) by (apply Nat.ltb_lt; reflexivity).
  destruct step; [by right|left; lia].
Qed.

(** What [invokeBatchApplyRepetitionPenalty] leaves in the buffer. *)
Lemma invokeBatchApplyRepetitionPenalty_spec (T : dtype) (logits : Logits)
  (penalties : list spec_float)
  (ws_logits : nat -> list spec_float) (ws_indices : nat -> list Z)
  (output_ids : list Z) (batch_size local_batch_size vocab_size : nat)
  (input_lengths : option (list Z)) (max_input_length step : nat)
  (penalty_type : RepetitionPenaltyType) :
  penalty_type <> NoPenalty ->
  length logits = local_batch_size * vocab_size ->
  local_batch_size <= length penalties ->
  (forall b, b < local_batch_size ->
     length (ws_logits b) = step /\ length (ws_indices b) = step) ->
  histories_valid output_ids batch_size local_batch_size vocab_size
    input_lengths max_input_length step = true ->
  exists out,
    invokeBatchApplyRepetitionPenalty T logits penalties ws_logits ws_indices
      output_ids batch_size local_batch_size vocab_size input_lengths
      max_input_length step penalty_type = Ok out
    /\ length out = length logits
    /\ forall row v x penalty input_length,
         row < local_batch_size -> v < vocab_size ->
         logits !! (row * vocab_size + v) = Some x ->
         penalties !! row = Some penalty ->
         row_input_length input_lengths max_input_length row = Ok input_length ->
         out !! (row * vocab_size + v) =
           Some (if decide (Z.of_nat v ∈ history_ids output_ids batch_size row
                                           input_length max_input_length step)
                 then penalized_logit T penalty_type penalty x else x).
Proof.
  intros Hpt Hlen Hpen Hws Hvalid.
  set (il := fun row =>
               match row_input_length input_lengths max_input_length row with
               | Ok x => x | Err _ => 0%Z end).
  set (pen := fun row =>
                penalized_logit T penalty_type (default Fp.zero (penalties !! row))).
  set (ids := fun row => history_ids output_ids batch_size row (il row)
                           max_input_length step).
  destruct (penalty_grid
              (fun blockIdx =>
                 batchApplyRepetitionPenalty T penalty_type penalties output_ids
                   batch_size vocab_size input_lengths max_input_length step
                   (Nat.min step 1024) (ws_logits blockIdx) (ws_indices blockIdx)
                   blockIdx)
              vocab_size vocab_size local_batch_size pen ids logits)
    as (out & Hrun & Hlen' & Hout); [done|done| | |].
  - intros b l Hb Hl.
    destruct (histories_valid_row _ _ _ _ _ _ _ b Hvalid Hb) as (ilb & Hil & Hv).
    destruct (lookup_lt_is_Some_2 penalties b ltac:(lia)) as [p Hp].
    destruct (Hws b Hb) as [Hwl Hwi].
    unfold pen, ids, il. rewrite Hil, Hp. simpl.
    apply batchApplyRepetitionPenalty_row; try done.
    + rewrite Hl. nia.
    + apply min_step_pos.
  - intros b j Hb Hhit.
    destruct (histories_valid_row _ _ _ _ _ _ _ b Hvalid Hb) as (ilb & Hil & Hv).
    unfold ids, il in Hhit. rewrite Hil in Hhit.
    by apply (row_hit_range _ _ _ _ _ _ _ _ _ Hv) in Hhit.
  - exists out. split.
    { unfold invokeBatchApplyRepetitionPenalty. by destruct penalty_type. }
    split; [done|].
    intros row v x penalty input_length Hrow Hv Hx Hp Hil.
    rewrite (Hout row v x Hrow Hv Hx). unfold ids, il, pen. by rewrite Hil, Hp.
Qed.

(** What [invokeApplyRepetitionPenalty] leaves in the buffer. *)
Lemma invokeApplyRepetitionPenalty_spec (T : dtype) (logits : Logits)
  (penalty : spec_float) (output_ids : list Z)
  (batch_size local_batch_size vocab_size vocab_size_padd : nat)
  (input_lengths : option (list Z)) (max_input_len step : nat)
  (penalty_type : RepetitionPenaltyType)
  (smem_logits : nat -> list spec_float) (smem_indices : nat -> list Z) :
  penalty_type <> NoPenalty ->
  vocab_size <= vocab_size_padd ->
  length logits = local_batch_size * vocab_size_padd ->
  (forall b, b < local_batch_size ->
     length (smem_logits b) = step /\ length (smem_indices b) = step) ->
  histories_valid output_ids batch_size local_batch_size vocab_size
    input_lengths max_input_len step = true ->
  exists out,
    invokeApplyRepetitionPenalty T logits penalty output_ids batch_size
      local_batch_size vocab_size vocab_size_padd input_lengths max_input_len
      step penalty_type smem_logits smem_indices = Ok out
    /\ length out = length logits
    /\ forall row v x input_length,
         row < local_batch_size -> v < vocab_size_padd ->
         logits !! (row * vocab_size_padd + v) = Some x ->
         row_input_length input_lengths max_input_len row = Ok input_length ->
         out !! (row * vocab_size_padd + v) =
           Some (if decide (Z.of_nat v ∈ history_ids output_ids batch_size row
                                           input_length max_input_len step)
                 then penalized_logit T penalty_type penalty x else x).
Proof.
  intros Hpt HV Hlen Hws Hvalid.
  set (il := fun row =>
               match row_input_length input_lengths max_input_len row with
               | Ok x => x | Err _ => 0%Z end).
  set (ids := fun row => history_ids output_ids batch_size row (il row)
                           max_input_len step).
  destruct (penalty_grid
              (fun blockIdx =>
                 applyRepetitionPenalty T penalty_type penalty output_ids
                   batch_size vocab_size vocab_size_padd input_lengths
                   max_input_len step (Nat.min step 1024)
                   (smem_logits blockIdx) (smem_indices blockIdx) blockIdx)
              vocab_size_padd vocab_size local_batch_size
              (fun _ => penalized_logit T penalty_type penalty) ids logits)
    as (out & Hrun & Hlen' & Hout); [done|done| | |].
  - intros b l Hb Hl.
    destruct (histories_valid_row _ _ _ _ _ _ _ b Hvalid Hb) as (ilb & Hil & Hv).
    destruct (Hws b Hb) as [Hwl Hwi].
    unfold ids, il. rewrite Hil.
    apply applyRepetitionPenalty_row; try done.
    + rewrite Hl. nia.
    + apply min_step_pos.
  - intros b j Hb Hhit.
    destruct (histories_valid_row _ _ _ _ _ _ _ b Hvalid Hb) as (ilb & Hil & Hv).
    unfold ids, il in Hhit. rewrite Hil in Hhit.
    by apply (row_hit_range _ _ _ _ _ _ _ _ _ Hv) in Hhit.
  - exists out. split.
    { unfold invokeApplyRepetitionPenalty. by destruct penalty_type. }
    split; [done|].
    intros row v x input_length Hrow Hv Hx Hil.
    rewrite (Hout row v x Hrow Hv Hx). unfold ids, il. by rewrite Hil.
Qed.

(** ** Token ids outside the vocabulary *)

Lemma foldM_Ok_inv {A St : Type} (f : A -> St -> result St) (l : list A)
  (s s' : St) (a : A) :
  foldM f l s = Ok s' -> a ∈ l -> exists s1 s2, f a s1 = Ok s2.
Proof.
  revert s. induction l as [|b l IH]; intros s Hrun Hin.
  - by apply elem_of_nil in Hin.
  - simpl in Hrun. apply bind_Ok in Hrun as (s1 & Hb & Hrest).
    apply elem_of_cons in Hin as [->|Hin]; [by exists s, s1|].
    by apply (IH s1).
Qed.

(** The first loop of the batched kernel fails at a considered position
    that holds an id outside the vocabulary. *)
Lemma batch_read_out_of_vocab (T : dtype) (penalty_type : RepetitionPenaltyType)
  (output_ids : list Z) (batch_size vocab_size max_input_length batch_idx : nat)
  (penalty : spec_float) (input_length : Z) (index : nat) (id : Z)
  (st : PenaltyState) :
  is_padding input_length max_input_length index = false ->
  output_ids !! (index * batch_size + batch_idx) = Some id ->
  (Z.of_nat vocab_size <= id)%Z ->
  batchApplyRepetitionPenalty_read T penalty_type output_ids batch_size vocab_size
    max_input_length batch_idx penalty input_length index st
  = Err AssertionFailed.
Proof.
  intros Hpad Hid Hge. unfold batchApplyRepetitionPenalty_read.
  rewrite Hpad, (load_lookup _ _ _ Hid). simpl.
  destruct (id <? Z.of_nat vocab_size)%Z eqn:E; [apply Z.ltb_lt in E; lia|done].
Qed.

(** The first loop of the single-penalty kernel skips such a position. *)
Lemma apply_read_out_of_vocab (T : dtype) (penalty_type : RepetitionPenaltyType)
  (penalty : spec_float) (output_ids : list Z)
  (batch_size vocab_size vocab_size_padd max_input_len blockIdx : nat)
  (input_length : Z) (index : nat) (id : Z) (st : PenaltyState) :
  output_ids !! (index * batch_size + blockIdx) = Some id ->
  (Z.of_nat vocab_size <= id)%Z ->
  applyRepetitionPenalty_read T penalty_type penalty output_ids batch_size
    vocab_size vocab_size_padd max_input_len blockIdx input_length index st
  = Ok st.
Proof.
  intros Hid Hge. unfold applyRepetitionPenalty_read.
  destruct (is_padding input_length max_input_len index); [done|].
  rewrite (load_lookup _ _ _ Hid). simpl.
  destruct (Z.of_nat vocab_size <=? id)%Z eqn:E; [done|apply Z.leb_gt in E; lia].
Qed.

Lemma invokeBatchApplyRepetitionPenalty_out_of_vocab (T : dtype) (logits : Logits)
  (penalties : list spec_float)
  (ws_logits : nat -> list spec_float) (ws_indices : nat -> list Z)
  (output_ids : list Z) (batch_size local_batch_size vocab_size : nat)
  (input_lengths : option (list Z)) (max_input_length step : nat)
  (penalty_type : RepetitionPenaltyType)
  (row index : nat) (input_length id : Z) :
  penalty_type <> NoPenalty ->
  row < local_batch_size -> index < step ->
  row_input_length input_lengths max_input_length row = Ok input_length ->
  is_padding input_length max_input_length index = false ->
  output_ids !! (index * batch_size + row) = Some id ->
  (Z.of_nat vocab_size <= id)%Z ->
  exists e,
    invokeBatchApplyRepetitionPenalty T logits penalties ws_logits ws_indices
      output_ids batch_size local_batch_size vocab_size input_lengths
      max_input_length step penalty_type = Err e.
Proof.
  intros Hpt Hrow Hidx Hil Hpad Hid Hge.
  destruct (invokeBatchApplyRepetitionPenalty _ _ _ _ _ _ _ _ _ _ _ _ _)
    as [out|e] eqn:Hrun; [exfalso|by exists e].
  assert (Hblocks : run_blocks local_batch_size
            (fun blockIdx =>
               batchApplyRepetitionPenalty T penalty_type penalties output_ids
                 batch_size vocab_size input_lengths max_input_length step
                 (Nat.min step 1024) (ws_logits blockIdx) (ws_indices blockIdx)
                 blockIdx) logits = Ok out).
  { unfold invokeBatchApplyRepetitionPenalty in Hrun. by destruct penalty_type. }
  apply (foldM_Ok_inv _ _ _ _ row) in Hblocks as (l1 & l2 & Hblock);
    [|apply elem_of_seq; lia].
  unfold batchApplyRepetitionPenalty in Hblock.
  apply bind_Ok in Hblock as (penalty & _ & Hblock).
  rewrite Hil in Hblock. simpl in Hblock.
  apply bind_Ok in Hblock as (st1 & Hread & _).
  destruct (run_threads_strided (Nat.min step 1024) step (min_step_pos step))
    as (vis & Hvis & Hloop).
  rewrite Hloop in Hread.
  apply (foldM_Ok_inv _ _ _ _ index) in Hread as (s1 & s2 & Hbody);
    [|by apply Hvis].
  by rewrite (batch_read_out_of_vocab _ _ _ _ _ _ _ _ _ _ id) in Hbody.
Qed.

(** ** Considered positions *)

Lemma is_padding_false (input_length : Z) (max_input_length index : nat) :
  is_padding input_length max_input_length index = false
  <-> (Z.of_nat index < input_length)%Z \/ max_input_length <= index.
Proof.
  unfold is_padding. rewrite andb_false_iff, Z.leb_gt, Nat.ltb_ge. tauto.
Qed.

Lemma elem_of_history_ids (output_ids : list Z) (batch_size row : nat)
  (input_length : Z) (max_input_length step : nat) (id : Z) :
  id ∈ history_ids output_ids batch_size row input_length max_input_length step
  <-> exists index, index < step
        /\ ((Z.of_nat index < input_length)%Z \/ max_input_length <= index)
        /\ output_ids !! (index * batch_size + row) = Some id.
Proof.
  unfold history_ids. rewrite list_elem_of_omap. split.
  - intros (index & Hidx%elem_of_seq & Hh). unfold history_id in Hh.
    destruct (is_padding input_length max_input_length index) eqn:Hpad; [done|].
    exists index. split_and!; [lia| |done]. by apply is_padding_false.
  - intros (index & Hidx & Hc%is_padding_false & Hid).
    exists index. split; [apply elem_of_seq; lia|].
    unfold history_id. by rewrite Hc.
Qed.

(** Without [input_lengths] no position is a padding slot. *)
Lemma is_padding_no_lengths (max_input_length index : nat) :
  is_padding (Z.of_nat max_input_length) max_input_length index = false.
Proof. apply is_padding_false. lia. Qed.

Lemma is_padding_0 (index : nat) : is_padding 0 0 index = false.
Proof. apply is_padding_false. lia. Qed.

Lemma history_valid_no_lengths (output_ids : list Z)
  (batch_size vocab_size row max_input_length step : nat) :
  history_valid output_ids batch_size vocab_size row 0 0 step = true ->
  history_valid output_ids batch_size vocab_size row
    (Z.of_nat max_input_length) max_input_length step = true.
Proof.
  unfold history_valid. rewrite !forallb_forall. intros H index Hin.
  specialize (H index Hin). rewrite is_padding_no_lengths.
  by rewrite is_padding_0 in H.
Qed.

Lemma history_ids_no_lengths (output_ids : list Z)
  (batch_size row max_input_length step : nat) :
  history_ids output_ids batch_size row (Z.of_nat max_input_length)
    max_input_length step
  = history_ids output_ids batch_size row 0 0 step.
Proof.
  unfold history_ids. apply list_omap_ext, Forall2_same_length_lookup_2; [done|].
  intros i x y Hx Hy. assert (x = y) by congruence. subst y.
  unfold history_id.
  by rewrite is_padding_no_lengths, is_padding_0.
Qed.

(* ================================================================== *)
(** * Temperature penalty, one temperature per row *)
(* ================================================================== *)

Lemma foldM_id {A St : Type} (f : A -> St -> result St) (l : list A) (s : St) :
  (forall a, a ∈ l -> f a s = Ok s) -> foldM f l s = Ok s.
Proof.
  induction l as [|a l IH]; intros H; [done|].
  simpl. rewrite H by left. simpl. apply IH. intros; apply H; by right.
Qed.

(** The first phase fills the shared array with the reciprocals. *)
Lemma batchApplyTemperaturePenalty_init_spec (temperatures smem0 : list spec_float)
  (batch_size blockDim : nat) :
  batch_size <= blockDim -> batch_size <= length temperatures ->
  length smem0 = batch_size ->
  run_threads blockDim
    (batchApplyTemperaturePenalty_init temperatures batch_size) smem0
  = Ok (inv_temperature <$> take batch_size temperatures).
Proof.
  intros Hb Ht Hs.
  destruct (foldM_scatter (batchApplyTemperaturePenalty_init temperatures batch_size)
              (fun l => l) (fun _ => True)
              (fun t => if t <? batch_size then Some t else None)
              (fun k => inv_temperature (default Fp.zero (temperatures !! k)))
              batch_size (seq 0 blockDim) smem0)
    as (inv & Hrun & _ & Hlen & Hinv); [|done|done|].
  { intros t _ l _ Hl. unfold batchApplyTemperaturePenalty_init.
    destruct (t <? batch_size) eqn:Et.
    - apply Nat.ltb_lt in Et.
      destruct (lookup_lt_is_Some_2 temperatures t ltac:(lia)) as [x Hx].
      rewrite (load_lookup _ _ _ Hx). simpl. rewrite store_lt by lia.
      eexists. split_and!; [done|done|by rewrite length_insert|].
      intros j. rewrite list_lookup_insert.
      destruct (decide (t = j)) as [<-|Hne].
      + rewrite !decide_True; [|done|split; [done|lia]].
        unfold inv_temperature. by rewrite Hx.
      + rewrite !decide_False; [done|congruence|tauto].
    - exists l. split_and!; [done..|]. intros j. by destruct (decide (None = Some j)). }
  unfold run_threads. rewrite Hrun. f_equal.
  apply list_eq. intros k. rewrite Hinv, list_lookup_fmap.
  destruct (decide (k < batch_size)) as [Hk|Hk].
  - rewrite decide_True.
    + rewrite lookup_take_lt by done.
      by destruct (lookup_lt_is_Some_2 temperatures k ltac:(lia)) as [x ->].
    + apply Exists_exists. exists k. split; [apply elem_of_seq; lia|].
      destruct (k <? batch_size) eqn:E; [done|apply Nat.ltb_ge in E; lia].
  - rewrite decide_False.
    + rewrite lookup_take_ge by lia. simpl. apply lookup_ge_None_2. lia.
    + intros (t & _ & Ht')%Exists_exists.
      destruct (t <? batch_size) eqn:E; [|done].
      apply Nat.ltb_lt in E. simplify_eq. lia.
Qed.

Lemma batchApplyTemperaturePenalty_body_ok (T : dtype)
  (bias : option (list spec_float)) (temperatures : list spec_float)
  (batch_size vocab_size vocab_size_padd idx : nat) :
  0 < vocab_size_padd -> bias_fits bias vocab_size_padd ->
  batch_size <= length temperatures ->
  idx < batch_size * vocab_size_padd ->
  body_ok
    (batchApplyTemperaturePenalty_body T bias vocab_size vocab_size_padd
       (inv_temperature <$> take batch_size temperatures))
    (fun j => j)
    (batch_temperature_scaled T bias temperatures vocab_size vocab_size_padd)
    (batch_size * vocab_size_padd) idx.
Proof.
  intros Hvp Hbias Ht Hidx l Hlen.
  unfold batchApplyTemperaturePenalty_body.
  assert (Hmod : idx mod vocab_size_padd < vocab_size_padd)
    by (apply Nat.mod_upper_bound; lia).
  assert (Hdiv : idx / vocab_size_padd < batch_size)
    by (apply Nat.Div0.div_lt_upper_bound; lia).
  destruct (lookup_lt_is_Some_2 l idx ltac:(lia)) as [x Hx].
  destruct (lookup_lt_is_Some_2 temperatures (idx / vocab_size_padd) ltac:(lia))
    as [t Htemp].
  exists (<[idx := batch_temperature_scaled T bias temperatures vocab_size
                     vocab_size_padd idx x]> l).
  split.
  { unfold batch_temperature_scaled.
    destruct (idx mod vocab_size_padd <? vocab_size).
    - rewrite (load_lookup _ _ _ Hx). simpl.
      assert (Hinv : load (inv_temperature <$> take batch_size temperatures)
                       (idx / vocab_size_padd) = Ok (inv_temperature t)).
      { apply load_lookup. by rewrite list_lookup_fmap, lookup_take_lt, Htemp. }
      rewrite Htemp. simpl.
      destruct bias as [b|].
      + destruct (lookup_lt_is_Some_2 b (idx mod vocab_size_padd)) as [y Hy].
        { simpl in Hbias. lia. }
        rewrite (load_lookup _ _ _ Hy), Hy. simpl. rewrite Hinv. simpl.
        apply store_lt. lia.
      + simpl. rewrite Hinv. simpl. apply store_lt. lia.
    - simpl. apply store_lt. lia. }
  split; [by rewrite length_insert|].
  intros j. rewrite list_lookup_insert.
  destruct (decide (j = idx)) as [->|Hne].
  - rewrite decide_True by (split; [done|lia]). by rewrite Hx.
  - by rewrite decide_False by (intros [? _]; congruence).
Qed.

(** What [batchApplyTemperaturePenalty<T>] leaves in the buffer, for a
    launch whose blocks have a thread for every row. *)
Lemma batchApplyTemperaturePenalty_launch (T : dtype)
  (bias : option (list spec_float)) (temperatures : list spec_float)
  (batch_size vocab_size vocab_size_padd gridDim blockDim : nat)
  (smem0 : nat -> list spec_float) (logits : Logits) :
  0 < gridDim -> 0 < vocab_size_padd -> batch_size <= blockDim -> 0 < blockDim ->
  bias_fits bias vocab_size_padd ->
  batch_size <= length temperatures ->
  (forall b, b < gridDim -> length (smem0 b) = batch_size) ->
  length logits = batch_size * vocab_size_padd ->
  exists out,
    run_blocks gridDim
      (fun blockIdx =>
         batchApplyTemperaturePenalty T bias temperatures batch_size vocab_size
           vocab_size_padd gridDim blockDim (smem0 blockIdx) blockIdx)
      logits = Ok out
    /\ length out = length logits
    /\ forall j, out !! j =
         batch_temperature_scaled T bias temperatures vocab_size vocab_size_padd j
           <$> logits !! j.
Proof.
  intros Hg Hvp Hb Hbd Hbias Ht Hs Hlen.
  set (N := batch_size * vocab_size_padd) in *.
  set (body := batchApplyTemperaturePenalty_body T bias vocab_size vocab_size_padd
                 (inv_temperature <$> take batch_size temperatures)).
  assert (Hflat :
    run_blocks gridDim
      (fun blockIdx =>
         batchApplyTemperaturePenalty T bias temperatures batch_size vocab_size
           vocab_size_padd gridDim blockDim (smem0 blockIdx) blockIdx) logits
    = launch gridDim blockDim
        (fun blockIdx threadIdx =>
           strided_for N (blockIdx * blockDim + threadIdx) N (blockDim * gridDim) body)
        logits).
  { unfold launch, run_blocks. apply foldM_ext. intros b l Hin%elem_of_seq.
    unfold batchApplyTemperaturePenalty.
    rewrite batchApplyTemperaturePenalty_init_spec; [done|done|done|].
    apply Hs. lia. }
  rewrite Hflat.
  rewrite (launch_flat _ _ _
    (fun tid => strided_for N (tid * 1) N (gridDim * blockDim * 1) body)).
  2:{ intros bx t s _ _.
      by rewrite !Nat.mul_1_r, (Nat.mul_comm blockDim gridDim). }
  destruct (grid_pointwise body (fun j => j)
              (batch_temperature_scaled T bias temperatures vocab_size vocab_size_padd)
              1 (gridDim * blockDim) N logits)
    as (out & Hrun & Hlen' & Hout); [lia|by apply Nat.mul_pos_pos| |].
  { intros idx Hidx _. rewrite Hlen.
    by apply batchApplyTemperaturePenalty_body_ok. }
  exists out. split; [exact Hrun|split; [exact Hlen'|]].
  intros j. rewrite Hout.
  destruct (decide (j < N /\ j mod 1 = 0)) as [|Hn]; [done|].
  assert (Hj : logits !! j = None).
  { apply lookup_ge_None_2. rewrite Hlen. destruct (decide (j < N)); [|lia].
    exfalso; apply Hn; split; [done|]. apply Nat.mod_1_r. }
  by rewrite Hj.
Qed.

(* ================================================================== *)
(** * Temperature penalty, vectorized *)
(* ================================================================== *)

Lemma batchApplyTemperaturePenalty_v2_init_spec
  (fdividef : spec_float -> spec_float -> spec_float)
  (temperatures : list spec_float) (bi blockDim : nat) (shared0 t : spec_float) :
  0 < blockDim -> temperatures !! bi = Some t ->
  run_threads blockDim
    (batchApplyTemperaturePenalty_v2_init fdividef temperatures bi) shared0
  = Ok (fdividef f32_one (Fp.add Fp.binary32 t f32_eps)).
Proof.
  intros Hb Ht. unfold run_threads.
  destruct blockDim as [|n]; [lia|].
  change (seq 0 (S n)) with (0 :: seq 1 n). cbn [foldM].
  unfold batchApplyTemperaturePenalty_v2_init at 1. cbn [Nat.eqb].
  rewrite (load_lookup _ _ _ Ht). cbn [bind].
  apply foldM_id. intros a Ha%elem_of_seq.
  unfold batchApplyTemperaturePenalty_v2_init.
  destruct (a =? 0) eqn:E; [apply Nat.eqb_eq in E; lia|done].
Qed.

Lemma chunk_owner (vec col idx : nat) :
  0 < vec -> idx mod vec = 0 ->
  col / vec * vec = idx <-> idx <= col < idx + vec.
Proof.
  intros Hvec Hidx. apply Nat.Div0.div_exact in Hidx.
  pose proof (Nat.div_mod_eq col vec) as Hcol.
  pose proof (Nat.mod_upper_bound col vec ltac:(lia)) as Hr.
  split.
  - intros E. lia.
  - intros [H1 H2].
    destruct (div_mod_unique vec (idx / vec) (col - idx) ltac:(lia)) as [Hq _].
    replace (idx / vec * vec + (col - idx)) with col in Hq by lia.
    rewrite Hq. lia.
Qed.

Lemma chunk_fits (vec vocab_size_padded idx : nat) :
  0 < vec -> vocab_size_padded mod vec = 0 -> idx < vocab_size_padded ->
  idx mod vec = 0 -> idx + vec <= vocab_size_padded.
Proof.
  intros Hvec Hvp Hidx Hm.
  apply Nat.Div0.div_exact in Hvp, Hm.
  assert (idx / vec < vocab_size_padded / vec) by nia. nia.
Qed.

Section V2Row.
Variable fdividef : spec_float -> spec_float -> spec_float.
Variables (T : dtype) (vec_size : nat).
Variables (batch_size vocab_size vocab_size_padded : nat).
Variables (scale : spec_float) (bi : nat).
Hypothesis Hvec : 0 < vec_size.
Hypothesis Hdiv : vocab_size_padded mod vec_size = 0.
Hypothesis Hbi : bi < batch_size.

(** The chunk of row [bi] that holds position [j]; [vocab_size_padded], an
    index no iteration has, for the positions of other rows. *)
Let owner (j : nat) : nat :=
  if decide (bi * vocab_size_padded <= j < bi * vocab_size_padded + vocab_size_padded)
  then (j - bi * vocab_size_padded) / vec_size * vec_size
  else vocab_size_padded.

Let g (j : nat) (x : spec_float) : spec_float :=
  if j - bi * vocab_size_padded <? vocab_size
  then of_float T (Fp.mul Fp.binary32 (to_float T x) scale)
  else Fp.opp (getMaxValue T).

Lemma v2_owner_iff (idx j : nat) :
  idx < vocab_size_padded -> idx mod vec_size = 0 ->
  owner j = idx
  <-> bi * vocab_size_padded + idx <= j < bi * vocab_size_padded + idx + vec_size.
Proof.
  intros Hidx Hm. unfold owner.
  pose proof (chunk_fits vec_size vocab_size_padded idx Hvec Hdiv Hidx Hm).
  destruct (decide _) as [Hrow|Hrow].
  - rewrite chunk_owner by done. lia.
  - split; lia.
Qed.

Lemma batchApplyTemperaturePenalty_v2_body_ok (idx : nat) :
  idx < vocab_size_padded -> idx mod vec_size = 0 ->
  body_ok
    (batchApplyTemperaturePenalty_v2_body T vec_size vocab_size vocab_size_padded
       scale bi)
    owner g (batch_size * vocab_size_padded) idx.
Proof.
  intros Hidx Hm l Hlen.
  pose proof (chunk_fits vec_size vocab_size_padded idx Hvec Hdiv Hidx Hm) as Hfit.
  set (p := bi * vocab_size_padded + idx).
  assert (Hp : p + vec_size <= length l) by (rewrite Hlen; unfold p; nia).
  unfold batchApplyTemperaturePenalty_v2_body, load_vec, store_vec. fold p.
  destruct (p + vec_size <=? length l) eqn:E1; [|apply Nat.leb_gt in E1; lia].
  simpl.
  set (vec := take vec_size (drop p l)).
  assert (Hvlen : length vec = vec_size).
  { unfold vec. rewrite length_take, length_drop. lia. }
  unfold batchApplyTemperaturePenalty_v2_process. rewrite length_imap, Hvlen.
  destruct (p + vec_size <=? length l) eqn:E2; [|apply Nat.leb_gt in E2; lia].
  eexists. split; [done|]. split; [by rewrite length_inserts|].
  intros j.
  destruct (decide (owner j = idx)) as [Ho|Ho].
  - apply v2_owner_iff in Ho; [|done..]. fold p in Ho.
    rewrite list_lookup_inserts by (rewrite ?length_imap; lia).
    rewrite list_lookup_imap. unfold vec.
    rewrite lookup_take_lt, lookup_drop by lia.
    replace (p + (j - p)) with j by lia.
    destruct (l !! j) as [x|]; [|done]. simpl. f_equal. unfold g.
    by replace (idx + (j - p)) with (j - bi * vocab_size_padded) by (unfold p; lia).
  - rewrite v2_owner_iff in Ho by done. fold p in Ho.
    destruct (decide (j < p)).
    + by rewrite list_lookup_inserts_lt.
    + rewrite list_lookup_inserts_ge; [done|]. rewrite length_imap. lia.
Qed.

(** The blocks of one row of the grid. *)
Lemma batchApplyTemperaturePenalty_v2_row (nthreads : nat) (l : Logits) :
  0 < nthreads -> length l = batch_size * vocab_size_padded ->
  exists l',
    foldM (fun tid =>
             strided_for vocab_size_padded (tid * vec_size) vocab_size_padded
               (nthreads * vec_size)
               (batchApplyTemperaturePenalty_v2_body T vec_size vocab_size
                  vocab_size_padded scale bi))
      (seq 0 nthreads) l = Ok l'
    /\ length l' = length l
    /\ forall j, l' !! j =
         if decide (j / vocab_size_padded = bi) then g j <$> l !! j else l !! j.
Proof.
  intros Hn Hlen.
  destruct (grid_pointwise
              (batchApplyTemperaturePenalty_v2_body T vec_size vocab_size
                 vocab_size_padded scale bi)
              owner g vec_size nthreads vocab_size_padded l)
    as (l' & Hrun & Hlen' & Hl'); [done|done| |].
  { intros idx Hidx Hm. rewrite Hlen.
    by apply batchApplyTemperaturePenalty_v2_body_ok. }
  exists l'. split; [done|]. split; [done|].
  intros j. rewrite Hl'.
  assert (Hvp : 0 < vocab_size_padded -> (j / vocab_size_padded = bi
            <-> bi * vocab_size_padded <= j < bi * vocab_size_padded + vocab_size_padded)).
  { intros Hpos. split.
    - intros <-. pose proof (Nat.div_mod_eq j vocab_size_padded).
      pose proof (Nat.mod_upper_bound j vocab_size_padded ltac:(lia)). lia.
    - intros Hj.
      destruct (div_mod_unique vocab_size_padded bi (j - bi * vocab_size_padded)
                  ltac:(lia)) as [Hq _].
      by replace (bi * vocab_size_padded + (j - bi * vocab_size_padded)) with j
        in Hq by lia. }
  unfold owner.
  destruct (decide (bi * vocab_size_padded <= j
                    < bi * vocab_size_padded + vocab_size_padded)) as [Hrow|Hrow].
  - rewrite decide_True.
    + rewrite decide_True; [done|]. apply Hvp; [lia|done].
    + split; [|apply Nat.Div0.mod_mul].
      pose proof (Nat.div_mod_eq (j - bi * vocab_size_padded) vec_size). nia.
  - rewrite decide_False by lia.
    destruct (decide (j / vocab_size_padded = bi)) as [E|E]; [|done].
    destruct (decide (0 < vocab_size_padded)) as [Hpos|Hpos].
    + apply Hvp in E; [done|done].
    + rewrite lookup_ge_None_2; [done|]. rewrite Hlen. nia.
Qed.
End V2Row.

Lemma batchApplyTemperaturePenalty_v2_grid
  (fdividef : spec_float -> spec_float -> spec_float) (T : dtype)
  (vec_size : nat) (temperatures : list spec_float)
  (bias : option (list spec_float))
  (batch_size vocab_size vocab_size_padded blocks_per_tok threads : nat)
  (shared0 : spec_float) (logits : Logits) :
  0 < vec_size -> vocab_size_padded mod vec_size = 0 ->
  0 < vocab_size_padded -> 0 < blocks_per_tok -> 0 < threads ->
  batch_size <= length temperatures ->
  length logits = batch_size * vocab_size_padded ->
  exists out,
    run_blocks batch_size (fun blockIdx_y =>
      run_blocks blocks_per_tok (fun blockIdx_x =>
        batchApplyTemperaturePenalty_v2 fdividef T vec_size temperatures
          vocab_size vocab_size_padded bias batch_size blocks_per_tok threads
          shared0 blockIdx_x blockIdx_y))
      logits = Ok out
    /\ length out = length logits
    /\ forall j, out !! j =
         v2_temperature_scaled fdividef T temperatures vocab_size vocab_size_padded j
           <$> logits !! j.
Proof.
  intros Hvec Hdiv Hvp Hbpt Hth Ht Hlen.
  destruct (foldM_pointwise
              (fun blockIdx_y =>
                 run_blocks blocks_per_tok (fun blockIdx_x =>
                   batchApplyTemperaturePenalty_v2 fdividef T vec_size temperatures
                     vocab_size vocab_size_padded bias batch_size blocks_per_tok
                     threads shared0 blockIdx_x blockIdx_y))
              (fun j => j / vocab_size_padded)
              (v2_temperature_scaled fdividef T temperatures vocab_size
                 vocab_size_padded)
              (batch_size * vocab_size_padded) (seq 0 batch_size) logits)
    as (out & Hrun & Hlen' & Hout); [apply NoDup_seq| |done|].
  { intros bi Hbi%elem_of_seq l Hl.
    destruct (lookup_lt_is_Some_2 temperatures bi ltac:(lia)) as [t Htemp].
    set (scale := fdividef f32_one (Fp.add Fp.binary32 t f32_eps)).
    set (body := batchApplyTemperaturePenalty_v2_body T vec_size vocab_size
                   vocab_size_padded scale bi).
    assert (Hflat :
      run_blocks blocks_per_tok (fun blockIdx_x =>
        batchApplyTemperaturePenalty_v2 fdividef T vec_size temperatures
          vocab_size vocab_size_padded bias batch_size blocks_per_tok threads
          shared0 blockIdx_x bi) l
      = foldM (fun tid =>
                 strided_for vocab_size_padded (tid * vec_size) vocab_size_padded
                   (blocks_per_tok * threads * vec_size) body)
          (seq 0 (blocks_per_tok * threads)) l).
    { rewrite <- (launch_flat blocks_per_tok threads
                    (fun bx t =>
                       strided_for vocab_size_padded ((bx * threads + t) * vec_size)
                         vocab_size_padded (blocks_per_tok * threads * vec_size) body))
        by done.
      unfold launch, run_blocks. apply foldM_ext. intros bx s _.
      unfold batchApplyTemperaturePenalty_v2.
      by rewrite (batchApplyTemperaturePenalty_v2_init_spec _ _ _ _ _ t). }
    rewrite Hflat.
    destruct (batchApplyTemperaturePenalty_v2_row T vec_size batch_size vocab_size
                vocab_size_padded scale bi Hvec Hdiv ltac:(lia)
                (blocks_per_tok * threads) l)
      as (l' & Hrun & Hlen' & Hl'); [by apply Nat.mul_pos_pos|done|].
    exists l'. split; [done|]. split; [congruence|].
    intros j. rewrite Hl'.
    destruct (decide (j / vocab_size_padded = bi)) as [E|E]; [|done].
    destruct (l !! j) as [x|]; [|done]. simpl. f_equal.
    unfold v2_temperature_scaled. rewrite E, Htemp. simpl.
    replace (j - bi * vocab_size_padded) with (j mod vocab_size_padded); [done|].
    rewrite Nat.Div0.mod_eq, E. lia. }
  exists out. split; [done|]. split; [congruence|].
  intros j. rewrite Hout.
  destruct (decide (j / vocab_size_padded ∈ seq 0 batch_size)) as [Hin|Hin]; [done|].
  rewrite lookup_ge_None_2; [done|].
  rewrite Hlen. destruct (decide (j < batch_size * vocab_size_padded)); [|lia].
  exfalso. apply Hin, elem_of_seq.
  split; [lia|]. simpl. apply Nat.Div0.div_lt_upper_bound. lia.
Qed.

Lemma blocks_per_tok_pos (vocab_size_padded threads vec_size : nat) :
  0 < vocab_size_padded -> 0 < threads -> 0 < vec_size ->
  0 < (vocab_size_padded + threads * vec_size - 1) / (threads * vec_size).
Proof.
  intros Hvp Ht Hv.
  assert (0 < threads * vec_size) by (by apply Nat.mul_pos_pos).
  apply Nat.div_str_pos. lia.
Qed.

(** What [invokeBatchApplyTemperaturePenalty_v2] leaves in the buffer. *)
Lemma invokeBatchApplyTemperaturePenalty_v2_spec
  (fdividef : spec_float -> spec_float -> spec_float) (shared0 : spec_float)
  (T : dtype) (logits : Logits) (bias : option (list spec_float))
  (temperatures : list spec_float)
  (batch_size vocab_size vocab_size_padded : nat) :
  0 < vocab_size_padded ->
  batch_size <= length temperatures ->
  length logits = batch_size * vocab_size_padded ->
  exists out,
    invokeBatchApplyTemperaturePenalty_v2 fdividef shared0 T logits bias
      temperatures batch_size vocab_size vocab_size_padded = Ok out
    /\ length out = length logits
    /\ forall j, out !! j =
         v2_temperature_scaled fdividef T temperatures vocab_size vocab_size_padded j
           <$> logits !! j.
Proof.
  intros Hvp Ht Hlen. unfold invokeBatchApplyTemperaturePenalty_v2.
  destruct (vocab_size_padded mod 4 =? 0) eqn:E4.
  { apply Nat.eqb_eq in E4.
    apply batchApplyTemperaturePenalty_v2_grid; try done; try lia.
    apply blocks_per_tok_pos; lia. }
  destruct (vocab_size_padded mod 2 =? 0) eqn:E2.
  { apply Nat.eqb_eq in E2.
    apply batchApplyTemperaturePenalty_v2_grid; try done; try lia.
    apply blocks_per_tok_pos; lia. }
  apply batchApplyTemperaturePenalty_v2_grid; try done; try lia;
    first [apply Nat.mod_1_r | apply blocks_per_tok_pos; lia].
Qed.

(* ================================================================== *)
(** * Temperature penalty, [half2] specialization *)
(* ================================================================== *)

Lemma mod_double (h i : nat) :
  0 < h ->
  (2 * i) mod (2 * h) = 2 * (i mod h)
  /\ (2 * i + 1) mod (2 * h) = 2 * (i mod h) + 1.
Proof.
  intros Hh.
  pose proof (Nat.div_mod_eq i h) as Hi.
  pose proof (Nat.mod_upper_bound i h ltac:(lia)) as Hr.
  destruct (div_mod_unique (2 * h) (i / h) (2 * (i mod h)) ltac:(lia)) as [_ H0].
  destruct (div_mod_unique (2 * h) (i / h) (2 * (i mod h) + 1) ltac:(lia)) as [_ H1].
  split.
  - rewrite <- H0. f_equal. nia.
  - rewrite <- H1. f_equal. nia.
Qed.

Lemma even_half (n : nat) : n mod 2 = 0 -> n = 2 * (n / 2).
Proof. intros H. pose proof (Nat.div_mod_eq n 2). lia. Qed.

Lemma load2_Ok (buf : Logits) (i : nat) (x y : spec_float) :
  buf !! (2 * i) = Some x -> buf !! (2 * i + 1) = Some y ->
  load2 buf i = Ok (x, y).
Proof.
  intros Hx Hy. unfold load2.
  by rewrite (load_lookup _ _ _ Hx), (load_lookup _ _ _ Hy).
Qed.

Lemma store2_Ok (buf : Logits) (i : nat) (v : half2) :
  2 * i + 1 < length buf ->
  store2 buf i v = Ok (<[2 * i + 1 := snd v]> (<[2 * i := fst v]> buf)).
Proof.
  intros Hi. unfold store2. rewrite store_lt by lia. simpl.
  apply store_lt. rewrite length_insert. lia.
Qed.

Lemma fmap_Some_eq {A B : Type} (f : A -> B) (x : A) : f <$> Some x = Some (f x).
Proof. reflexivity. Qed.

Lemma applyTemperaturePenalty_half2_body_ok (bias : option (list spec_float))
  (r : spec_float) (batch_size vocab_size vocab_size_padded idx : nat) :
  0 < vocab_size_padded ->
  vocab_size mod 2 = 0 -> vocab_size_padded mod 2 = 0 ->
  bias_fits bias vocab_size_padded ->
  idx < batch_size * (vocab_size_padded / 2) ->
  body_ok (applyTemperaturePenalty_half2_body bias r vocab_size vocab_size_padded)
    (fun j => j / 2) (half2_temperature_scaled bias r vocab_size vocab_size_padded)
    (batch_size * vocab_size_padded) idx.
Proof.
  intros Hvp Hvs2 Hvp2 Hbias Hidx l Hlen.
  pose proof (even_half _ Hvs2) as Evs. pose proof (even_half _ Hvp2) as Evp.
  set (h := vocab_size_padded / 2) in *. set (hs := vocab_size / 2) in *.
  assert (Hh : 0 < h) by lia.
  destruct (mod_double h idx Hh) as [Hm0 Hm1].
  assert (Hm0' : (2 * idx) mod vocab_size_padded = 2 * (idx mod h))
    by (rewrite Evp at 1; exact Hm0).
  assert (Hm1' : (2 * idx + 1) mod vocab_size_padded = 2 * (idx mod h) + 1)
    by (rewrite Evp at 1; exact Hm1).
  pose proof (Nat.mod_upper_bound idx h ltac:(lia)) as Hmod.
  assert (Hl : 2 * idx + 1 < length l) by (rewrite Hlen; nia).
  destruct (lookup_lt_is_Some_2 l (2 * idx) ltac:(lia)) as [x0 Hx0].
  destruct (lookup_lt_is_Some_2 l (2 * idx + 1) ltac:(lia)) as [x1 Hx1].
  assert (Howner : forall j, j / 2 = idx <-> j = 2 * idx \/ j = 2 * idx + 1).
  { intros j. pose proof (Nat.div_mod_eq j 2).
    pose proof (Nat.mod_upper_bound j 2 ltac:(lia)). split; [lia|].
    intros [->| ->].
    - rewrite Nat.mul_comm. by apply Nat.div_mul.
    - destruct (div_mod_unique 2 idx 1 ltac:(lia)) as [Hq _].
      by replace (2 * idx + 1) with (idx * 2 + 1) by lia. }
  assert (Hc0 : ((2 * idx) mod vocab_size_padded <? vocab_size) = (idx mod h <? hs)).
  { rewrite Hm0', Evs.
    destruct (idx mod h <? hs) eqn:E.
    - apply Nat.ltb_lt in E. apply Nat.ltb_lt. lia.
    - apply Nat.ltb_ge in E. apply Nat.ltb_ge. lia. }
  assert (Hc1 : ((2 * idx + 1) mod vocab_size_padded <? vocab_size) = (idx mod h <? hs)).
  { rewrite Hm1', Evs.
    destruct (idx mod h <? hs) eqn:E.
    - apply Nat.ltb_lt in E. apply Nat.ltb_lt. lia.
    - apply Nat.ltb_ge in E. apply Nat.ltb_ge. lia. }
  unfold applyTemperaturePenalty_half2_body. cbv zeta. fold h hs.
  destruct (idx mod h <? hs) eqn:Ecol.
  - rewrite (load2_Ok _ _ _ _ Hx0 Hx1). cbn [bind].
    set (b0 := match bias with
               | Some b => Fp.add Fp.binary16 x0 (default Fp.zero (b !! (2 * (idx mod h))))
               | None => x0 end).
    set (b1 := match bias with
               | Some b => Fp.add Fp.binary16 x1
                             (default Fp.zero (b !! (2 * (idx mod h) + 1)))
               | None => x1 end).
    assert (Hb : match bias with
                 | Some b => bv <- load2 b (idx mod h) ;; Ok (__hadd2 (x0, x1) bv)
                 | None => Ok (x0, x1)
                 end = Ok (b0, b1)).
    { unfold b0, b1. destruct bias as [b|]; [|done]. simpl in Hbias.
      destruct (lookup_lt_is_Some_2 b (2 * (idx mod h)) ltac:(lia)) as [y0 Hy0].
      destruct (lookup_lt_is_Some_2 b (2 * (idx mod h) + 1) ltac:(lia)) as [y1 Hy1].
      by rewrite (load2_Ok _ _ _ _ Hy0 Hy1), Hy0, Hy1. }
    rewrite Hb. cbn [bind]. rewrite store2_Ok by done.
    eexists. split; [done|]. split; [by rewrite !length_insert|].
    intros j. cbn [fst snd __hmul2 __float2half2_rn].
    destruct (decide (j / 2 = idx)) as [Ho|Ho].
    + apply Howner in Ho as [-> | ->].
      * rewrite list_lookup_insert_ne by lia.
        rewrite list_lookup_insert_eq by lia. rewrite Hx0, fmap_Some_eq. f_equal.
        unfold half2_temperature_scaled. rewrite Hc0.
        unfold b0. by rewrite Hm0'.
      * rewrite list_lookup_insert_eq by (rewrite length_insert; lia).
        rewrite Hx1, fmap_Some_eq. f_equal.
        unfold half2_temperature_scaled. rewrite Hc1.
        unfold b1. by rewrite Hm1'.
    + rewrite Howner in Ho. by rewrite !list_lookup_insert_ne by lia.
  - cbn [bind]. exists l. split; [done|]. split; [done|].
    intros j. destruct (decide (j / 2 = idx)) as [Ho|Ho]; [|done].
    apply Howner in Ho as [-> | ->].
    + rewrite Hx0, fmap_Some_eq. unfold half2_temperature_scaled.
      by rewrite Hc0.
    + rewrite Hx1, fmap_Some_eq. unfold half2_temperature_scaled.
      by rewrite Hc1.
Qed.

(** What the [half2] specialization leaves in the buffer. *)
Lemma applyTemperaturePenalty_half2_launch (bias : option (list spec_float))
  (r : spec_float) (batch_size vocab_size vocab_size_padded gridDim blockDim : nat)
  (logits : Logits) :
  0 < gridDim -> 0 < blockDim -> 0 < vocab_size_padded ->
  vocab_size mod 2 = 0 -> vocab_size_padded mod 2 = 0 ->
  bias_fits bias vocab_size_padded ->
  length logits = batch_size * vocab_size_padded ->
  exists out,
    launch gridDim blockDim
      (applyTemperaturePenalty_half2 bias r batch_size vocab_size vocab_size_padded
         gridDim blockDim)
      logits = Ok out
    /\ length out = length logits
    /\ forall j, out !! j =
         half2_temperature_scaled bias r vocab_size vocab_size_padded j
           <$> logits !! j.
Proof.
  intros Hg Hb Hvp Hvs2 Hvp2 Hbias Hlen.
  set (N := batch_size * (vocab_size_padded / 2)).
  set (body := applyTemperaturePenalty_half2_body bias r vocab_size vocab_size_padded).
  rewrite (launch_flat _ _ _
    (fun tid => strided_for N (tid * 1) N (gridDim * blockDim * 1) body)).
  2:{ intros bx t s _ _. unfold applyTemperaturePenalty_half2. fold N body.
      rewrite Hvs2, Hvp2. cbn [Nat.eqb assert bind].
      by rewrite !Nat.mul_1_r, (Nat.mul_comm blockDim gridDim). }
  destruct (grid_pointwise body (fun j => j / 2)
              (half2_temperature_scaled bias r vocab_size vocab_size_padded)
              1 (gridDim * blockDim) N logits)
    as (out & Hrun & Hlen' & Hout); [lia|by apply Nat.mul_pos_pos| |].
  { intros idx Hidx _. rewrite Hlen.
    by apply applyTemperaturePenalty_half2_body_ok. }
  exists out. split; [exact Hrun|split; [exact Hlen'|]].
  intros j. rewrite Hout.
  destruct (decide (j / 2 < N /\ (j / 2) mod 1 = 0)) as [|Hn]; [done|].
  assert (Hj : logits !! j = None).
  { apply lookup_ge_None_2. rewrite Hlen.
    destruct (decide (j < batch_size * vocab_size_padded)) as [Hlt|]; [|lia].
    exfalso; apply Hn; split; [|apply Nat.mod_1_r].
    unfold N. pose proof (even_half _ Hvp2).
    apply Nat.Div0.div_lt_upper_bound. lia. }
  by rewrite Hj.
Qed.

(** Adding the zero bias of the scalar kernel changes at most the sign of a
    zero. *)
Lemma add_zero_mul (f : Fp.format) (x r : spec_float) :
  Fp.num_eq (Fp.mul f x r) (Fp.mul f (Fp.add f x Fp.zero) r).
Proof.
  unfold Fp.num_eq, Fp.mul, Fp.add, Fp.zero.
  destruct x as [[]|[]| |[] mx ex]; simpl; try (by left);
    destruct r as [[]|[]| |[] mr er]; simpl; (by left) || (by right).
Qed.

(* ================================================================== *)
(** * Indexed copy *)
(* ================================================================== *)

(** ** Slots *)

Lemma slot_in_range (buf : list Byte.byte) (sz j : nat) :
  j * sz + sz <= length buf -> slot buf sz j = Some (take sz (drop (j * sz) buf)).
Proof.
  intros H. unfold slot.
  destruct (j * sz + sz <=? length buf) eqn:E; [done|apply Nat.leb_gt in E; lia].
Qed.

Lemma slot_length (buf bytes : list Byte.byte) (sz j : nat) :
  slot buf sz j = Some bytes -> length bytes = sz /\ j * sz + sz <= length buf.
Proof.
  unfold slot. destruct (j * sz + sz <=? length buf) eqn:E; [|done].
  apply Nat.leb_le in E. intros [= <-]. split; [|done].
  rewrite length_take, length_drop. lia.
Qed.

Lemma length_write_slot (buf bytes : list Byte.byte) (sz j : nat) :
  length (write_slot buf sz j bytes) = length buf.
Proof. apply length_inserts. Qed.

Lemma slot_write_eq (buf bytes : list Byte.byte) (sz j : nat) :
  length bytes = sz -> j * sz + sz <= length buf ->
  slot (write_slot buf sz j bytes) sz j = Some bytes.
Proof.
  intros Hb Hj. rewrite slot_in_range by (by rewrite length_write_slot).
  f_equal. apply list_eq. intros i. unfold write_slot.
  destruct (decide (i < sz)) as [Hi|Hi].
  - rewrite lookup_take_lt, lookup_drop by done.
    rewrite list_lookup_inserts by lia. f_equal. lia.
  - rewrite lookup_take_ge by lia. symmetry. apply lookup_ge_None_2. lia.
Qed.

Lemma slot_write_ne (buf bytes : list Byte.byte) (sz j j' : nat) :
  length bytes = sz -> j <> j' ->
  slot (write_slot buf sz j bytes) sz j' = slot buf sz j'.
Proof.
  intros Hb Hne. unfold slot. rewrite length_write_slot.
  destruct (j' * sz + sz <=? length buf); [|done].
  f_equal. apply list_eq. intros i. unfold write_slot.
  destruct (decide (i < sz)) as [Hi|Hi].
  - rewrite !lookup_take_lt, !lookup_drop by done.
    destruct (decide (j' < j)).
    + apply list_lookup_inserts_lt. nia.
    + apply list_lookup_inserts_ge. nia.
  - by rewrite !lookup_take_ge by lia.
Qed.

(** ** One buffer *)

Lemma index_at_effective (idx other : list nat) (k i : nat) :
  effective_indices idx other !! k = Some i ->
  index_at (if is_empty idx then None else Some idx) k = Ok i.
Proof.
  unfold effective_indices. destruct idx as [|a idx]; simpl.
  - intros [-> _]%lookup_seq. done.
  - intros H. by apply load_lookup.
Qed.

Section CopyBuffer.
Variables (src dst sz : nat) (src_idx dst_idx : list nat).
Variables (mem : Memory) (sb db : list Byte.byte).

Let S := effective_indices src_idx dst_idx.
Let D := effective_indices dst_idx src_idx.
Let src_ptr := if is_empty src_idx then None else Some src_idx.
Let dst_ptr := if is_empty dst_idx then None else Some dst_idx.

Hypothesis Hsrc : mem !! src = Some sb.
Hypothesis Hdst : mem !! dst = Some db.
Hypothesis HS : forall s, s ∈ S -> s * sz + sz <= length sb.
Hypothesis HD : forall d, d ∈ D -> d * sz + sz <= length db.
Hypothesis Hdisjoint : forall i, i ∈ S -> i ∉ D.
Hypothesis HnodupD : NoDup D.

Lemma copy_buffer_prefix (n : nat) :
  n <= length S -> n <= length D ->
  exists db_n,
    copy_buffer src dst sz src_ptr dst_ptr n mem = Ok (<[dst := db_n]> mem)
    /\ length db_n = length db
    /\ (forall k s d, k < n -> S !! k = Some s -> D !! k = Some d ->
          slot db_n sz d = slot sb sz s)
    /\ (forall j, (forall k d, k < n -> D !! k = Some d -> d <> j) ->
          slot db_n sz j = slot db sz j).
Proof.
  induction n as [|n IH]; intros HnS HnD.
  - exists db. split_and!; [|done| |done].
    + unfold copy_buffer. simpl. by rewrite insert_id.
    + intros k s d Hk. lia.
  - destruct IH as (db_n & Hrun & Hlen & Hcopied & Hkept); [lia..|].
    destruct (lookup_lt_is_Some_2 S n ltac:(lia)) as [si Hsi].
    destruct (lookup_lt_is_Some_2 D n ltac:(lia)) as [di Hdi].
    assert (HsiS : si ∈ S) by (by apply list_elem_of_lookup_2 in Hsi).
    assert (HdiD : di ∈ D) by (by apply list_elem_of_lookup_2 in Hdi).
    pose proof (HS si HsiS) as Hsr. pose proof (HD di HdiD) as Hdr.
    set (bytes := take sz (drop (si * sz) sb)).
    assert (Hbytes : slot sb sz si = Some bytes) by (by apply slot_in_range).
    assert (Hblen : length bytes = sz) by (by apply slot_length in Hbytes as [? _]).
    (* the source slot is still what it was when the copy started *)
    assert (Hread : exists cur, <[dst := db_n]> mem !! src = Some cur
                                /\ slot cur sz si = Some bytes).
    { destruct (decide (src = dst)) as [->|Hne].
      - exists db_n. rewrite lookup_insert_eq. split; [done|].
        assert (sb = db) by congruence. subst sb.
        rewrite Hkept; [done|].
        intros k d Hk Hd ->. apply (Hdisjoint _ HsiS).
        by apply list_elem_of_lookup_2 in Hd.
      - exists sb. by rewrite lookup_insert_ne. }
    destruct Hread as (cur & Hcur & Hslot).
    exists (write_slot db_n sz di bytes).
    split_and!.
    + unfold copy_buffer in *. rewrite seq_S, foldM_app, Hrun. simpl.
      unfold src_ptr, dst_ptr.
      rewrite (index_at_effective _ _ _ _ Hsi), (index_at_effective _ _ _ _ Hdi).
      simpl. unfold copy_slot. rewrite Hcur, Hslot, lookup_insert_eq.
      destruct (di * sz + sz <=? length db_n) eqn:E;
        [|apply Nat.leb_gt in E; lia].
      by rewrite insert_insert_eq.
    + by rewrite length_write_slot.
    + intros k s d Hk Hs Hd.
      destruct (decide (k = n)) as [->|Hne].
      * assert (s = si) by congruence. assert (d = di) by congruence. subst s d.
        rewrite Hbytes. apply slot_write_eq; [done|lia].
      * assert (di <> d).
        { intros ->. apply Hne. by apply (NoDup_lookup D k n d). }
        rewrite slot_write_ne by done. apply Hcopied with k; [lia|done..].
    + intros j Hj.
      assert (di <> j) by (by apply (Hj n); [lia|]).
      rewrite slot_write_ne by done. apply Hkept.
      intros k d Hk. apply Hj. lia.
Qed.
End CopyBuffer.

(** ** All buffers *)

Lemma foldM_seq_lookup {A St : Type} (F : nat -> St -> result St)
  (G : A -> St -> result St) (l : list A) (a : nat) (s : St) :
  (forall i x s, l !! i = Some x -> F (a + i) s = G x s) ->
  foldM F (seq a (length l)) s = foldM G l s.
Proof.
  revert a s. induction l as [|x l IH]; intros a s H; [done|].
  simpl. rewrite <- (Nat.add_0_r a) at 1. rewrite (H 0 x s eq_refl).
  destruct (G x s) as [s'|e]; simpl; [|done].
  apply IH. intros i y s0 Hy. replace (S a + i) with (a + S i) by lia.
  by apply H.
Qed.

Lemma invokeIndexedCopy_cpys (src_idx dst_idx : option (list nat)) (count : nat)
  (cpys : list Cpy) (mem : Memory) :
  invokeIndexedCopy (cpy_src <$> cpys) (cpy_dst <$> cpys)
    ((fun c => cpy_sizeof c * cpy_count c) <$> cpys)
    src_idx dst_idx count (length cpys) mem
  = foldM (fun c =>
             copy_buffer (cpy_src c) (cpy_dst c) (cpy_elem_sz c) src_idx dst_idx count)
      cpys mem.
Proof.
  unfold invokeIndexedCopy. apply foldM_seq_lookup. intros i c s Hc. simpl.
  rewrite (load_lookup (cpy_src <$> cpys) i (cpy_src c))
    by (by rewrite list_lookup_fmap, Hc).
  rewrite (load_lookup (cpy_dst <$> cpys) i (cpy_dst c))
    by (by rewrite list_lookup_fmap, Hc).
  rewrite (load_lookup (_ <$> cpys) i (cpy_elem_sz c))
    by (by rewrite list_lookup_fmap, Hc).
  done.
Qed.

Lemma cpys_separate_cons (c : Cpy) (cpys : list Cpy) :
  cpys_separate (c :: cpys) ->
  cpys_separate cpys
  /\ (cpy_dst c ∉ cpy_dst <$> cpys)
  /\ forall c2, c2 ∈ cpys -> cpy_src c2 <> cpy_dst c.
Proof.
  intros [Hnd Hcross]. rewrite fmap_cons in Hnd. apply NoDup_cons in Hnd as [Hnot Hnd].
  split_and!; [split; [done|]|done|].
  - intros i j c1 c2 H1 H2 Hne. apply (Hcross (S i) (S j)); [done..|lia].
  - intros c2 [i Hi]%list_elem_of_lookup_1. by apply (Hcross (S i) 0).
Qed.

Section CopyCpys.
Variables (src_idx dst_idx : list nat).

Let S := effective_indices src_idx dst_idx.
Let D := effective_indices dst_idx src_idx.
Let src_ptr := if is_empty src_idx then None else Some src_idx.
Let dst_ptr := if is_empty dst_idx then None else Some dst_idx.

Hypothesis Hlen : length S = length D.
Hypothesis Hdisjoint : forall i, i ∈ S -> i ∉ D.
Hypothesis HnodupD : NoDup D.

Lemma copy_buffer_done (c : Cpy) (mem : Memory) :
  cpy_ready mem S D c ->
  exists db',
    copy_buffer (cpy_src c) (cpy_dst c) (cpy_elem_sz c) src_ptr dst_ptr
      (length S) mem = Ok (<[cpy_dst c := db']> mem)
    /\ cpy_done mem (<[cpy_dst c := db']> mem) S D c.
Proof.
  intros (sb & db & Hsrc & Hdst & HS & HD).
  destruct (copy_buffer_prefix (cpy_src c) (cpy_dst c) (cpy_elem_sz c)
              src_idx dst_idx mem sb db Hsrc Hdst HS HD Hdisjoint HnodupD
              (length S) ltac:(done) ltac:(fold S D; lia))
    as (db' & Hrun & Hlen' & Hcopied & Hkept).
  exists db'. split; [done|].
  exists sb, db, db'. split_and!; [done|done|by rewrite lookup_insert_eq|done| |].
  - intros k s d Hs Hd. apply (Hcopied k); [|done..].
    by apply lookup_lt_Some in Hs.
  - intros j _ HjD. apply Hkept. intros k d _ Hd ->.
    apply HjD. by apply list_elem_of_lookup_2 in Hd.
Qed.

Lemma copy_cpys (cpys : list Cpy) (mem : Memory) :
  cpys_separate cpys ->
  (forall c, c ∈ cpys -> cpy_ready mem S D c) ->
  exists mem',
    foldM (fun c =>
             copy_buffer (cpy_src c) (cpy_dst c) (cpy_elem_sz c) src_ptr dst_ptr
               (length S))
      cpys mem = Ok mem'
    /\ (forall c, c ∈ cpys -> cpy_done mem mem' S D c)
    /\ (forall a, a ∉ cpy_dst <$> cpys -> mem' !! a = mem !! a).
Proof.
  revert mem. induction cpys as [|c cpys IH]; intros mem Hsep Hready.
  - exists mem. split_and!; [done| |done]. intros c Hc. by apply elem_of_nil in Hc.
  - destruct (cpys_separate_cons c cpys Hsep) as (Hsep' & Hnot & Hcross).
    destruct (copy_buffer_done c mem (Hready c ltac:(left)))
      as (db1 & Hrun1 & Hdone1).
    set (mem1 := <[cpy_dst c := db1]> mem) in *.
    assert (Hsame : forall c2, c2 ∈ cpys ->
              mem1 !! cpy_src c2 = mem !! cpy_src c2
              /\ mem1 !! cpy_dst c2 = mem !! cpy_dst c2).
    { intros c2 Hc2. unfold mem1. split.
      - apply lookup_insert_ne. intros E. by apply (Hcross c2 Hc2).
      - apply lookup_insert_ne. intros E. apply Hnot. rewrite E.
        by apply list_elem_of_fmap_2. }
    destruct (IH mem1 Hsep') as (mem' & Hrun & Hdone & Hkeep).
    { intros c2 Hc2. destruct (Hsame c2 Hc2) as [Es Ed].
      destruct (Hready c2 ltac:(by right)) as (sb & db & Hs & Hd & HS & HD).
      exists sb, db. by rewrite Es, Ed. }
    exists mem'. split_and!.
    + simpl. rewrite Hrun1. done.
    + intros c' [->|Hc']%elem_of_cons.
      * destruct Hdone1 as (sb & db & db' & Hs & Hd & Hd' & Hl & Hcopied & Hkept).
        exists sb, db, db'. split_and!; [done|done| |done..].
        by rewrite Hkeep.
      * destruct (Hsame c' Hc') as [Es Ed].
        destruct (Hdone c' Hc') as (sb & db & db' & Hs & Hd & Hd' & Hl & Hcopied & Hkept).
        exists sb, db, db'. rewrite <- Es, <- Ed. by split_and!.
    + intros a Ha. rewrite fmap_cons, not_elem_of_cons in Ha. destruct Ha as [Hne Ha].
      rewrite (Hkeep a Ha). by apply lookup_insert_ne.
Qed.
End CopyCpys.

Lemma effective_indices_length (src_idx dst_idx : list nat) :
  length src_idx = length dst_idx \/ src_idx = [] \/ dst_idx = [] ->
  length (effective_indices src_idx dst_idx)
  = Nat.max (length src_idx) (length dst_idx)
  /\ length (effective_indices dst_idx src_idx)
     = Nat.max (length src_idx) (length dst_idx).
Proof.
  unfold effective_indices.
  destruct src_idx as [|a src_idx], dst_idx as [|b dst_idx]; simpl;
    rewrite ?length_seq; intros [H|[H|H]]; simplify_eq/=; lia.
Qed.

Lemma IndexedCopy_check_passes (src_idx dst_idx : list nat) :
  length src_idx = length dst_idx \/ src_idx = [] \/ dst_idx = [] <->
  ((length src_idx =? length dst_idx)
   || xorb (is_empty src_idx) (is_empty dst_idx)) = true.
Proof.
  destruct src_idx as [|a src_idx], dst_idx as [|b dst_idx]; simpl.
  - split; [done|by left].
  - split; [done|by right; left].
  - split; [done|by right; right].
  - rewrite orb_false_r, Nat.eqb_eq. split; [|intros; left; lia].
    intros [H|[H|H]]; [lia|done..].
Qed.

(** What [IndexedCopy] leaves in memory. *)
Lemma IndexedCopy_spec (src_idx dst_idx : list nat) (cpys : list Cpy)
  (mem : Memory) :
  length src_idx = length dst_idx \/ src_idx = [] \/ dst_idx = [] ->
  (forall i, i ∈ effective_indices src_idx dst_idx ->
     i ∉ effective_indices dst_idx src_idx) ->
  NoDup (effective_indices dst_idx src_idx) ->
  cpys_separate cpys ->
  (forall c, c ∈ cpys ->
     cpy_ready mem (effective_indices src_idx dst_idx)
       (effective_indices dst_idx src_idx) c) ->
  exists mem',
    IndexedCopy src_idx dst_idx cpys mem = Ok mem'
    /\ (forall c, c ∈ cpys ->
          cpy_done mem mem' (effective_indices src_idx dst_idx)
            (effective_indices dst_idx src_idx) c)
    /\ (forall a, a ∉ cpy_dst <$> cpys -> mem' !! a = mem !! a).
Proof.
  intros Hcheck Hdisjoint Hnodup Hsep Hready.
  destruct (effective_indices_length src_idx dst_idx Hcheck) as [HlS HlD].
  unfold IndexedCopy.
  rewrite (proj1 (IndexedCopy_check_passes src_idx dst_idx) Hcheck).
  unfold IndexedCopyImpl.
  destruct (Nat.max (length src_idx) (length dst_idx) =? 0) eqn:E0.
  - apply Nat.eqb_eq in E0. exists mem. split_and!; [done| |done].
    intros c Hc. destruct (Hready c Hc) as (sb & db & Hs & Hd & _ & _).
    exists sb, db, db. split_and!; [done..| |done].
    intros k s d Hk%lookup_lt_Some. lia.
  - cbv zeta. rewrite invokeIndexedCopy_cpys, <- HlS.
    apply copy_cpys; [lia|done..].
Qed.

(* ================================================================== *)
(** * The properties of the specification *)
(* ================================================================== *)

(** ** Temperature scaling, scalar kernel *)

(** C1 (as the code has it).  On the scalar path of
    [invokeApplyTemperaturePenalty] (every element type but [half] with even
    sizes), for every logits buffer, optional bias and temperature, the
    kernel leaves at every column [v < vocab_size] of every row the biased
    logit times the reciprocal of the temperature,
    [(L[v] + B[v]) * (T)(1.f / (temperature + 1e-6f))] (the bias being zero
    when absent, sum and product rounded in the element type), and at every
    padding column [vocab_size <= v < vocab_size_padd] the value
    [-getMaxValue<T>()]. *)
Theorem temperature_scalar_path (T : dtype) (logits : Logits)
  (bias : option (list spec_float)) (temperature : spec_float)
  (batch_size vocab_size vocab_size_padd : nat) :
  0 < batch_size -> 0 < vocab_size_padd ->
  bias_fits bias vocab_size_padd ->
  length logits = batch_size * vocab_size_padd ->
  dtype_eqb T Half && (vocab_size mod 2 =? 0) && (vocab_size_padd mod 2 =? 0) = false ->
  exists out,
    invokeApplyTemperaturePenalty T logits bias temperature
      batch_size vocab_size vocab_size_padd = Ok out
    /\ length out = length logits
    /\ forall row v x,
         row < batch_size -> v < vocab_size_padd ->
         logits !! (row * vocab_size_padd + v) = Some x ->
         out !! (row * vocab_size_padd + v) =
           Some (if v <? vocab_size
                 then Fp.mul (fmt T) (Fp.add (fmt T) x (bias_at T bias v))
                        (of_float T (Fp.div Fp.binary32 f32_one
                                       (Fp.add Fp.binary32 temperature f32_eps)))
                 else Fp.opp (getMaxValue T)).
Proof.
  intros Hb Hvp Hbias Hlen Hpath.
  destruct (invokeApplyTemperaturePenalty_scalar T logits bias temperature
              batch_size vocab_size vocab_size_padd Hb Hvp Hbias Hlen Hpath)
    as (out & Hrun & Hlen' & Hout).
  exists out. split; [done|]. split; [done|].
  intros row v x Hrow Hv Hx. rewrite Hout, Hx. simpl. f_equal.
  unfold temperature_scaled.
  destruct (div_mod_unique vocab_size_padd row v Hv) as [_ ->]. done.
Qed.

(** The scalar path on a 2 x 3 [float] buffer padded from 2 columns, with a
    bias and temperature 1. *)
Lemma temperature_scalar_path_witness :
  let logits := [f32 1; f32 2; f32 3; f32 4; f32 5; f32 6] in
  let bias := Some [f32 1; f32 1; f32 1] in
  exists out,
    invokeApplyTemperaturePenalty Float logits bias (f32 1) 2 2 3 = Ok out
    /\ length out = length logits
    /\ forall row v x,
         row < 2 -> v < 3 ->
         logits !! (row * 3 + v) = Some x ->
         out !! (row * 3 + v) =
           Some (if v <? 2
                 then Fp.mul (fmt Float) (Fp.add (fmt Float) x (bias_at Float bias v))
                        (of_float Float (Fp.div Fp.binary32 f32_one
                                           (Fp.add Fp.binary32 (f32 1) f32_eps)))
                 else Fp.opp (getMaxValue Float)).
Proof.
  intros logits bias.
  apply (temperature_scalar_path Float logits bias (f32 1) 2 2 3);
    [lia | lia | simpl; lia | reflexivity | reflexivity].
Defined.

(** C1 (as stated) fails.  With [T = float], logit 3 and temperature 3 the
    kernel writes [3 * (1 / (3 + 1e-6))], which is not the quotient
    [3 / (3 + 1e-6)]; with [T = half], logit 0 and temperature [1e-6 > 0] the
    reciprocal [500000] overflows to infinity in [half] and the kernel writes
    a NaN where the quotient is 0. *)
Lemma temperature_quotient_counterexample :
  (Fp.ltb Fp.zero (f32 3) = true
   /\ exists y,
        invokeApplyTemperaturePenalty Float [f32 3] None (f32 3) 1 1 1 = Ok [y]
        /\ y <> temperature_quotient Float (f32 3) (bias_at Float None 0) (f32 3))
  /\ (Fp.ltb Fp.zero f32_eps = true
      /\ invokeApplyTemperaturePenalty Half [Fp.zero] None f32_eps 1 1 1
         = Ok [S754_nan]
      /\ temperature_quotient Half Fp.zero (bias_at Half None 0) f32_eps = Fp.zero).
Proof.
  split.
  - split; [reflexivity|]. eexists. split; [vm_compute; reflexivity|].
    vm_compute. discriminate.
  - split; [reflexivity|]. split; vm_compute; reflexivity.
Qed.

(** ** Minimum-length penalty *)

(** C5 (as the code has it).  When every end id is a column of the padded
    vocabulary ([end_id < vocab_size_padded]) and every sequence length is
    an [int] below [INT_MAX], so that [sequence_length + 1] does not
    overflow: for every row [bid] and column [col], the kernel forces the
    logit to [-getMaxValue<T>()] exactly when [col] is one of the row's end
    ids, [col > 0], and [sequence_length + 1 < min_length] for the row; every
    other logit keeps its value. *)
Theorem min_length_penalty_masks (T : dtype) (logits : Logits)
  (min_lengths sequence_lengths : list Z) (vocab_size_padded batch_size : nat)
  (end_ids : list Z) (end_ids_size : nat) :
  0 < batch_size -> 0 < end_ids_size ->
  length logits = batch_size * vocab_size_padded ->
  length end_ids = batch_size * end_ids_size ->
  length sequence_lengths = batch_size ->
  length min_lengths = batch_size ->
  Forall (fun end_id => (end_id < Z.of_nat vocab_size_padded)%Z) end_ids ->
  Forall below_int_max sequence_lengths ->
  exists out,
    invokeMinLengthPenalty T logits min_lengths sequence_lengths
      vocab_size_padded batch_size end_ids end_ids_size = Ok out
    /\ length out = length logits
    /\ forall bid col, bid < batch_size -> col < vocab_size_padded ->
         out !! (bid * vocab_size_padded + col) =
           if min_length_masked min_lengths sequence_lengths end_ids
                end_ids_size bid col
           then Some (Fp.opp (getMaxValue T))
           else logits !! (bid * vocab_size_padded + col).
Proof.
  intros Hb HE Hlen Hend Hseq Hmin Hrange Hint.
  destruct (invokeMinLengthPenalty_spec T logits min_lengths sequence_lengths
              vocab_size_padded batch_size end_ids end_ids_size)
    as (out & Hrun & Hlen' & Hout); try done; try lia.
  { intros i end_id _ Hi. rewrite Forall_forall in Hrange.
    apply Hrange. by apply list_elem_of_lookup_2 in Hi. }
  exists out. split; [done|]. split; [done|].
  intros bid col Hbid Hcol.
  by rewrite Hout, min_length_masked_int_eq by done.
Qed.

(** One row with [sequence_length = 3], [min_length = 5] and the end ids
    [0] (unset) and [2]. *)
Lemma min_length_penalty_masks_witness :
  let logits := [f32 10; f32 11; f32 12; f32 13; f32 14;
                 f32 15; f32 16; f32 17; f32 18; f32 19] in
  exists out,
    invokeMinLengthPenalty Float logits [5%Z] [3%Z] 10 1 [0%Z; 2%Z] 2 = Ok out
    /\ length out = length logits
    /\ forall bid col, bid < 1 -> col < 10 ->
         out !! (bid * 10 + col) =
           if min_length_masked [5%Z] [3%Z] [0%Z; 2%Z] 2 bid col
           then Some (Fp.opp (getMaxValue Float))
           else logits !! (bid * 10 + col).
Proof.
  intros logits.
  apply (min_length_penalty_masks Float logits [5%Z] [3%Z] 10 1 [0%Z; 2%Z] 2);
    [lia | lia | reflexivity | reflexivity | reflexivity | reflexivity
    | repeat constructor; lia
    | repeat constructor; unfold below_int_max; lia ].
Defined.

(** C5 (as stated) fails.  The kernel does not compare an end id with
    [vocab_size_padded]: of two rows of three columns, the end id 4 of the
    first, which is shorter than its minimum length, masks column 1 of the
    second, which has no end id set and has reached its minimum length.  And
    the [int] sum [sequence_length + 1] wraps around at [INT_MAX]: a row of
    that length with minimum length 0 has its end id masked. *)
Lemma min_length_penalty_counterexample :
  (invokeMinLengthPenalty Float [f32 1; f32 2; f32 3; f32 4; f32 5; f32 6]
     [5; 5]%Z [1; 9]%Z 3 2 [4; 0]%Z 1
   = Ok [f32 1; f32 2; f32 3; f32 4; Fp.opp (getMaxValue Float); f32 6]
   /\ min_length_masked [5; 5]%Z [1; 9]%Z [4; 0]%Z 1 1 1 = false
   /\ Fp.opp (getMaxValue Float) <> f32 5)
  /\ (invokeMinLengthPenalty Float [f32 1; f32 2; f32 3]
        [0%Z] [2147483647%Z] 3 1 [2%Z] 1
      = Ok [f32 1; f32 2; Fp.opp (getMaxValue Float)]
      /\ min_length_masked [0%Z] [2147483647%Z] [2%Z] 1 0 2 = false
      /\ Fp.opp (getMaxValue Float) <> f32 3).
Proof.
  split; (split; [vm_compute; reflexivity|]);
    (split; [vm_compute; reflexivity|vm_compute; discriminate]).
Qed.

(** ** The vectorized kernel and its bias argument *)

(** C10.  The output of the [_v2] kernel does not depend on its bias
    argument: two runs that differ only in [bias] (none, or any buffer) have
    the same outcome, and on a well-formed input both return the same logits
    buffer, every entry of which is computed from the logit and the row's
    temperature alone. *)
Theorem temperature_v2_ignores_bias
  (fdividef : spec_float -> spec_float -> spec_float) (shared0 : spec_float)
  (T : dtype) (logits : Logits) (bias1 bias2 : option (list spec_float))
  (temperatures : list spec_float)
  (batch_size vocab_size vocab_size_padded : nat) :
  invokeBatchApplyTemperaturePenalty_v2 fdividef shared0 T logits bias1
    temperatures batch_size vocab_size vocab_size_padded
  = invokeBatchApplyTemperaturePenalty_v2 fdividef shared0 T logits bias2
      temperatures batch_size vocab_size vocab_size_padded
  /\ (0 < vocab_size_padded ->
      batch_size <= length temperatures ->
      length logits = batch_size * vocab_size_padded ->
      exists out,
        invokeBatchApplyTemperaturePenalty_v2 fdividef shared0 T logits bias1
          temperatures batch_size vocab_size vocab_size_padded = Ok out
        /\ invokeBatchApplyTemperaturePenalty_v2 fdividef shared0 T logits bias2
             temperatures batch_size vocab_size vocab_size_padded = Ok out
        /\ length out = length logits
        /\ forall j, out !! j =
             v2_temperature_scaled fdividef T temperatures vocab_size
               vocab_size_padded j <$> logits !! j).
Proof.
  split; [reflexivity|]. intros Hvp Ht Hlen.
  destruct (invokeBatchApplyTemperaturePenalty_v2_spec fdividef shared0 T logits
              bias1 temperatures batch_size vocab_size vocab_size_padded
              Hvp Ht Hlen) as (out1 & Hrun1 & Hlen1 & Hout1).
  destruct (invokeBatchApplyTemperaturePenalty_v2_spec fdividef shared0 T logits
              bias2 temperatures batch_size vocab_size vocab_size_padded
              Hvp Ht Hlen) as (out2 & Hrun2 & Hlen2 & Hout2).
  assert (out2 = out1) as ->.
  { apply list_eq. intros j. by rewrite Hout1, Hout2. }
  by exists out1.
Qed.

(** One row of four [float] logits, three of them in the vocabulary, run
    without a bias and with one. *)
Lemma temperature_v2_ignores_bias_witness :
  exists out,
    invokeBatchApplyTemperaturePenalty_v2 (Fp.div Fp.binary32) S754_nan Float
      [f32 1; f32 2; f32 3; f32 4] None [f32 2] 1 3 4 = Ok out
    /\ invokeBatchApplyTemperaturePenalty_v2 (Fp.div Fp.binary32) S754_nan Float
         [f32 1; f32 2; f32 3; f32 4] (Some [f32 5; f32 6; f32 7; f32 8])
         [f32 2] 1 3 4 = Ok out
    /\ length out = 4
    /\ forall j, out !! j =
         v2_temperature_scaled (Fp.div Fp.binary32) Float [f32 2] 3 4 j
           <$> [f32 1; f32 2; f32 3; f32 4] !! j.
Proof.
  apply (proj2 (temperature_v2_ignores_bias (Fp.div Fp.binary32) S754_nan Float
                  [f32 1; f32 2; f32 3; f32 4] None
                  (Some [f32 5; f32 6; f32 7; f32 8]) [f32 2] 1 3 4)).
  - lia.
  - simpl. lia.
  - reflexivity.
Defined.

(** ** Repetition penalty *)

(** C7 (as the code has it).  Frame property of both repetition penalty
    kernels, for histories whose considered positions hold token ids of the
    vocabulary ([0 <= id < vocab_size]): a position
    [index < step] is considered when [index < input_length] or
    [index >= max_input_length]; the logit of a token id that appears at no
    considered position of the row's history keeps its value (whatever the
    padding slots [input_length <= index < max_input_length] hold). *)
Theorem repetition_penalty_frame (T : dtype) (penalty_type : RepetitionPenaltyType)
  (output_ids : list Z) (batch_size local_batch_size vocab_size : nat)
  (input_lengths : option (list Z)) (max_input_length step : nat) :
  penalty_type <> NoPenalty ->
  histories_valid output_ids batch_size local_batch_size vocab_size
    input_lengths max_input_length step = true ->
  (forall (logits penalties : list spec_float)
          (ws_logits : nat -> list spec_float) (ws_indices : nat -> list Z),
     length logits = local_batch_size * vocab_size ->
     local_batch_size <= length penalties ->
     (forall b, b < local_batch_size ->
        length (ws_logits b) = step /\ length (ws_indices b) = step) ->
     exists out,
       invokeBatchApplyRepetitionPenalty T logits penalties ws_logits ws_indices
         output_ids batch_size local_batch_size vocab_size input_lengths
         max_input_length step penalty_type = Ok out
       /\ length out = length logits
       /\ forall row v input_length,
            row < local_batch_size -> v < vocab_size ->
            row_input_length input_lengths max_input_length row = Ok input_length ->
            (forall index, index < step ->
               (Z.of_nat index < input_length)%Z \/ max_input_length <= index ->
               output_ids !! (index * batch_size + row) <> Some (Z.of_nat v)) ->
            out !! (row * vocab_size + v) = logits !! (row * vocab_size + v))
  /\ (forall (logits : list spec_float) (penalty : spec_float)
             (vocab_size_padd : nat)
             (smem_logits : nat -> list spec_float) (smem_indices : nat -> list Z),
        vocab_size <= vocab_size_padd ->
        length logits = local_batch_size * vocab_size_padd ->
        (forall b, b < local_batch_size ->
           length (smem_logits b) = step /\ length (smem_indices b) = step) ->
        exists out,
          invokeApplyRepetitionPenalty T logits penalty output_ids batch_size
            local_batch_size vocab_size vocab_size_padd input_lengths
            max_input_length step penalty_type smem_logits smem_indices = Ok out
          /\ length out = length logits
          /\ forall row v input_length,
               row < local_batch_size -> v < vocab_size_padd ->
               row_input_length input_lengths max_input_length row = Ok input_length ->
               (forall index, index < step ->
                  (Z.of_nat index < input_length)%Z \/ max_input_length <= index ->
                  output_ids !! (index * batch_size + row) <> Some (Z.of_nat v)) ->
               out !! (row * vocab_size_padd + v)
               = logits !! (row * vocab_size_padd + v)).
Proof.
  intros Hpt Hvalid. split.
  - intros logits penalties ws_logits ws_indices Hlen Hpen Hws.
    destruct (invokeBatchApplyRepetitionPenalty_spec T logits penalties ws_logits
                ws_indices output_ids batch_size local_batch_size vocab_size
                input_lengths max_input_length step penalty_type
                Hpt Hlen Hpen Hws Hvalid) as (out & Hrun & Hlen' & Hout).
    exists out. split; [done|]. split; [done|].
    intros row v input_length Hrow Hv Hil Habsent.
    destruct (lookup_lt_is_Some_2 logits (row * vocab_size + v) ltac:(nia)) as [x Hx].
    destruct (lookup_lt_is_Some_2 penalties row ltac:(lia)) as [p Hp].
    rewrite (Hout row v x p input_length Hrow Hv Hx Hp Hil), Hx.
    rewrite decide_False; [done|].
    intros (index & Hidx & Hc & Hid)%elem_of_history_ids.
    by apply (Habsent index Hidx Hc).
  - intros logits penalty vocab_size_padd smem_logits smem_indices HV Hlen Hws.
    destruct (invokeApplyRepetitionPenalty_spec T logits penalty output_ids
                batch_size local_batch_size vocab_size vocab_size_padd
                input_lengths max_input_length step penalty_type smem_logits
                smem_indices Hpt HV Hlen Hws Hvalid) as (out & Hrun & Hlen' & Hout).
    exists out. split; [done|]. split; [done|].
    intros row v input_length Hrow Hv Hil Habsent.
    destruct (lookup_lt_is_Some_2 logits (row * vocab_size_padd + v) ltac:(nia))
      as [x Hx].
    rewrite (Hout row v x input_length Hrow Hv Hx Hil), Hx.
    rewrite decide_False; [done|].
    intros (index & Hidx & Hc & Hid)%elem_of_history_ids.
    by apply (Habsent index Hidx Hc).
Qed.

(** A row of input length 1 padded to 2 with the history [5; 9; 7]: position
    1 is a padding slot. *)
Lemma repetition_penalty_frame_witness :
  let logits := [f32 10; f32 11; f32 12; f32 13; f32 14;
                 f32 15; f32 16; f32 17; f32 18; f32 19] in
  exists out,
    invokeBatchApplyRepetitionPenalty Float logits [f32 1]
      (fun _ => [S754_nan; S754_nan; S754_nan]) (fun _ => [0; 0; 0]%Z)
      [5; 9; 7]%Z 1 1 10 (Some [1%Z]) 2 3 Additive = Ok out
    /\ length out = length logits
    /\ forall row v input_length,
         row < 1 -> v < 10 ->
         row_input_length (Some [1%Z]) 2 row = Ok input_length ->
         (forall index, index < 3 ->
            (Z.of_nat index < input_length)%Z \/ 2 <= index ->
            [5; 9; 7]%Z !! (index * 1 + row) <> Some (Z.of_nat v)) ->
         out !! (row * 10 + v) = logits !! (row * 10 + v).
Proof.
  intros logits.
  apply (proj1 (repetition_penalty_frame Float Additive [5; 9; 7]%Z 1 1 10
                  (Some [1%Z]) 2 3 ltac:(discriminate) eq_refl));
    [reflexivity | simpl; lia | intros b _; split; reflexivity].
Defined.

(** C7 (as stated) fails.  On a row with the history [9] over a vocabulary
    of four, the kernel with one penalty stores what its shared memory held,
    here the value 7 at token 2, which is at no position of the history.  In
    the batched kernel, the token id -3 in the history of the second of two
    rows is the offset of token 1 of the first row, whose history is [0]:
    that logit changes. *)
Lemma repetition_penalty_frame_counterexample :
  (invokeApplyRepetitionPenalty Float [f32 1; f32 2; f32 3; f32 4] (f32 2)
     [9%Z] 1 1 4 4 None 0 1 Additive (fun _ => [f32 7]) (fun _ => [2%Z])
   = Ok [f32 1; f32 2; f32 7; f32 4]
   /\ history_ids [9%Z] 1 0 0 0 1 = [9%Z]
   /\ f32 7 <> f32 3)
  /\ (exists y0 y1,
        invokeBatchApplyRepetitionPenalty Float
          [f32 1; f32 2; f32 3; f32 4; f32 5; f32 6; f32 7; f32 8]
          [f32 1; f32 1] (fun _ => [f32 0]) (fun _ => [0%Z])
          [0; -3]%Z 2 2 4 None 0 1 Additive
        = Ok [y0; y1; f32 3; f32 4; f32 5; f32 6; f32 7; f32 8]
        /\ history_ids [0; -3]%Z 2 0 0 0 1 = [0%Z]
        /\ y1 <> f32 2).
Proof.
  split.
  - split; [vm_compute; reflexivity|].
    split; [reflexivity|vm_compute; discriminate].
  - eexists _, _. split; [vm_compute; reflexivity|].
    split; [reflexivity|vm_compute; discriminate].
Qed.

(** C3.  Additive penalty 1.0 on a row of 10 logits with the history
    [5; 5; 7] (no [input_lengths], so every position is considered): the
    batched kernel leaves [logit - 1.0f] at columns 5 and 7, computed once
    from the logit the row had before the kernel ran, and every other logit
    keeps its value. *)
Theorem repetition_additive_history_5_5_7 (T : dtype) (logits : Logits)
  (ws_logits : nat -> list spec_float) (ws_indices : nat -> list Z)
  (max_input_length : nat) :
  length logits = 10 ->
  length (ws_logits 0) = 3 -> length (ws_indices 0) = 3 ->
  exists out,
    invokeBatchApplyRepetitionPenalty T logits [f32 1] ws_logits ws_indices
      [5; 5; 7]%Z 1 1 10 None max_input_length 3 Additive = Ok out
    /\ length out = 10
    /\ forall v x, logits !! v = Some x ->
         out !! v =
           Some (if decide (v = 5 \/ v = 7)
                 then of_float T (Fp.sub Fp.binary32 (to_float T x) (f32 1))
                 else x).
Proof.
  intros Hlen Hwl Hwi.
  destruct (invokeBatchApplyRepetitionPenalty_spec T logits [f32 1] ws_logits
              ws_indices [5; 5; 7]%Z 1 1 10 None max_input_length 3 Additive)
    as (out & Hrun & Hlen' & Hout); [done|by rewrite Hlen|simpl; lia| | |].
  { intros b Hb. by replace b with 0 by lia. }
  { unfold histories_valid. simpl. rewrite andb_true_r.
    by apply history_valid_no_lengths. }
  exists out. split; [done|]. split; [congruence|].
  intros v x Hx. pose proof (lookup_lt_Some _ _ _ Hx) as Hv. rewrite Hlen in Hv.
  specialize (Hout 0 v x (f32 1) (Z.of_nat max_input_length) ltac:(lia) Hv Hx
                eq_refl eq_refl).
  simpl in Hout. rewrite Hout, history_ids_no_lengths. f_equal.
  assert (Hids : history_ids [5; 5; 7]%Z 1 0 0 0 3 = [5; 5; 7]%Z) by reflexivity.
  rewrite Hids. unfold penalized_logit, penalized.
  destruct (decide (Z.of_nat v ∈ [5; 5; 7]%Z)) as [Hin|Hin];
    destruct (decide (v = 5 \/ v = 7)) as [Hv'|Hv']; try done; exfalso.
  - apply Hv'. rewrite !elem_of_cons, elem_of_nil in Hin. lia.
  - apply Hin. rewrite !elem_of_cons. lia.
Qed.

(** The row [10; 11; ...; 19]. *)
Lemma repetition_additive_history_5_5_7_witness :
  let logits := [f32 10; f32 11; f32 12; f32 13; f32 14;
                 f32 15; f32 16; f32 17; f32 18; f32 19] in
  exists out,
    invokeBatchApplyRepetitionPenalty Float logits [f32 1]
      (fun _ => [S754_nan; S754_nan; S754_nan]) (fun _ => [0; 0; 0]%Z)
      [5; 5; 7]%Z 1 1 10 None 0 3 Additive = Ok out
    /\ length out = 10
    /\ forall v x, logits !! v = Some x ->
         out !! v =
           Some (if decide (v = 5 \/ v = 7)
                 then of_float Float (Fp.sub Fp.binary32 (to_float Float x) (f32 1))
                 else x).
Proof.
  intros logits.
  apply (repetition_additive_history_5_5_7 Float logits
           (fun _ => [S754_nan; S754_nan; S754_nan]) (fun _ => [0; 0; 0]%Z) 0);
    reflexivity.
Defined.



(** The kernel itself on that row. *)
Example repetition_multiplicative_values :
  invokeBatchApplyRepetitionPenalty Float [f32 (-2); f32 2] [f32 2]
    (fun _ => [S754_nan; S754_nan]) (fun _ => [0; 0]%Z)
    [0; 1]%Z 1 1 2 None 0 2 Multiplicative
  = Ok [f32 (-4); f32 1].
Proof. reflexivity. Qed.

(** C6 (as the code has it).  At a considered position that holds a token
    id at or beyond [vocab_size], the batched kernel fails (its assertion
    [penalty_index < vocab_size] does not hold), while the first loop of the
    single-penalty kernel skips the position: it raises no error and leaves
    the logits and the scratch arrays as they are. *)
Theorem repetition_out_of_vocab (T : dtype) (logits : Logits)
  (penalties : list spec_float)
  (ws_logits : nat -> list spec_float) (ws_indices : nat -> list Z)
  (output_ids : list Z)
  (batch_size local_batch_size vocab_size vocab_size_padd : nat)
  (input_lengths : option (list Z)) (max_input_length step : nat)
  (penalty_type : RepetitionPenaltyType) (penalty : spec_float)
  (row index : nat) (input_length id : Z) :
  penalty_type <> NoPenalty ->
  row < local_batch_size -> index < step ->
  row_input_length input_lengths max_input_length row = Ok input_length ->
  (Z.of_nat index < input_length)%Z \/ max_input_length <= index ->
  output_ids !! (index * batch_size + row) = Some id ->
  (Z.of_nat vocab_size <= id)%Z ->
  (exists e,
     invokeBatchApplyRepetitionPenalty T logits penalties ws_logits ws_indices
       output_ids batch_size local_batch_size vocab_size input_lengths
       max_input_length step penalty_type = Err e)
  /\ (forall st,
        applyRepetitionPenalty_read T penalty_type penalty output_ids batch_size
          vocab_size vocab_size_padd max_input_length row input_length index st
        = Ok st).
Proof.
  intros Hpt Hrow Hidx Hil Hc%is_padding_false Hid Hge. split.
  - by apply (invokeBatchApplyRepetitionPenalty_out_of_vocab _ _ _ _ _ _ _ _ _ _ _ _ _
                row index input_length id).
  - intros st. by apply (apply_read_out_of_vocab _ _ _ _ _ _ _ _ _ _ _ id).
Qed.

(** The history [5; 10; 7] over a vocabulary of 10 tokens. *)
Lemma repetition_out_of_vocab_witness :
  let logits := [f32 10; f32 11; f32 12; f32 13; f32 14;
                 f32 15; f32 16; f32 17; f32 18; f32 19] in
  (exists e,
     invokeBatchApplyRepetitionPenalty Float logits [f32 1]
       (fun _ => [S754_nan; S754_nan; S754_nan]) (fun _ => [0; 0; 0]%Z)
       [5; 10; 7]%Z 1 1 10 None 0 3 Additive = Err e)
  /\ (forall st,
        applyRepetitionPenalty_read Float Additive (f32 1) [5; 10; 7]%Z 1
          10 10 0 0 0 1 st
        = Ok st).
Proof.
  intros logits.
  apply (repetition_out_of_vocab Float logits [f32 1]
           (fun _ => [S754_nan; S754_nan; S754_nan]) (fun _ => [0; 0; 0]%Z)
           [5; 10; 7]%Z 1 1 10 10 None 0 3 Additive (f32 1) 0 1 0 10);
    [discriminate | lia | lia | reflexivity | right; lia | reflexivity | lia].
Defined.

(** C6 (as stated) fails: on the history [5; 10; 7] over a vocabulary of 10
    tokens the batched kernel stops on its assertion instead of skipping the
    entry 10. *)
Lemma repetition_out_of_vocab_counterexample :
  invokeBatchApplyRepetitionPenalty Float
    [f32 10; f32 11; f32 12; f32 13; f32 14; f32 15; f32 16; f32 17; f32 18; f32 19]
    [f32 1] (fun _ => [S754_nan; S754_nan; S754_nan]) (fun _ => [0; 0; 0]%Z)
    [5; 10; 7]%Z 1 1 10 None 0 3 Additive
  = Err AssertionFailed.
Proof. reflexivity. Qed.


(** ** Vectorized and scalar temperature kernels *)

(** C2 (as the code has it).  On the same input,
    - the vectorized [_v2] kernel, whatever bias it is given, and the scalar
      batched kernel run without a bias, with a thread of each block for
      every row ([batch_size <= blockDim]), return the same buffer, bit for
      bit, sentinels of the padding columns included ([fdividef] being the
      IEEE division, as it is without fast-math);
    - the [half2] specialization and the scalar kernel at [T = half] leave
      numerically equal values at every column [v < vocab_size], identical
      ones when a bias is given (without a bias the scalar kernel adds a
      zero, which turns a negative zero into a positive one). *)
Theorem temperature_vectorized_vs_scalar (logits : Logits)
  (bias : option (list spec_float))
  (batch_size vocab_size vocab_size_padded gridDim blockDim : nat) :
  0 < vocab_size_padded -> 0 < gridDim -> 0 < blockDim ->
  length logits = batch_size * vocab_size_padded ->
  (forall (T : dtype) (temperatures : list spec_float) (shared0 : spec_float)
          (smem0 : nat -> list spec_float),
     batch_size <= length temperatures ->
     batch_size <= blockDim ->
     (forall b, b < gridDim -> length (smem0 b) = batch_size) ->
     exists out,
       invokeBatchApplyTemperaturePenalty_v2 (Fp.div Fp.binary32) shared0 T
         logits bias temperatures batch_size vocab_size vocab_size_padded = Ok out
       /\ run_blocks gridDim
            (fun blockIdx =>
               batchApplyTemperaturePenalty T None temperatures batch_size
                 vocab_size vocab_size_padded gridDim blockDim (smem0 blockIdx)
                 blockIdx)
            logits = Ok out)
  /\ (forall (temperature_inverse : spec_float),
        vocab_size mod 2 = 0 -> vocab_size_padded mod 2 = 0 ->
        bias_fits bias vocab_size_padded ->
        exists out_half2 out_scalar,
          launch gridDim blockDim
            (applyTemperaturePenalty_half2 bias temperature_inverse batch_size
               vocab_size vocab_size_padded gridDim blockDim)
            logits = Ok out_half2
          /\ launch gridDim blockDim
               (applyTemperaturePenalty Half bias temperature_inverse batch_size
                  vocab_size vocab_size_padded gridDim blockDim)
               logits = Ok out_scalar
          /\ forall row v y2 y1,
               row < batch_size -> v < vocab_size -> v < vocab_size_padded ->
               out_half2 !! (row * vocab_size_padded + v) = Some y2 ->
               out_scalar !! (row * vocab_size_padded + v) = Some y1 ->
               Fp.num_eq y2 y1 /\ (bias <> None -> y2 = y1)).
Proof.
  intros Hvp Hg Hb Hlen. split.
  - intros T temperatures shared0 smem0 Ht Hbd Hs.
    destruct (invokeBatchApplyTemperaturePenalty_v2_spec (Fp.div Fp.binary32)
                shared0 T logits bias temperatures batch_size vocab_size
                vocab_size_padded Hvp Ht Hlen) as (out & Hrun & Hlen' & Hout).
    destruct (batchApplyTemperaturePenalty_launch T None temperatures batch_size
                vocab_size vocab_size_padded gridDim blockDim smem0 logits
                Hg Hvp Hbd Hb I Ht Hs Hlen) as (out' & Hrun' & Hlen'' & Hout').
    exists out. split; [done|]. rewrite Hrun'. f_equal.
    apply list_eq. intros j. by rewrite Hout, Hout'.
  - intros r Hvs2 Hvp2 Hbias.
    destruct (applyTemperaturePenalty_half2_launch bias r batch_size vocab_size
                vocab_size_padded gridDim blockDim logits Hg Hb Hvp Hvs2 Hvp2
                Hbias Hlen) as (out2 & Hrun2 & Hlen2 & Hout2).
    destruct (applyTemperaturePenalty_launch Half bias r batch_size vocab_size
                vocab_size_padded gridDim blockDim logits Hg Hb Hvp Hbias Hlen)
      as (out1 & Hrun1 & Hlen1 & Hout1).
    exists out2, out1. split; [done|]. split; [done|].
    intros row v y2 y1 Hrow Hv Hv' Hy2 Hy1.
    rewrite Hout2 in Hy2. rewrite Hout1 in Hy1.
    destruct (logits !! (row * vocab_size_padded + v)) as [x|]; [|done].
    rewrite fmap_Some_eq in Hy2, Hy1. injection Hy2 as <-. injection Hy1 as <-.
    unfold half2_temperature_scaled, temperature_scaled.
    destruct (div_mod_unique vocab_size_padded row v Hv') as [_ ->].
    destruct (v <? vocab_size) eqn:E; [|apply Nat.ltb_ge in E; lia].
    destruct bias as [b|].
    + split; [by left|done].
    + split; [|done]. apply add_zero_mul.
Qed.

(** Two rows of four [half] columns, the last two padding, with a bias. *)
Lemma temperature_vectorized_vs_scalar_witness :
  let logits := [f16 1; f16 2; f16 3; f16 4; f16 5; f16 6; f16 7; f16 8] in
  let bias := Some [f16 1; f16 1; f16 1; f16 1] in
  (forall (T : dtype) (temperatures : list spec_float) (shared0 : spec_float)
          (smem0 : nat -> list spec_float),
     2 <= length temperatures ->
     2 <= 4 ->
     (forall b, b < 2 -> length (smem0 b) = 2) ->
     exists out,
       invokeBatchApplyTemperaturePenalty_v2 (Fp.div Fp.binary32) shared0 T
         logits bias temperatures 2 2 4 = Ok out
       /\ run_blocks 2
            (fun blockIdx =>
               batchApplyTemperaturePenalty T None temperatures 2 2 4 2 4
                 (smem0 blockIdx) blockIdx)
            logits = Ok out)
  /\ (forall (temperature_inverse : spec_float),
        2 mod 2 = 0 -> 4 mod 2 = 0 ->
        bias_fits bias 4 ->
        exists out_half2 out_scalar,
          launch 2 4
            (applyTemperaturePenalty_half2 bias temperature_inverse 2 2 4 2 4)
            logits = Ok out_half2
          /\ launch 2 4
               (applyTemperaturePenalty Half bias temperature_inverse 2 2 4 2 4)
               logits = Ok out_scalar
          /\ forall row v y2 y1,
               row < 2 -> v < 2 -> v < 4 ->
               out_half2 !! (row * 4 + v) = Some y2 ->
               out_scalar !! (row * 4 + v) = Some y1 ->
               Fp.num_eq y2 y1 /\ (bias <> None -> y2 = y1)).
Proof.
  intros logits bias.
  apply (temperature_vectorized_vs_scalar logits bias 2 2 4 2 4);
    [lia | lia | lia | reflexivity].
Defined.

(** C2 (as stated) fails.  With a bias of 1 on two logits of value 1 and
    temperature 1, the scalar batched kernel returns twice what the [_v2]
    kernel returns, which ignores the bias; and on a row of four [half]
    logits of which two are padding, the [half2] specialization leaves the
    padding columns as they are where the scalar kernel writes the
    sentinel. *)
Lemma temperature_vectorized_counterexample :
  (exists a b,
     invokeBatchApplyTemperaturePenalty_v2 (Fp.div Fp.binary32) S754_nan Float
       [f32 1; f32 1] (Some [f32 1; f32 1]) [f32 1] 1 2 2 = Ok [a; a]
     /\ run_blocks 1
          (fun blockIdx =>
             batchApplyTemperaturePenalty Float (Some [f32 1; f32 1]) [f32 1]
               1 2 2 1 2 [S754_nan] blockIdx)
          [f32 1; f32 1] = Ok [b; b]
     /\ b = Fp.mul Fp.binary32 (f32 2) a /\ a <> b)
  /\ (exists y0 y1,
        launch 1 4 (applyTemperaturePenalty_half2 None f32_one 1 2 4 1 4)
          [f16 1; f16 2; f16 3; f16 4]
        = Ok [y0; y1; f16 3; f16 4]
        /\ launch 1 4 (applyTemperaturePenalty Half None f32_one 1 2 4 1 4)
             [f16 1; f16 2; f16 3; f16 4]
           = Ok [y0; y1; Fp.opp (getMaxValue Half); Fp.opp (getMaxValue Half)]
        /\ f16 3 <> Fp.opp (getMaxValue Half)).
Proof.
  split.
  - eexists _, _. split; [vm_compute; reflexivity|].
    split; [vm_compute; reflexivity|].
    split; [vm_compute; reflexivity|]. vm_compute. discriminate.
  - eexists _, _. split; [vm_compute; reflexivity|].
    split; [vm_compute; reflexivity|]. vm_compute. discriminate.
Qed.

(** ** Indexed copy *)

(** C8 (as the model of the copy has it).  [IndexedCopy] fails its check
    unless the two index lists have the same length or one of them is empty.
    When the check passes, an empty list standing for the identity indices,
    and the two lists name no slot in common, the destination indices are
    pairwise distinct and the buffers of different copies do not overlap,
    then after the copy the destination buffer of every copy holds at each
    [dst_idx[k]] what its source buffer held at [src_idx[k]] before, and at
    every slot named in neither list what it held itself. *)
Theorem indexed_copy_compaction (src_idx dst_idx : list nat) (cpys : list Cpy)
  (mem : Memory) :
  (~ (length src_idx = length dst_idx \/ src_idx = [] \/ dst_idx = []) ->
   IndexedCopy src_idx dst_idx cpys mem = Err CheckFailed)
  /\ (length src_idx = length dst_idx \/ src_idx = [] \/ dst_idx = [] ->
      (forall i, i ∈ effective_indices src_idx dst_idx ->
         i ∉ effective_indices dst_idx src_idx) ->
      NoDup (effective_indices dst_idx src_idx) ->
      cpys_separate cpys ->
      (forall c, c ∈ cpys ->
         cpy_ready mem (effective_indices src_idx dst_idx)
           (effective_indices dst_idx src_idx) c) ->
      exists mem',
        IndexedCopy src_idx dst_idx cpys mem = Ok mem'
        /\ forall c, c ∈ cpys ->
             cpy_done mem mem' (effective_indices src_idx dst_idx)
               (effective_indices dst_idx src_idx) c).
Proof.
  split.
  - intros Hcheck. unfold IndexedCopy.
    destruct ((length src_idx =? length dst_idx)
              || xorb (is_empty src_idx) (is_empty dst_idx)) eqn:E; [|done].
    by apply IndexedCopy_check_passes in E.
  - intros Hcheck Hdisjoint Hnodup Hsep Hready.
    destruct (IndexedCopy_spec src_idx dst_idx cpys mem Hcheck Hdisjoint Hnodup
                Hsep Hready) as (mem' & Hrun & Hdone & _).
    by exists mem'.
Qed.

(** A buffer of three slots of two bytes, slot 0 copied to slot 2 in
    place. *)
Lemma indexed_copy_compaction_witness :
  let mem : Memory :=
    {[ 7 := [Byte.x01; Byte.x02; Byte.x03; Byte.x04; Byte.x05; Byte.x06] ]} in
  let cpys := [mkCpy 7 7 1 2] in
  exists mem',
    IndexedCopy [0] [2] cpys mem = Ok mem'
    /\ forall c, c ∈ cpys ->
         cpy_done mem mem' (effective_indices [0] [2]) (effective_indices [2] [0]) c.
Proof.
  intros mem cpys.
  apply (proj2 (indexed_copy_compaction [0] [2] cpys mem)).
  - left. reflexivity.
  - change (effective_indices [0] [2]) with [0].
    change (effective_indices [2] [0]) with [2].
    intros i Hi Hi'. apply list_elem_of_singleton in Hi, Hi'. lia.
  - apply NoDup_singleton.
  - split; [apply NoDup_singleton|].
    intros [|i] [|j] c1 c2 H1 H2 Hne; simplify_eq/=.
  - intros c ->%list_elem_of_singleton. eexists _, _.
    split; [apply lookup_singleton_eq|]. split; [apply lookup_singleton_eq|].
    split; intros i ->%list_elem_of_singleton; vm_compute; lia.
Defined.

(** C8 (as stated) fails: the lists [0; 1] and [2; 2] have the same length
    and are disjoint, but slot 2 cannot hold what slot 0 held and what
    slot 1 held. *)
Lemma indexed_copy_counterexample :
  let mem : Memory := {[ 7 := [Byte.x01; Byte.x02; Byte.x03] ]} in
  let c := mkCpy 7 7 1 1 in
  length [0; 1] = length [2; 2]
  /\ (forall i, i ∈ [0; 1] -> i ∉ [2; 2])
  /\ exists mem',
       IndexedCopy [0; 1] [2; 2] [c] mem = Ok mem'
       /\ mem' !! 7 = Some [Byte.x01; Byte.x02; Byte.x02]
       /\ ~ cpy_done mem mem' [0; 1] [2; 2] c.
Proof.
  intros mem c. split; [reflexivity|]. split.
  { intros i Hi Hi'. rewrite !elem_of_cons, elem_of_nil in Hi, Hi'. lia. }
  eexists. split; [vm_compute; reflexivity|]. split; [vm_compute; reflexivity|].
  intros (sb & db & db' & Hs & Hd & Hd' & _ & Hcopied & _).
  vm_compute in Hs, Hd'. simplify_eq.
  specialize (Hcopied 0 0 2 eq_refl eq_refl). vm_compute in Hcopied. done.
Qed.

(* ================================================================== *)
(** * Further properties of the kernels *)
(* ================================================================== *)

(** Two buffers of [n] rows of width [w] that agree at every column of
    every row are equal. *)
Lemma rows_ext {A : Type} (w n : nat) (l1 l2 : list A) :
  length l1 = n * w -> length l2 = n * w ->
  (forall row v, row < n -> v < w -> l1 !! (row * w + v) = l2 !! (row * w + v)) ->
  l1 = l2.
Proof.
  intros H1 H2 H. apply list_eq. intros j.
  destruct (decide (j < n * w)) as [Hj|Hj].
  - assert (Hw : 0 < w) by nia.
    pose proof (Nat.div_mod_eq j w) as E.
    pose proof (Nat.mod_upper_bound j w ltac:(lia)) as Hm.
    assert (Hd : j / w < n) by (apply Nat.Div0.div_lt_upper_bound; lia).
    replace j with (j / w * w + j mod w) by lia. by apply H.
  - rewrite !lookup_ge_None_2; [done|lia|lia].
Qed.

(** ** The [half2] path of the single-temperature host function *)

(** For [T = half] and even [vocab_size], [vocab_size_padd] the host
    function takes the [half2] kernel: every column [v < vocab_size] of every
    row holds [(L[v] + B[v]) * half(1.f / (temperature + 1e-6f))] in [half]
    arithmetic (nothing is added when there is no bias), and every padding
    column keeps the value it had: this path writes no sentinel. *)
Theorem temperature_half2_path (logits : Logits)
  (bias : option (list spec_float)) (temperature : spec_float)
  (batch_size vocab_size vocab_size_padd : nat) :
  0 < batch_size -> 0 < vocab_size_padd ->
  vocab_size mod 2 = 0 -> vocab_size_padd mod 2 = 0 ->
  bias_fits bias vocab_size_padd ->
  length logits = batch_size * vocab_size_padd ->
  exists out,
    invokeApplyTemperaturePenalty Half logits bias temperature
      batch_size vocab_size vocab_size_padd = Ok out
    /\ length out = length logits
    /\ forall row v x,
         row < batch_size -> v < vocab_size_padd ->
         logits !! (row * vocab_size_padd + v) = Some x ->
         out !! (row * vocab_size_padd + v) =
           Some (if v <? vocab_size
                 then Fp.mul Fp.binary16
                        match bias with
                        | Some b => Fp.add Fp.binary16 x (default Fp.zero (b !! v))
                        | None => x
                        end
                        (Fp.round Fp.binary16
                           (Fp.div Fp.binary32 f32_one
                              (Fp.add Fp.binary32 temperature f32_eps)))
                 else x).
Proof.
  intros Hb Hvp Hvs2 Hvp2 Hbias Hlen.
  destruct (launch_config_pos batch_size vocab_size_padd Hb Hvp) as [Hblock Hgrid].
  unfold invokeApplyTemperaturePenalty.
  destruct (Nat.min vocab_size_padd 1024 =? 0) eqn:E;
    [apply Nat.eqb_eq in E; lia|].
  rewrite Hvs2, Hvp2. cbn [dtype_eqb Nat.eqb andb].
  destruct (applyTemperaturePenalty_half2_launch bias
              (Fp.div Fp.binary32 f32_one (Fp.add Fp.binary32 temperature f32_eps))
              batch_size vocab_size vocab_size_padd _ _ logits
              Hgrid Hblock Hvp Hvs2 Hvp2 Hbias Hlen)
    as (out & Hrun & Hlen' & Hout).
  exists out. split; [exact Hrun|]. split; [done|].
  intros row v x Hrow Hv Hx. rewrite Hout, Hx, fmap_Some_eq. f_equal.
  unfold half2_temperature_scaled.
  by destruct (div_mod_unique vocab_size_padd row v Hv) as [_ ->].
Qed.

(** A row of four [half] logits, two of them padding, with a bias. *)
Lemma temperature_half2_path_witness :
  let logits := [f16 1; f16 2; f16 3; f16 4] in
  let bias := Some [f16 1; f16 1; f16 1; f16 1] in
  exists out,
    invokeApplyTemperaturePenalty Half logits bias (f32 2) 1 2 4 = Ok out
    /\ length out = length logits
    /\ forall row v x,
         row < 1 -> v < 4 ->
         logits !! (row * 4 + v) = Some x ->
         out !! (row * 4 + v) =
           Some (if v <? 2
                 then Fp.mul Fp.binary16
                        match bias with
                        | Some b => Fp.add Fp.binary16 x (default Fp.zero (b !! v))
                        | None => x
                        end
                        (Fp.round Fp.binary16
                           (Fp.div Fp.binary32 f32_one
                              (Fp.add Fp.binary32 (f32 2) f32_eps)))
                 else x).
Proof.
  intros logits bias.
  apply (temperature_half2_path logits bias (f32 2) 1 2 4); try reflexivity; try lia.
  simpl. lia.
Defined.

(** ** Repetition penalty: every repeated token is penalized once *)

(** Additive penalty, both kernels, for histories of token ids of the
    vocabulary: the logit of every token id that appears at a considered
    position of the row's history becomes [logit - penalty], computed in
    [float] from the logit the row had before the kernel ran, however often
    the id appears; every other logit keeps its value. *)
Theorem repetition_additive_once (T : dtype)
  (output_ids : list Z) (batch_size local_batch_size vocab_size : nat)
  (input_lengths : option (list Z)) (max_input_length step : nat) :
  histories_valid output_ids batch_size local_batch_size vocab_size
    input_lengths max_input_length step = true ->
  (forall (logits penalties : list spec_float)
          (ws_logits : nat -> list spec_float) (ws_indices : nat -> list Z),
     length logits = local_batch_size * vocab_size ->
     local_batch_size <= length penalties ->
     (forall b, b < local_batch_size ->
        length (ws_logits b) = step /\ length (ws_indices b) = step) ->
     exists out,
       invokeBatchApplyRepetitionPenalty T logits penalties ws_logits ws_indices
         output_ids batch_size local_batch_size vocab_size input_lengths
         max_input_length step Additive = Ok out
       /\ length out = length logits
       /\ forall row v x penalty input_length,
            row < local_batch_size -> v < vocab_size ->
            logits !! (row * vocab_size + v) = Some x ->
            penalties !! row = Some penalty ->
            row_input_length input_lengths max_input_length row = Ok input_length ->
            out !! (row * vocab_size + v) =
              Some (if decide (Z.of_nat v ∈ history_ids output_ids batch_size row
                                              input_length max_input_length step)
                    then of_float T (Fp.sub Fp.binary32 (to_float T x) penalty)
                    else x))
  /\ (forall (logits : list spec_float) (penalty : spec_float)
             (vocab_size_padd : nat)
             (smem_logits : nat -> list spec_float) (smem_indices : nat -> list Z),
        vocab_size <= vocab_size_padd ->
        length logits = local_batch_size * vocab_size_padd ->
        (forall b, b < local_batch_size ->
           length (smem_logits b) = step /\ length (smem_indices b) = step) ->
        exists out,
          invokeApplyRepetitionPenalty T logits penalty output_ids batch_size
            local_batch_size vocab_size vocab_size_padd input_lengths
            max_input_length step Additive smem_logits smem_indices = Ok out
          /\ length out = length logits
          /\ forall row v x input_length,
               row < local_batch_size -> v < vocab_size_padd ->
               logits !! (row * vocab_size_padd + v) = Some x ->
               row_input_length input_lengths max_input_length row = Ok input_length ->
               out !! (row * vocab_size_padd + v) =
                 Some (if decide (Z.of_nat v ∈ history_ids output_ids batch_size row
                                                 input_length max_input_length step)
                       then of_float T (Fp.sub Fp.binary32 (to_float T x) penalty)
                       else x)).
Proof.
  intros Hvalid. split.
  - intros logits penalties ws_logits ws_indices Hlen Hpen Hws.
    by apply invokeBatchApplyRepetitionPenalty_spec.
  - intros logits penalty vocab_size_padd smem_logits smem_indices Hvs Hlen Hws.
    by apply invokeApplyRepetitionPenalty_spec.
Qed.

(** Two rows of a vocabulary of four; the first row repeats token 1. *)
Lemma repetition_additive_once_witness :
  let output_ids := [1; 3; 1; 0; 2; 3]%Z in
  let logits := [f32 1; f32 2; f32 3; f32 4; f32 5; f32 6; f32 7; f32 8] in
  exists out,
    invokeBatchApplyRepetitionPenalty Float logits [f32 1; f32 2]
      (fun _ => [S754_nan; S754_nan; S754_nan]) (fun _ => [0; 0; 0]%Z)
      output_ids 2 2 4 None 0 3 Additive = Ok out
    /\ length out = length logits
    /\ forall row v x penalty input_length,
         row < 2 -> v < 4 ->
         logits !! (row * 4 + v) = Some x ->
         [f32 1; f32 2] !! row = Some penalty ->
         row_input_length None 0 row = Ok input_length ->
         out !! (row * 4 + v) =
           Some (if decide (Z.of_nat v ∈ history_ids output_ids 2 row
                                           input_length 0 3)
                 then of_float Float (Fp.sub Fp.binary32 (to_float Float x) penalty)
                 else x).
Proof.
  intros output_ids logits.
  apply (proj1 (repetition_additive_once Float output_ids 2 2 4 None 0 3 eq_refl)).
  - reflexivity.
  - simpl. lia.
  - intros b _. split; reflexivity.
Defined.

(** The result of a repetition penalty depends on which token ids the
    considered positions of a row hold, not on how often or in which order
    they appear: two histories with the same ids in every row give the same
    logits. *)
Theorem repetition_penalty_history_set (T : dtype) (logits penalties : list spec_float)
  (ws_logits ws_logits' : nat -> list spec_float)
  (ws_indices ws_indices' : nat -> list Z)
  (output_ids output_ids' : list Z)
  (batch_size local_batch_size vocab_size : nat)
  (input_lengths : option (list Z)) (max_input_length step step' : nat)
  (penalty_type : RepetitionPenaltyType) :
  length logits = local_batch_size * vocab_size ->
  local_batch_size <= length penalties ->
  (forall b, b < local_batch_size ->
     length (ws_logits b) = step /\ length (ws_indices b) = step) ->
  (forall b, b < local_batch_size ->
     length (ws_logits' b) = step' /\ length (ws_indices' b) = step') ->
  histories_valid output_ids batch_size local_batch_size vocab_size
    input_lengths max_input_length step = true ->
  histories_valid output_ids' batch_size local_batch_size vocab_size
    input_lengths max_input_length step' = true ->
  (forall row input_length id,
     row < local_batch_size ->
     row_input_length input_lengths max_input_length row = Ok input_length ->
     id ∈ history_ids output_ids batch_size row input_length max_input_length step
     <-> id ∈ history_ids output_ids' batch_size row input_length
               max_input_length step') ->
  exists out,
    invokeBatchApplyRepetitionPenalty T logits penalties ws_logits ws_indices
      output_ids batch_size local_batch_size vocab_size input_lengths
      max_input_length step penalty_type = Ok out
    /\ invokeBatchApplyRepetitionPenalty T logits penalties ws_logits' ws_indices'
         output_ids' batch_size local_batch_size vocab_size input_lengths
         max_input_length step' penalty_type = Ok out.
Proof.
  intros Hlen Hpen Hws Hws' Hvalid Hvalid' Hsame.
  assert (Hcase : penalty_type = NoPenalty \/ penalty_type <> NoPenalty)
    by (destruct penalty_type; (by left) || (by right)).
  destruct Hcase as [->|Hpt]; [by exists logits|].
  destruct (invokeBatchApplyRepetitionPenalty_spec T logits penalties ws_logits
              ws_indices output_ids batch_size local_batch_size vocab_size
              input_lengths max_input_length step penalty_type Hpt Hlen Hpen Hws
              Hvalid) as (out & Hrun & Hlen1 & Hout).
  destruct (invokeBatchApplyRepetitionPenalty_spec T logits penalties ws_logits'
              ws_indices' output_ids' batch_size local_batch_size vocab_size
              input_lengths max_input_length step' penalty_type Hpt Hlen Hpen Hws'
              Hvalid') as (out' & Hrun' & Hlen2 & Hout').
  exists out. split; [done|]. rewrite Hrun'. f_equal.
  apply (rows_ext vocab_size local_batch_size); [congruence..|].
  intros row v Hrow Hv.
  destruct (lookup_lt_is_Some_2 logits (row * vocab_size + v) ltac:(nia)) as [x Hx].
  destruct (lookup_lt_is_Some_2 penalties row ltac:(lia)) as [p Hp].
  destruct (histories_valid_row _ _ _ _ _ _ _ row Hvalid Hrow) as (il & Hil & _).
  rewrite (Hout row v x p il), (Hout' row v x p il) by done. f_equal.
  destruct (decide (Z.of_nat v ∈ history_ids output_ids batch_size row il
                                  max_input_length step)) as [Hin|Hin];
    destruct (decide (Z.of_nat v ∈ history_ids output_ids' batch_size row il
                                    max_input_length step')) as [Hin'|Hin'];
    try done; exfalso.
  - by apply Hin', (Hsame row il).
  - by apply Hin, (Hsame row il).
Qed.

(** The histories [5; 5; 7] and [7; 5] of one row. *)
Lemma repetition_penalty_history_set_witness :
  let logits := [f32 10; f32 11; f32 12; f32 13; f32 14;
                 f32 15; f32 16; f32 17; f32 18; f32 19] in
  exists out,
    invokeBatchApplyRepetitionPenalty Float logits [f32 2]
      (fun _ => [S754_nan; S754_nan; S754_nan]) (fun _ => [0; 0; 0]%Z)
      [5; 5; 7]%Z 1 1 10 None 0 3 Multiplicative = Ok out
    /\ invokeBatchApplyRepetitionPenalty Float logits [f32 2]
         (fun _ => [S754_nan; S754_nan]) (fun _ => [0; 0]%Z)
         [7; 5]%Z 1 1 10 None 0 2 Multiplicative = Ok out.
Proof.
  intros logits.
  apply (repetition_penalty_history_set Float logits [f32 2]
           (fun _ => [S754_nan; S754_nan; S754_nan]) (fun _ => [S754_nan; S754_nan])
           (fun _ => [0; 0; 0]%Z) (fun _ => [0; 0]%Z)
           [5; 5; 7]%Z [7; 5]%Z 1 1 10 None 0 3 2 Multiplicative).
  - reflexivity.
  - simpl. lia.
  - intros b _. split; reflexivity.
  - intros b _. split; reflexivity.
  - reflexivity.
  - reflexivity.
  - intros row il id Hrow [= <-]. replace row with 0 by lia.
    change (history_ids [5; 5; 7]%Z 1 0 (Z.of_nat 0) 0 3) with [5; 5; 7]%Z.
    change (history_ids [7; 5]%Z 1 0 (Z.of_nat 0) 0 2) with [7; 5]%Z.
    rewrite !elem_of_cons, !elem_of_nil. tauto.
Defined.

(** On a vocabulary without padding columns, the kernel with one penalty
    for the batch computes what the batched kernel computes when every row
    has that penalty. *)
Theorem repetition_single_is_batched (T : dtype) (logits : Logits)
  (penalty : spec_float)
  (smem_logits ws_logits : nat -> list spec_float)
  (smem_indices ws_indices : nat -> list Z)
  (output_ids : list Z) (batch_size local_batch_size vocab_size : nat)
  (input_lengths : option (list Z)) (max_input_length step : nat)
  (penalty_type : RepetitionPenaltyType) :
  length logits = local_batch_size * vocab_size ->
  (forall b, b < local_batch_size ->
     length (smem_logits b) = step /\ length (smem_indices b) = step) ->
  (forall b, b < local_batch_size ->
     length (ws_logits b) = step /\ length (ws_indices b) = step) ->
  histories_valid output_ids batch_size local_batch_size vocab_size
    input_lengths max_input_length step = true ->
  exists out,
    invokeApplyRepetitionPenalty T logits penalty output_ids batch_size
      local_batch_size vocab_size vocab_size input_lengths max_input_length
      step penalty_type smem_logits smem_indices = Ok out
    /\ invokeBatchApplyRepetitionPenalty T logits
         (replicate local_batch_size penalty) ws_logits ws_indices output_ids
         batch_size local_batch_size vocab_size input_lengths max_input_length
         step penalty_type = Ok out.
Proof.
  intros Hlen Hsm Hws Hvalid.
  assert (Hcase : penalty_type = NoPenalty \/ penalty_type <> NoPenalty)
    by (destruct penalty_type; (by left) || (by right)).
  destruct Hcase as [->|Hpt]; [by exists logits|].
  destruct (invokeApplyRepetitionPenalty_spec T logits penalty output_ids
              batch_size local_batch_size vocab_size vocab_size input_lengths
              max_input_length step penalty_type smem_logits smem_indices
              Hpt (le_n _) Hlen Hsm Hvalid) as (out & Hrun & Hlen1 & Hout).
  destruct (invokeBatchApplyRepetitionPenalty_spec T logits
              (replicate local_batch_size penalty) ws_logits ws_indices
              output_ids batch_size local_batch_size vocab_size input_lengths
              max_input_length step penalty_type Hpt Hlen)
    as (out' & Hrun' & Hlen2 & Hout'); [by rewrite length_replicate|done|done|].
  exists out. split; [done|]. rewrite Hrun'. f_equal.
  apply (rows_ext vocab_size local_batch_size); [congruence..|].
  intros row v Hrow Hv.
  destruct (lookup_lt_is_Some_2 logits (row * vocab_size + v) ltac:(nia)) as [x Hx].
  destruct (histories_valid_row _ _ _ _ _ _ _ row Hvalid Hrow) as (il & Hil & _).
  rewrite (Hout row v x il), (Hout' row v x penalty il); try done.
  by apply lookup_replicate_2.
Qed.

(** Two rows with the histories [1; 1; 2] and [3; 0; 3]. *)
Lemma repetition_single_is_batched_witness :
  let logits := [f32 1; f32 2; f32 3; f32 4; f32 5; f32 6; f32 7; f32 8] in
  exists out,
    invokeApplyRepetitionPenalty Float logits (f32 2) [1; 3; 1; 0; 2; 3]%Z 2 2 4 4
      None 0 3 Multiplicative
      (fun _ => [S754_nan; S754_nan; S754_nan]) (fun _ => [0; 0; 0]%Z) = Ok out
    /\ invokeBatchApplyRepetitionPenalty Float logits (replicate 2 (f32 2))
         (fun _ => [f32 0; f32 0; f32 0]) (fun _ => [9; 9; 9]%Z)
         [1; 3; 1; 0; 2; 3]%Z 2 2 4 None 0 3 Multiplicative = Ok out.
Proof.
  intros logits.
  apply (repetition_single_is_batched Float logits (f32 2)
           (fun _ => [S754_nan; S754_nan; S754_nan]) (fun _ => [f32 0; f32 0; f32 0])
           (fun _ => [0; 0; 0]%Z) (fun _ => [9; 9; 9]%Z)
           [1; 3; 1; 0; 2; 3]%Z 2 2 4 None 0 3 Multiplicative).
  - reflexivity.
  - intros b _. split; reflexivity.
  - intros b _. split; reflexivity.
  - reflexivity.
Defined.

(** ** Minimum-length penalty: when nothing is masked *)

(** The minimum-length penalty returns the logits as they are when no end
    id is set (every end id [<= 0]), and also when every sequence has
    reached its minimum length ([sequence_length + 1 >= min_length], the
    sequence lengths being [int]s below [INT_MAX]); the end ids need not be
    columns of the vocabulary. *)
Theorem min_length_penalty_noop (T : dtype) (logits : Logits)
  (min_lengths sequence_lengths : list Z) (vocab_size_padded batch_size : nat)
  (end_ids : list Z) (end_ids_size : nat) :
  0 < batch_size -> 0 < end_ids_size ->
  batch_size * end_ids_size <= length end_ids ->
  batch_size <= length sequence_lengths ->
  batch_size <= length min_lengths ->
  Forall (fun end_id => (end_id <= 0)%Z) end_ids
  \/ (forall bid seq_len min_len,
        sequence_lengths !! bid = Some seq_len -> min_lengths !! bid = Some min_len ->
        below_int_max seq_len /\ (min_len <= seq_len + 1)%Z) ->
  invokeMinLengthPenalty T logits min_lengths sequence_lengths
    vocab_size_padded batch_size end_ids end_ids_size = Ok logits.
Proof.
  intros Hb HE Hend Hseq Hmin Hnone.
  unfold invokeMinLengthPenalty.
  assert (H1024 : 0 < 1024) by (apply Nat.ltb_lt; reflexivity).
  assert (Hn : 0 < batch_size * end_ids_size) by (apply Nat.mul_pos_pos; lia).
  set (block := Nat.min (batch_size * end_ids_size) 1024).
  destruct (block =? 0) eqn:E0; [apply Nat.eqb_eq in E0; unfold block in E0; lia|].
  unfold launch, run_blocks, run_threads.
  apply foldM_id. intros b _. apply foldM_id. intros t _.
  unfold batchApplyMinLengthPenalty.
  destruct (end_ids_size =? 0) eqn:E; [apply Nat.eqb_eq in E; lia|].
  set (tid := t + b * ((batch_size * end_ids_size + block - 1) / block)).
  destruct (tid / end_ids_size <? batch_size) eqn:Ebid; [|done].
  apply Nat.ltb_lt in Ebid.
  replace (tid / end_ids_size * end_ids_size + tid mod end_ids_size) with tid
    by (pose proof (Nat.div_mod_eq tid end_ids_size); lia).
  assert (Htid : tid < batch_size * end_ids_size).
  { pose proof (Nat.div_mod_eq tid end_ids_size).
    pose proof (Nat.mod_upper_bound tid end_ids_size ltac:(lia)). nia. }
  destruct (lookup_lt_is_Some_2 end_ids tid ltac:(lia)) as [end_id Hid].
  destruct (lookup_lt_is_Some_2 sequence_lengths (tid / end_ids_size) ltac:(lia))
    as [s Hs].
  destruct (lookup_lt_is_Some_2 min_lengths (tid / end_ids_size) ltac:(lia))
    as [m Hm].
  rewrite (load_lookup _ _ _ Hid). cbn [bind].
  destruct (0 <? end_id)%Z eqn:Epos; [|done]. apply Z.ltb_lt in Epos.
  destruct Hnone as [Hunset|Hlong].
  - rewrite Forall_forall in Hunset.
    pose proof (Hunset end_id (list_elem_of_lookup_2 _ _ _ Hid)). lia.
  - rewrite (load_lookup _ _ _ Hs), (load_lookup _ _ _ Hm). cbn [bind].
    destruct (Hlong _ _ _ Hs Hm) as [Hint Hle].
    rewrite int_add_1 by done.
    by destruct (Z.ltb_spec (s + 1) m); [lia|].
Qed.

(** Two rows that have reached their minimum lengths; the end id 7 is not
    a column of the vocabulary. *)
Lemma min_length_penalty_noop_witness :
  let logits := [f32 1; f32 2; f32 3; f32 4; f32 5; f32 6] in
  invokeMinLengthPenalty Float logits [5; 2]%Z [4; 7]%Z 3 2 [2; 1; 0; 7]%Z 2
  = Ok logits.
Proof.
  intros logits.
  apply (min_length_penalty_noop Float logits [5; 2]%Z [4; 7]%Z 3 2
           [2; 1; 0; 7]%Z 2); try (simpl; lia).
  right. intros [|[|bid]] s m [=] [=]; subst; unfold below_int_max; lia.
Defined.

(** ** The batched temperature penalty, host side *)

(** The scalar path of [invokeBatchApplyTemperaturePenalty] (every element
    type but [half] with even sizes), when a block has a thread for every
    row ([batch_size <= min(vocab_size_padd, 1024)]): every column
    [v < vocab_size] of row [row] holds the logit, plus the bias when there is
    one, times [1.0f / (temperatures[row] + 1e-6f)], the sum and the product
    being computed in [float] and each converted to the element type; every
    padding column holds [-getMaxValue<T>()]. *)
Theorem batch_temperature_scalar_path (T : dtype) (logits : Logits)
  (bias : option (list spec_float)) (temperatures : list spec_float)
  (batch_size vocab_size vocab_size_padd : nat)
  (smem0 : nat -> list spec_float) (h2_smem0 : nat -> list half2) :
  0 < batch_size -> batch_size <= Nat.min vocab_size_padd 1024 ->
  bias_fits bias vocab_size_padd ->
  batch_size <= length temperatures ->
  (forall b, length (smem0 b) = batch_size) ->
  length logits = batch_size * vocab_size_padd ->
  dtype_eqb T Half && (vocab_size mod 2 =? 0) && (vocab_size_padd mod 2 =? 0) = false ->
  exists out,
    invokeBatchApplyTemperaturePenalty T logits bias temperatures
      batch_size vocab_size vocab_size_padd smem0 h2_smem0 = Ok out
    /\ length out = length logits
    /\ forall row v x t,
         row < batch_size -> v < vocab_size_padd ->
         logits !! (row * vocab_size_padd + v) = Some x ->
         temperatures !! row = Some t ->
         out !! (row * vocab_size_padd + v) =
           Some (if v <? vocab_size
                 then
                   let biased :=
                     match bias with
                     | Some b =>
                         of_float T
                           (Fp.add Fp.binary32 (to_float T x)
                              (to_float T (default Fp.zero (b !! v))))
                     | None => x
                     end in
                   of_float T
                     (Fp.mul Fp.binary32 (to_float T biased)
                        (Fp.div Fp.binary32 f32_one (Fp.add Fp.binary32 t f32_eps)))
                 else Fp.opp (getMaxValue T)).
Proof.
  intros Hb Hblk Hbias Ht Hs Hlen Hpath.
  assert (Hvp : 0 < vocab_size_padd) by lia.
  destruct (launch_config_pos batch_size vocab_size_padd Hb Hvp) as [Hblock Hgrid].
  unfold invokeBatchApplyTemperaturePenalty. rewrite Hpath.
  destruct (Nat.min vocab_size_padd 1024 =? 0) eqn:E;
    [apply Nat.eqb_eq in E; lia|].
  destruct (batchApplyTemperaturePenalty_launch T bias temperatures batch_size
              vocab_size vocab_size_padd _ _ smem0 logits
              Hgrid Hvp Hblk Hblock Hbias Ht (fun b _ => Hs b) Hlen)
    as (out & Hrun & Hlen' & Hout).
  exists out. split; [exact Hrun|]. split; [done|].
  intros row v x t Hrow Hv Hx Htemp. rewrite Hout, Hx, fmap_Some_eq. f_equal.
  unfold batch_temperature_scaled, inv_temperature.
  destruct (div_mod_unique vocab_size_padd row v Hv) as [-> ->].
  by rewrite Htemp.
Qed.

(** Two rows of three [float] logits, one of the columns padding, with a
    bias and the temperatures 1 and 2. *)
Lemma batch_temperature_scalar_path_witness :
  let logits := [f32 1; f32 2; f32 3; f32 4; f32 5; f32 6] in
  let bias := Some [f32 1; f32 1; f32 1] in
  let temperatures := [f32 1; f32 2] in
  exists out,
    invokeBatchApplyTemperaturePenalty Float logits bias temperatures 2 2 3
      (fun _ => [S754_nan; S754_nan]) (fun _ => []) = Ok out
    /\ length out = length logits
    /\ forall row v x t,
         row < 2 -> v < 3 ->
         logits !! (row * 3 + v) = Some x ->
         temperatures !! row = Some t ->
         out !! (row * 3 + v) =
           Some (if v <? 2
                 then
                   let biased :=
                     match bias with
                     | Some b =>
                         of_float Float
                           (Fp.add Fp.binary32 (to_float Float x)
                              (to_float Float (default Fp.zero (b !! v))))
                     | None => x
                     end in
                   of_float Float
                     (Fp.mul Fp.binary32 (to_float Float biased)
                        (Fp.div Fp.binary32 f32_one (Fp.add Fp.binary32 t f32_eps)))
                 else Fp.opp (getMaxValue Float)).
Proof.
  intros logits bias temperatures.
  apply (batch_temperature_scalar_path Float logits bias temperatures 2 2 3);
    try reflexivity; try done.
  - lia.
  - simpl. lia.
  - simpl. lia.
Defined.

(** The temperatures the batched kernels read are those of the first
    [min(vocab_size_padd, 1024)] rows, one per thread of a block: two runs
    whose temperature arrays agree on these entries have the same outcome,
    whatever the arrays hold for the rows beyond. *)
Theorem batch_temperature_reads_block_rows (T : dtype) (logits : Logits)
  (bias : option (list spec_float)) (temperatures temperatures' : list spec_float)
  (batch_size vocab_size vocab_size_padd : nat)
  (smem0 : nat -> list spec_float) (h2_smem0 : nat -> list half2) :
  take (Nat.min vocab_size_padd 1024) temperatures
  = take (Nat.min vocab_size_padd 1024) temperatures' ->
  invokeBatchApplyTemperaturePenalty T logits bias temperatures
    batch_size vocab_size vocab_size_padd smem0 h2_smem0
  = invokeBatchApplyTemperaturePenalty T logits bias temperatures'
      batch_size vocab_size vocab_size_padd smem0 h2_smem0.
Proof.
  intros Htake. unfold invokeBatchApplyTemperaturePenalty.
  set (block := Nat.min vocab_size_padd 1024) in *.
  assert (Hload : forall t, t < block -> load temperatures t = load temperatures' t).
  { intros t Ht. unfold load.
    by rewrite <- (lookup_take_lt temperatures block t),
               <- (lookup_take_lt temperatures' block t), Htake by done. }
  destruct (block =? 0); [done|].
  destruct (dtype_eqb T Half && (vocab_size mod 2 =? 0)
            && (vocab_size_padd mod 2 =? 0)).
  - unfold run_blocks. apply foldM_ext. intros b l _.
    unfold batchApplyTemperaturePenalty_h2.
    replace (run_threads block
               (batchApplyTemperaturePenalty_h2_init temperatures batch_size
                  vocab_size vocab_size_padd) (h2_smem0 b))
      with (run_threads block
              (batchApplyTemperaturePenalty_h2_init temperatures' batch_size
                 vocab_size vocab_size_padd) (h2_smem0 b)); [done|].
    unfold run_threads. apply foldM_ext. intros t s Hin%elem_of_seq.
    unfold batchApplyTemperaturePenalty_h2_init. by rewrite Hload by lia.
  - unfold run_blocks. apply foldM_ext. intros b l _.
    unfold batchApplyTemperaturePenalty.
    replace (run_threads block
               (batchApplyTemperaturePenalty_init temperatures batch_size)
               (smem0 b))
      with (run_threads block
              (batchApplyTemperaturePenalty_init temperatures' batch_size)
              (smem0 b)); [done|].
    unfold run_threads. apply foldM_ext. intros t s Hin%elem_of_seq.
    unfold batchApplyTemperaturePenalty_init. by rewrite Hload by lia.
Qed.

(** Two rows of one column: a block has one thread, and the temperature of
    the second row is not read. *)
Lemma batch_temperature_reads_block_rows_witness :
  invokeBatchApplyTemperaturePenalty Float [f32 1; f32 2] None [f32 1; f32 2]
    2 1 1 (fun _ => [f32 0; f32 3]) (fun _ => [])
  = invokeBatchApplyTemperaturePenalty Float [f32 1; f32 2] None [f32 1; f32 7]
      2 1 1 (fun _ => [f32 0; f32 3]) (fun _ => []).
Proof.
  apply (batch_temperature_reads_block_rows Float [f32 1; f32 2] None
           [f32 1; f32 2] [f32 1; f32 7] 2 1 1).
  reflexivity.
Defined.

(** For [float] logits with a bias, the batched host function run with the
    same temperature for every row computes exactly what the
    single-temperature host function computes. *)
Theorem batch_temperature_is_single (logits bias : list spec_float)
  (temperature : spec_float) (batch_size vocab_size vocab_size_padd : nat)
  (smem0 : nat -> list spec_float) (h2_smem0 : nat -> list half2) :
  0 < batch_size -> batch_size <= Nat.min vocab_size_padd 1024 ->
  vocab_size_padd <= length bias ->
  (forall b, length (smem0 b) = batch_size) ->
  length logits = batch_size * vocab_size_padd ->
  exists out,
    invokeBatchApplyTemperaturePenalty Float logits (Some bias)
      (replicate batch_size temperature) batch_size vocab_size vocab_size_padd
      smem0 h2_smem0 = Ok out
    /\ invokeApplyTemperaturePenalty Float logits (Some bias) temperature
         batch_size vocab_size vocab_size_padd = Ok out.
Proof.
  intros Hb Hblk Hbias Hs Hlen.
  assert (Hvp : 0 < vocab_size_padd) by lia.
  destruct (launch_config_pos batch_size vocab_size_padd Hb Hvp) as [Hblock Hgrid].
  destruct (invokeApplyTemperaturePenalty_scalar Float logits (Some bias)
              temperature batch_size vocab_size vocab_size_padd Hb Hvp Hbias Hlen
              eq_refl) as (out1 & Hrun1 & Hlen1 & Hout1).
  unfold invokeBatchApplyTemperaturePenalty. cbn [dtype_eqb andb].
  destruct (Nat.min vocab_size_padd 1024 =? 0) eqn:E;
    [apply Nat.eqb_eq in E; lia|].
  destruct (batchApplyTemperaturePenalty_launch Float (Some bias)
              (replicate batch_size temperature) batch_size
              vocab_size vocab_size_padd _ _ smem0 logits
              Hgrid Hvp Hblk Hblock Hbias)
    as (out & Hrun & Hlen' & Hout);
    [by rewrite length_replicate|by intros|done|].
  exists out. split; [exact Hrun|]. rewrite Hrun1. f_equal.
  apply list_eq. intros j. rewrite Hout, Hout1.
  destruct (logits !! j) as [x|] eqn:Hx; [|done].
  rewrite !fmap_Some_eq. f_equal.
  apply lookup_lt_Some in Hx. rewrite Hlen in Hx.
  assert (Hrow : j / vocab_size_padd < batch_size)
    by (apply Nat.Div0.div_lt_upper_bound; lia).
  unfold temperature_scaled, batch_temperature_scaled, inv_temperature, bias_at.
  rewrite (lookup_replicate_2 _ _ _ Hrow). reflexivity.
Qed.

(** Two rows of three [float] logits, one of the columns padding. *)
Lemma batch_temperature_is_single_witness :
  let logits := [f32 1; f32 2; f32 3; f32 4; f32 5; f32 6] in
  exists out,
    invokeBatchApplyTemperaturePenalty Float logits (Some [f32 1; f32 2; f32 3])
      (replicate 2 (f32 2)) 2 2 3 (fun _ => [S754_nan; S754_nan]) (fun _ => [])
    = Ok out
    /\ invokeApplyTemperaturePenalty Float logits (Some [f32 1; f32 2; f32 3])
         (f32 2) 2 2 3 = Ok out.
Proof.
  intros logits.
  apply (batch_temperature_is_single logits [f32 1; f32 2; f32 3] (f32 2) 2 2 3);
    try reflexivity; try done; simpl; lia.
Defined.

(** ** The [half2] path of the batched temperature penalty *)

Lemma div_double (h i : nat) :
  0 < h -> (2 * i) / (2 * h) = i / h /\ (2 * i + 1) / (2 * h) = i / h.
Proof.
  intros Hh.
  pose proof (Nat.div_mod_eq i h) as Hi.
  pose proof (Nat.mod_upper_bound i h ltac:(lia)) as Hr.
  destruct (div_mod_unique (2 * h) (i / h) (2 * (i mod h)) ltac:(lia)) as [H0 _].
  destruct (div_mod_unique (2 * h) (i / h) (2 * (i mod h) + 1) ltac:(lia)) as [H1 _].
  split.
  - rewrite <- H0. f_equal. nia.
  - rewrite <- H1. f_equal. nia.
Qed.

(** The first phase fills the shared array with the rounded reciprocals. *)
Lemma batchApplyTemperaturePenalty_h2_init_spec (temperatures : list spec_float)
  (smem0 : list half2) (batch_size vocab_size vocab_size_padded blockDim : nat) :
  vocab_size mod 2 = 0 -> vocab_size_padded mod 2 = 0 ->
  batch_size <= blockDim -> batch_size <= length temperatures ->
  length smem0 = batch_size ->
  run_threads blockDim
    (batchApplyTemperaturePenalty_h2_init temperatures batch_size vocab_size
       vocab_size_padded) smem0
  = Ok (h2_inv_temperature <$> take batch_size temperatures).
Proof.
  intros Hvs2 Hvp2 Hb Ht Hs.
  destruct (foldM_scatter
              (batchApplyTemperaturePenalty_h2_init temperatures batch_size
                 vocab_size vocab_size_padded)
              (fun l => l) (fun _ => True)
              (fun t => if t <? batch_size then Some t else None)
              (fun k => h2_inv_temperature (default Fp.zero (temperatures !! k)))
              batch_size (seq 0 blockDim) smem0)
    as (inv & Hrun & _ & Hlen & Hinv); [|done|done|].
  { intros t _ l _ Hl. unfold batchApplyTemperaturePenalty_h2_init.
    rewrite Hvs2, Hvp2. cbn [Nat.eqb assert bind].
    destruct (t <? batch_size) eqn:Et.
    - apply Nat.ltb_lt in Et.
      destruct (lookup_lt_is_Some_2 temperatures t ltac:(lia)) as [x Hx].
      rewrite (load_lookup _ _ _ Hx). cbn [bind]. rewrite store_lt by lia.
      eexists. split_and!; [done|done|by rewrite length_insert|].
      intros j. rewrite list_lookup_insert.
      destruct (decide (t = j)) as [<-|Hne].
      + rewrite !decide_True; [|done|split; [done|lia]].
        unfold h2_inv_temperature, inv_temperature. by rewrite Hx.
      + rewrite !decide_False; [done|congruence|tauto].
    - exists l. split_and!; [done..|]. intros j. by destruct (decide (None = Some j)). }
  unfold run_threads. rewrite Hrun. f_equal.
  apply list_eq. intros k. rewrite Hinv, list_lookup_fmap.
  destruct (decide (k < batch_size)) as [Hk|Hk].
  - rewrite decide_True.
    + rewrite lookup_take_lt by done.
      by destruct (lookup_lt_is_Some_2 temperatures k ltac:(lia)) as [x ->].
    + apply Exists_exists. exists k. split; [apply elem_of_seq; lia|].
      destruct (k <? batch_size) eqn:E; [done|apply Nat.ltb_ge in E; lia].
  - rewrite decide_False.
    + rewrite lookup_take_ge by lia. simpl. apply lookup_ge_None_2. lia.
    + intros (t & _ & Ht')%Exists_exists.
      destruct (t <? batch_size) eqn:E; [|done].
      apply Nat.ltb_lt in E. simplify_eq. lia.
Qed.

Lemma batchApplyTemperaturePenalty_h2_body_ok (bias : option (list spec_float))
  (temperatures : list spec_float)
  (batch_size vocab_size vocab_size_padded idx : nat) :
  0 < vocab_size_padded ->
  vocab_size mod 2 = 0 -> vocab_size_padded mod 2 = 0 ->
  bias_fits bias vocab_size_padded ->
  batch_size <= length temperatures ->
  idx < batch_size * (vocab_size_padded / 2) ->
  body_ok
    (batchApplyTemperaturePenalty_h2_body bias vocab_size vocab_size_padded
       (h2_inv_temperature <$> take batch_size temperatures))
    (fun j => j / 2)
    (batch_h2_temperature_scaled bias temperatures vocab_size vocab_size_padded)
    (batch_size * vocab_size_padded) idx.
Proof.
  intros Hvp Hvs2 Hvp2 Hbias Ht Hidx l Hlen.
  pose proof (even_half _ Hvs2) as Evs. pose proof (even_half _ Hvp2) as Evp.
  set (h := vocab_size_padded / 2) in *. set (hs := vocab_size / 2) in *.
  assert (Hh : 0 < h) by lia.
  destruct (mod_double h idx Hh) as [Hm0 Hm1].
  destruct (div_double h idx Hh) as [Hd0 Hd1].
  assert (Hm0' : (2 * idx) mod vocab_size_padded = 2 * (idx mod h))
    by (rewrite Evp at 1; exact Hm0).
  assert (Hm1' : (2 * idx + 1) mod vocab_size_padded = 2 * (idx mod h) + 1)
    by (rewrite Evp at 1; exact Hm1).
  assert (Hd0' : (2 * idx) / vocab_size_padded = idx / h)
    by (rewrite Evp at 1; exact Hd0).
  assert (Hd1' : (2 * idx + 1) / vocab_size_padded = idx / h)
    by (rewrite Evp at 1; exact Hd1).
  pose proof (Nat.mod_upper_bound idx h ltac:(lia)) as Hmod.
  assert (Hrow : idx / h < batch_size)
    by (apply Nat.Div0.div_lt_upper_bound; lia).
  destruct (lookup_lt_is_Some_2 temperatures (idx / h) ltac:(lia)) as [t Htemp].
  assert (Hinv : load (h2_inv_temperature <$> take batch_size temperatures) (idx / h)
                 = Ok (h2_inv_temperature t)).
  { apply load_lookup. by rewrite list_lookup_fmap, lookup_take_lt, Htemp. }
  assert (Hl : 2 * idx + 1 < length l) by (rewrite Hlen; nia).
  destruct (lookup_lt_is_Some_2 l (2 * idx) ltac:(lia)) as [x0 Hx0].
  destruct (lookup_lt_is_Some_2 l (2 * idx + 1) ltac:(lia)) as [x1 Hx1].
  assert (Howner : forall j, j / 2 = idx <-> j = 2 * idx \/ j = 2 * idx + 1).
  { intros j. pose proof (Nat.div_mod_eq j 2).
    pose proof (Nat.mod_upper_bound j 2 ltac:(lia)). split; [lia|].
    intros [->| ->].
    - rewrite Nat.mul_comm. by apply Nat.div_mul.
    - destruct (div_mod_unique 2 idx 1 ltac:(lia)) as [Hq _].
      by replace (2 * idx + 1) with (idx * 2 + 1) by lia. }
  assert (Hc0 : ((2 * idx) mod vocab_size_padded <? vocab_size) = (idx mod h <? hs)).
  { rewrite Hm0', Evs.
    destruct (idx mod h <? hs) eqn:E.
    - apply Nat.ltb_lt in E. apply Nat.ltb_lt. lia.
    - apply Nat.ltb_ge in E. apply Nat.ltb_ge. lia. }
  assert (Hc1 : ((2 * idx + 1) mod vocab_size_padded <? vocab_size) = (idx mod h <? hs)).
  { rewrite Hm1', Evs.
    destruct (idx mod h <? hs) eqn:E.
    - apply Nat.ltb_lt in E. apply Nat.ltb_lt. lia.
    - apply Nat.ltb_ge in E. apply Nat.ltb_ge. lia. }
  unfold batchApplyTemperaturePenalty_h2_body. cbv zeta. fold h hs.
  destruct (idx mod h <? hs) eqn:Ecol.
  - rewrite (load2_Ok _ _ _ _ Hx0 Hx1). cbn [bind].
    set (b0 := match bias with
               | Some b => Fp.add Fp.binary16 x0 (default Fp.zero (b !! (2 * (idx mod h))))
               | None => x0 end).
    set (b1 := match bias with
               | Some b => Fp.add Fp.binary16 x1
                             (default Fp.zero (b !! (2 * (idx mod h) + 1)))
               | None => x1 end).
    assert (Hb : match bias with
                 | Some b => bv <- load2 b (idx mod h) ;; Ok (__hadd2 (x0, x1) bv)
                 | None => Ok (x0, x1)
                 end = Ok (b0, b1)).
    { unfold b0, b1. destruct bias as [b|]; [|done]. simpl in Hbias.
      destruct (lookup_lt_is_Some_2 b (2 * (idx mod h)) ltac:(lia)) as [y0 Hy0].
      destruct (lookup_lt_is_Some_2 b (2 * (idx mod h) + 1) ltac:(lia)) as [y1 Hy1].
      by rewrite (load2_Ok _ _ _ _ Hy0 Hy1), Hy0, Hy1. }
    rewrite Hb. cbn [bind]. rewrite Hinv. cbn [bind]. rewrite store2_Ok by done.
    eexists. split; [done|]. split; [by rewrite !length_insert|].
    intros j. cbn [fst snd __hmul2 __float2half2_rn h2_inv_temperature].
    destruct (decide (j / 2 = idx)) as [Ho|Ho].
    + apply Howner in Ho as [-> | ->].
      * rewrite list_lookup_insert_ne by lia.
        rewrite list_lookup_insert_eq by lia. rewrite Hx0, fmap_Some_eq. f_equal.
        unfold batch_h2_temperature_scaled. rewrite Hc0, Hd0', Htemp.
        unfold b0. by rewrite Hm0'.
      * rewrite list_lookup_insert_eq by (rewrite length_insert; lia).
        rewrite Hx1, fmap_Some_eq. f_equal.
        unfold batch_h2_temperature_scaled. rewrite Hc1, Hd1', Htemp.
        unfold b1. by rewrite Hm1'.
    + rewrite Howner in Ho. by rewrite !list_lookup_insert_ne by lia.
  - cbn [bind]. exists l. split; [done|]. split; [done|].
    intros j. destruct (decide (j / 2 = idx)) as [Ho|Ho]; [|done].
    apply Howner in Ho as [-> | ->].
    + rewrite Hx0, fmap_Some_eq. unfold batch_h2_temperature_scaled.
      by rewrite Hc0.
    + rewrite Hx1, fmap_Some_eq. unfold batch_h2_temperature_scaled.
      by rewrite Hc1.
Qed.

(** What [batchApplyTemperaturePenalty_h2] leaves in the buffer, for a
    launch whose blocks have a thread for every row. *)
Lemma batchApplyTemperaturePenalty_h2_launch (bias : option (list spec_float))
  (temperatures : list spec_float)
  (batch_size vocab_size vocab_size_padded gridDim blockDim : nat)
  (smem0 : nat -> list half2) (logits : Logits) :
  0 < gridDim -> 0 < blockDim -> 0 < vocab_size_padded ->
  batch_size <= blockDim ->
  vocab_size mod 2 = 0 -> vocab_size_padded mod 2 = 0 ->
  bias_fits bias vocab_size_padded ->
  batch_size <= length temperatures ->
  (forall b, b < gridDim -> length (smem0 b) = batch_size) ->
  length logits = batch_size * vocab_size_padded ->
  exists out,
    run_blocks gridDim
      (fun blockIdx =>
         batchApplyTemperaturePenalty_h2 bias temperatures batch_size vocab_size
           vocab_size_padded gridDim blockDim (smem0 blockIdx) blockIdx)
      logits = Ok out
    /\ length out = length logits
    /\ forall j, out !! j =
         batch_h2_temperature_scaled bias temperatures vocab_size
           vocab_size_padded j <$> logits !! j.
Proof.
  intros Hg Hbd Hvp Hb Hvs2 Hvp2 Hbias Ht Hs Hlen.
  set (N := batch_size * (vocab_size_padded / 2)).
  set (body := batchApplyTemperaturePenalty_h2_body bias vocab_size
                 vocab_size_padded
                 (h2_inv_temperature <$> take batch_size temperatures)).
  assert (Hflat :
    run_blocks gridDim
      (fun blockIdx =>
         batchApplyTemperaturePenalty_h2 bias temperatures batch_size vocab_size
           vocab_size_padded gridDim blockDim (smem0 blockIdx) blockIdx) logits
    = launch gridDim blockDim
        (fun blockIdx threadIdx =>
           strided_for N (blockIdx * blockDim + threadIdx) N (blockDim * gridDim) body)
        logits).
  { unfold launch, run_blocks. apply foldM_ext. intros b l Hin%elem_of_seq.
    unfold batchApplyTemperaturePenalty_h2.
    rewrite batchApplyTemperaturePenalty_h2_init_spec; [done..|].
    apply Hs. lia. }
  rewrite Hflat.
  rewrite (launch_flat _ _ _
    (fun tid => strided_for N (tid * 1) N (gridDim * blockDim * 1) body)).
  2:{ intros bx t s _ _.
      by rewrite !Nat.mul_1_r, (Nat.mul_comm blockDim gridDim). }
  destruct (grid_pointwise body (fun j => j / 2)
              (batch_h2_temperature_scaled bias temperatures vocab_size
                 vocab_size_padded)
              1 (gridDim * blockDim) N logits)
    as (out & Hrun & Hlen' & Hout); [lia|by apply Nat.mul_pos_pos| |].
  { intros idx Hidx _. rewrite Hlen.
    by apply batchApplyTemperaturePenalty_h2_body_ok. }
  exists out. split; [exact Hrun|split; [exact Hlen'|]].
  intros j. rewrite Hout.
  destruct (decide (j / 2 < N /\ (j / 2) mod 1 = 0)) as [|Hn]; [done|].
  assert (Hj : logits !! j = None).
  { apply lookup_ge_None_2. rewrite Hlen.
    destruct (decide (j < batch_size * vocab_size_padded)) as [Hlt|]; [|lia].
    exfalso; apply Hn; split; [|apply Nat.mod_1_r].
    unfold N. pose proof (even_half _ Hvp2).
    apply Nat.Div0.div_lt_upper_bound. lia. }
  by rewrite Hj.
Qed.

(** For [T = half] and even [vocab_size], [vocab_size_padd] the batched host
    function takes the [half2] kernel.  When a block has a thread for every
    row, every column [v < vocab_size] of row [row] holds
    [(L[v] + B[v]) * half(1.f / (temperatures[row] + 1e-6f))] in [half]
    arithmetic (nothing is added when there is no bias), and every padding
    column keeps the value it had. *)
Theorem batch_temperature_half2_path (logits : Logits)
  (bias : option (list spec_float)) (temperatures : list spec_float)
  (batch_size vocab_size vocab_size_padd : nat)
  (smem0 : nat -> list spec_float) (h2_smem0 : nat -> list half2) :
  0 < batch_size -> batch_size <= Nat.min vocab_size_padd 1024 ->
  vocab_size mod 2 = 0 -> vocab_size_padd mod 2 = 0 ->
  bias_fits bias vocab_size_padd ->
  batch_size <= length temperatures ->
  (forall b, length (h2_smem0 b) = batch_size) ->
  length logits = batch_size * vocab_size_padd ->
  exists out,
    invokeBatchApplyTemperaturePenalty Half logits bias temperatures
      batch_size vocab_size vocab_size_padd smem0 h2_smem0 = Ok out
    /\ length out = length logits
    /\ forall row v x t,
         row < batch_size -> v < vocab_size_padd ->
         logits !! (row * vocab_size_padd + v) = Some x ->
         temperatures !! row = Some t ->
         out !! (row * vocab_size_padd + v) =
           Some (if v <? vocab_size
                 then Fp.mul Fp.binary16
                        match bias with
                        | Some b => Fp.add Fp.binary16 x (default Fp.zero (b !! v))
                        | None => x
                        end
                        (Fp.round Fp.binary16
                           (Fp.div Fp.binary32 f32_one
                              (Fp.add Fp.binary32 t f32_eps)))
                 else x).
Proof.
  intros Hb Hblk Hvs2 Hvp2 Hbias Ht Hs Hlen.
  assert (Hvp : 0 < vocab_size_padd) by lia.
  destruct (launch_config_pos batch_size vocab_size_padd Hb Hvp) as [Hblock Hgrid].
  unfold invokeBatchApplyTemperaturePenalty.
  destruct (Nat.min vocab_size_padd 1024 =? 0) eqn:E;
    [apply Nat.eqb_eq in E; lia|].
  rewrite Hvs2, Hvp2. cbn [dtype_eqb Nat.eqb andb].
  destruct (batchApplyTemperaturePenalty_h2_launch bias temperatures batch_size
              vocab_size vocab_size_padd _ _ h2_smem0 logits
              Hgrid Hblock Hvp Hblk Hvs2 Hvp2 Hbias Ht (fun b _ => Hs b) Hlen)
    as (out & Hrun & Hlen' & Hout).
  exists out. split; [exact Hrun|]. split; [done|].
  intros row v x t Hrow Hv Hx Htemp. rewrite Hout, Hx, fmap_Some_eq. f_equal.
  unfold batch_h2_temperature_scaled, inv_temperature.
  destruct (div_mod_unique vocab_size_padd row v Hv) as [-> ->].
  by rewrite Htemp.
Qed.

(** Two rows of four [half] logits, two of the columns padding, with the
    temperatures 1 and 2. *)
Lemma batch_temperature_half2_path_witness :
  let logits := [f16 1; f16 2; f16 3; f16 4; f16 5; f16 6; f16 7; f16 8] in
  let bias := Some [f16 1; f16 1; f16 1; f16 1] in
  let temperatures := [f32 1; f32 2] in
  exists out,
    invokeBatchApplyTemperaturePenalty Half logits bias temperatures 2 2 4
      (fun _ => []) (fun _ => [(S754_nan, S754_nan); (S754_nan, S754_nan)]) = Ok out
    /\ length out = length logits
    /\ forall row v x t,
         row < 2 -> v < 4 ->
         logits !! (row * 4 + v) = Some x ->
         temperatures !! row = Some t ->
         out !! (row * 4 + v) =
           Some (if v <? 2
                 then Fp.mul Fp.binary16
                        match bias with
                        | Some b => Fp.add Fp.binary16 x (default Fp.zero (b !! v))
                        | None => x
                        end
                        (Fp.round Fp.binary16
                           (Fp.div Fp.binary32 f32_one
                              (Fp.add Fp.binary32 t f32_eps)))
                 else x).
Proof.
  intros logits bias temperatures.
  apply (batch_temperature_half2_path logits bias temperatures 2 2 4);
    try reflexivity; try done; simpl; lia.
Defined.

(** With the same temperature for every row, the [half2] path of the
    batched host function computes exactly what the [half2] path of the
    single-temperature host function computes. *)
Theorem batch_temperature_half2_is_single (logits : Logits)
  (bias : option (list spec_float)) (temperature : spec_float)
  (batch_size vocab_size vocab_size_padd : nat)
  (smem0 : nat -> list spec_float) (h2_smem0 : nat -> list half2) :
  0 < batch_size -> batch_size <= Nat.min vocab_size_padd 1024 ->
  vocab_size mod 2 = 0 -> vocab_size_padd mod 2 = 0 ->
  bias_fits bias vocab_size_padd ->
  (forall b, length (h2_smem0 b) = batch_size) ->
  length logits = batch_size * vocab_size_padd ->
  exists out,
    invokeBatchApplyTemperaturePenalty Half logits bias
      (replicate batch_size temperature) batch_size vocab_size vocab_size_padd
      smem0 h2_smem0 = Ok out
    /\ invokeApplyTemperaturePenalty Half logits bias temperature
         batch_size vocab_size vocab_size_padd = Ok out.
Proof.
  intros Hb Hblk Hvs2 Hvp2 Hbias Hs Hlen.
  assert (Hvp : 0 < vocab_size_padd) by lia.
  destruct (launch_config_pos batch_size vocab_size_padd Hb Hvp) as [Hblock Hgrid].
  unfold invokeBatchApplyTemperaturePenalty, invokeApplyTemperaturePenalty.
  destruct (Nat.min vocab_size_padd 1024 =? 0) eqn:E;
    [apply Nat.eqb_eq in E; lia|].
  rewrite Hvs2, Hvp2. cbn [dtype_eqb Nat.eqb andb].
  destruct (batchApplyTemperaturePenalty_h2_launch bias
              (replicate batch_size temperature) batch_size
              vocab_size vocab_size_padd _ _ h2_smem0 logits
              Hgrid Hblock Hvp Hblk Hvs2 Hvp2 Hbias)
    as (out & Hrun & Hlen' & Hout);
    [by rewrite length_replicate|by intros|done|].
  destruct (applyTemperaturePenalty_half2_launch bias
              (Fp.div Fp.binary32 f32_one (Fp.add Fp.binary32 temperature f32_eps))
              batch_size vocab_size vocab_size_padd _ _ logits
              Hgrid Hblock Hvp Hvs2 Hvp2 Hbias Hlen)
    as (out1 & Hrun1 & Hlen1 & Hout1).
  exists out. split; [exact Hrun|]. rewrite Hrun1. f_equal.
  apply list_eq. intros j. rewrite Hout, Hout1.
  destruct (logits !! j) as [x|] eqn:Hx; [|done].
  rewrite !fmap_Some_eq. f_equal.
  apply lookup_lt_Some in Hx. rewrite Hlen in Hx.
  assert (Hrow : j / vocab_size_padd < batch_size)
    by (apply Nat.Div0.div_lt_upper_bound; lia).
  unfold half2_temperature_scaled, batch_h2_temperature_scaled, inv_temperature.
  by rewrite (lookup_replicate_2 _ _ _ Hrow).
Qed.

(** Two rows of four [half] logits, two of the columns padding. *)
Lemma batch_temperature_half2_is_single_witness :
  let logits := [f16 1; f16 2; f16 3; f16 4; f16 5; f16 6; f16 7; f16 8] in
  exists out,
    invokeBatchApplyTemperaturePenalty Half logits None (replicate 2 (f32 2))
      2 2 4 (fun _ => []) (fun _ => [(S754_nan, S754_nan); (S754_nan, S754_nan)])
    = Ok out
    /\ invokeApplyTemperaturePenalty Half logits None (f32 2) 2 2 4 = Ok out.
Proof.
  intros logits.
  apply (batch_temperature_half2_is_single logits None (f32 2) 2 2 4);
    try reflexivity; try done; simpl; lia.
Defined.

(** ** Minimum-length penalty: the only value it writes *)

Lemma foldM_preserves {A St : Type} (P : St -> Prop) (f : A -> St -> result St)
  (l : list A) (s s' : St) :
  (forall a s s', P s -> f a s = Ok s' -> P s') ->
  P s -> foldM f l s = Ok s' -> P s'.
Proof.
  intros Hf. revert s. induction l as [|a l IH]; intros s Hs Hrun.
  - by injection Hrun as <-.
  - simpl in Hrun. apply bind_Ok in Hrun as (s1 & H1 & Hrun).
    apply (IH s1); [|done]. by apply (Hf a s).
Qed.

(** Whatever the arguments, when the minimum-length penalty returns, the
    buffer has the length it had and every logit either has the value it had
    or is [-getMaxValue<T>()]. *)
Theorem min_length_penalty_only_masks (T : dtype) (logits out : Logits)
  (min_lengths sequence_lengths : list Z) (vocab_size_padded batch_size : nat)
  (end_ids : list Z) (end_ids_size : nat) :
  invokeMinLengthPenalty T logits min_lengths sequence_lengths
    vocab_size_padded batch_size end_ids end_ids_size = Ok out ->
  length out = length logits
  /\ forall j x, out !! j = Some x ->
       x = Fp.opp (getMaxValue T) \/ logits !! j = Some x.
Proof.
  unfold invokeMinLengthPenalty.
  set (block := Nat.min (batch_size * end_ids_size) 1024).
  destruct (block =? 0); [done|].
  set (P := fun l : Logits =>
              length l = length logits
              /\ forall j x, l !! j = Some x ->
                   x = Fp.opp (getMaxValue T) \/ logits !! j = Some x).
  unfold launch, run_blocks, run_threads.
  apply (foldM_preserves P); [|split; [done|by right]].
  intros b l l' Hl. apply (foldM_preserves P); [|done].
  clear. intros t l l' [Hlen Hl]. unfold batchApplyMinLengthPenalty.
  repeat match goal with
         | |- context [if ?c then _ else _] => destruct c
         | |- bind ?c _ = Ok _ -> _ => destruct c; cbn [bind]
         end;
    try (intros [= <-]; by split); try done.
  unfold storeZ.
  destruct (_ <? 0)%Z; [done|]. intros [Hi ->]%store_Ok.
  split; [by rewrite length_insert|].
  intros j x. rewrite list_lookup_insert.
  destruct (decide _) as [[-> _]|_]; [intros [= <-]; by left|apply Hl].
Qed.

(** The end id 4 of the first of two rows of three columns is a column of
    the second row. *)
Lemma min_length_penalty_only_masks_witness :
  let logits := [f32 1; f32 2; f32 3; f32 4; f32 5; f32 6] in
  let out := [f32 1; f32 2; f32 3; f32 4; Fp.opp (getMaxValue Float); f32 6] in
  length out = length logits
  /\ forall j x, out !! j = Some x ->
       x = Fp.opp (getMaxValue Float) \/ logits !! j = Some x.
Proof.
  intros logits out.
  apply (min_length_penalty_only_masks Float logits out [5; 5]%Z [1; 9]%Z 3 2
           [4; 0]%Z 1).
  reflexivity.
Defined.

(** ** Repetition penalty with one penalty: a token id outside the vocabulary *)

(** The second loop of [applyRepetitionPenalty] reads [penalty_indices] at
    a position the first loop has skipped.  On a row whose history is one
    token id [>= vocab_size], the kernel stores what the shared memory held
    before the launch: when the index found there is a token id [i0] of the
    vocabulary, the logit of [i0] is replaced by the value [g] found beside
    it. *)
Theorem repetition_out_of_vocab_writes_shared (T : dtype)
  (penalty_type : RepetitionPenaltyType) (logits : Logits)
  (penalty g : spec_float) (id i0 : Z)
  (vocab_size vocab_size_padd max_input_len : nat) :
  penalty_type <> NoPenalty ->
  (Z.of_nat vocab_size <= id)%Z ->
  (0 <= i0 < Z.of_nat vocab_size)%Z ->
  vocab_size <= vocab_size_padd ->
  length logits = vocab_size_padd ->
  invokeApplyRepetitionPenalty T logits penalty [id] 1 1 vocab_size
    vocab_size_padd None max_input_len 1 penalty_type
    (fun _ => [g]) (fun _ => [i0])
  = Ok (<[Z.to_nat i0 := of_float T g]> logits).
Proof.
  intros Hpt Hid Hi0 Hvs Hlen.
  assert (Hrun :
    run_blocks 1 (fun blockIdx =>
      applyRepetitionPenalty T penalty_type penalty [id] 1 vocab_size
        vocab_size_padd None max_input_len 1 (Nat.min 1 1024) [g] [i0] blockIdx)
      logits
    = Ok (<[Z.to_nat i0 := of_float T g]> logits)).
  { change (Nat.min 1 1024) with 1.
    unfold run_blocks, applyRepetitionPenalty, run_threads, row_input_length.
    cbn [seq foldM bind strided_for Nat.ltb Nat.leb Nat.add].
    unfold applyRepetitionPenalty_read, applyRepetitionPenalty_write.
    rewrite is_padding_no_lengths.
    cbn [Nat.mul Nat.add load lookup list_lookup bind st_logits penalty_logits
         penalty_indices].
    assert (E1 : (Z.of_nat vocab_size <=? id)%Z = true) by (apply Z.leb_le; lia).
    assert (E2 : (Z.of_nat vocab_size <=? i0)%Z = false) by (apply Z.leb_gt; lia).
    rewrite E1. cbn [bind st_logits penalty_logits penalty_indices load lookup
                     list_lookup].
    rewrite E2. cbn [bind]. change (Z.of_nat 0 + i0)%Z with (0 + i0)%Z.
    rewrite Z.add_0_l, storeZ_Ok by lia. reflexivity. }
  unfold invokeApplyRepetitionPenalty. by destruct penalty_type.
Qed.

(** A row of four logits with the history [9]; the shared memory holds the
    index 2 and the value 7. *)
Lemma repetition_out_of_vocab_writes_shared_witness :
  invokeApplyRepetitionPenalty Float [f32 1; f32 2; f32 3; f32 4] (f32 2)
    [9%Z] 1 1 4 4 None 0 1 Multiplicative (fun _ => [f32 7]) (fun _ => [2%Z])
  = Ok (<[Z.to_nat 2 := of_float Float (f32 7)]> [f32 1; f32 2; f32 3; f32 4]).
Proof.
  apply (repetition_out_of_vocab_writes_shared Float Multiplicative
           [f32 1; f32 2; f32 3; f32 4] (f32 2) (f32 7) 9 2 4 4 0);
    try done; try lia.
Defined.

(** ** Indexed copy: identity indices and untouched buffers *)

Lemma index_at_seq (count k : nat) :
  k < count -> index_at (Some (seq 0 count)) k = index_at None k.
Proof.
  intros Hk. unfold index_at. apply load_lookup. by rewrite lookup_seq_lt.
Qed.

Lemma invokeIndexedCopy_index_ext (src_ptr dst_ptr elem_sz : list nat)
  (src_idx dst_idx src_idx' dst_idx' : option (list nat)) (count n : nat)
  (mem : Memory) :
  (forall k, k < count -> index_at src_idx k = index_at src_idx' k) ->
  (forall k, k < count -> index_at dst_idx k = index_at dst_idx' k) ->
  invokeIndexedCopy src_ptr dst_ptr elem_sz src_idx dst_idx count n mem
  = invokeIndexedCopy src_ptr dst_ptr elem_sz src_idx' dst_idx' count n mem.
Proof.
  intros Hs Hd. unfold invokeIndexedCopy. apply foldM_ext. intros i m _.
  destruct (load src_ptr i); [|done]. destruct (load dst_ptr i); [|done].
  destruct (load elem_sz i); [|done]. cbn [bind].
  apply foldM_ext. intros k m' Hk%elem_of_seq.
  by rewrite Hs, Hd by lia.
Qed.

(** [IndexedCopy] on a count is [IndexedCopy] on the explicit identity
    indices [0, 1, ..., count - 1], given on either side or on both: an
    empty index vector stands for them. *)
Theorem IndexedCopy_count_identity (count : nat) (cpys : list Cpy) (mem : Memory) :
  IndexedCopy (seq 0 count) [] cpys mem = IndexedCopy_count count cpys mem
  /\ IndexedCopy [] (seq 0 count) cpys mem = IndexedCopy_count count cpys mem
  /\ IndexedCopy (seq 0 count) (seq 0 count) cpys mem
     = IndexedCopy_count count cpys mem.
Proof.
  destruct count as [|n]; [done|].
  unfold IndexedCopy, IndexedCopy_count. rewrite !length_seq.
  change (is_empty (seq 0 (S n))) with false.
  rewrite Nat.eqb_refl, Nat.max_0_r, Nat.max_0_l, Nat.max_id.
  cbn [Nat.eqb is_empty xorb orb]. unfold IndexedCopyImpl. cbn [Nat.eqb].
  split_and!; apply invokeIndexedCopy_index_ext;
    intros k Hk; (done || by apply index_at_seq).
Qed.

(** When [IndexedCopy] returns, every buffer has the length it had, and a
    buffer that is the destination of no copy has the contents it had. *)
Theorem IndexedCopy_frame (src_idx dst_idx : list nat) (cpys : list Cpy)
  (mem mem' : Memory) :
  IndexedCopy src_idx dst_idx cpys mem = Ok mem' ->
  (forall a, length <$> mem' !! a = length <$> mem !! a)
  /\ (forall a, a ∉ cpy_dst <$> cpys -> mem' !! a = mem !! a).
Proof.
  set (P := fun m : Memory =>
              (forall a, length <$> m !! a = length <$> mem !! a)
              /\ (forall a, a ∉ cpy_dst <$> cpys -> m !! a = mem !! a)).
  assert (HP : P mem) by done.
  unfold IndexedCopy.
  destruct ((length src_idx =? length dst_idx)
            || xorb (is_empty src_idx) (is_empty dst_idx)); [|done].
  unfold IndexedCopyImpl.
  destruct (Nat.max (length src_idx) (length dst_idx) =? 0);
    [by intros [= <-]|].
  unfold invokeIndexedCopy. apply (foldM_preserves P); [|done].
  clear HP. intros i m m1 Hm.
  destruct (load (cpy_src <$> cpys) i) as [src|]; [|done].
  destruct (load (cpy_dst <$> cpys) i) as [dst|] eqn:Hdst; [|done].
  destruct (load ((fun c => cpy_sizeof c * cpy_count c) <$> cpys) i) as [sz|];
    [|done].
  cbn [bind]. apply load_Ok, list_elem_of_lookup_2 in Hdst.
  apply (foldM_preserves P); [|done].
  clear m m1 Hm. intros k m m1 [Hlen Hother].
  destruct (index_at _ k) as [si|]; [|done].
  destruct (index_at _ k) as [di|]; [|done].
  cbn [bind]. unfold copy_slot.
  destruct (m !! src) as [sbuf|]; [|done].
  destruct (slot sbuf sz si) as [bytes|]; [|done].
  destruct (m !! dst) as [dbuf|] eqn:Hd; [|done].
  destruct (_ <=? _); [|done]. intros [= <-]. split.
  - intros a. destruct (decide (a = dst)) as [->|Hne].
    + rewrite lookup_insert_eq, <- Hlen, Hd. simpl.
      by rewrite length_write_slot.
    + by rewrite lookup_insert_ne.
  - intros a Ha. rewrite lookup_insert_ne; [by apply Hother|].
    intros ->. by apply Ha.
Qed.

(** Slot 0 of buffer 7 copied to slot 1 of buffer 8: buffer 9 is touched
    by no copy. *)
Lemma IndexedCopy_frame_witness :
  let mem : Memory :=
    {[ 7 := [Byte.x01; Byte.x02]; 8 := [Byte.x03; Byte.x04]; 9 := [Byte.x05] ]} in
  let mem' : Memory :=
    {[ 7 := [Byte.x01; Byte.x02]; 8 := [Byte.x03; Byte.x01]; 9 := [Byte.x05] ]} in
  (forall a, length <$> mem' !! a = length <$> mem !! a)
  /\ (forall a, a ∉ cpy_dst <$> [mkCpy 7 8 1 1] -> mem' !! a = mem !! a).
Proof.
  intros mem mem'.
  apply (IndexedCopy_frame [0] [1] [mkCpy 7 8 1 1] mem mem').
  vm_compute. reflexivity.
Defined.

(** ** [Copy] and [Clear]: the returned pointer *)

Lemma write_bytes_Ok (mem : Memory) (p : Ptr) (bytes buf : list Byte.byte) :
  mem !! ptr_buf p = Some buf -> ptr_off p + length bytes <= length buf ->
  write_bytes mem p bytes
  = Ok (<[ptr_buf p := list_inserts (ptr_off p) bytes buf]> mem).
Proof.
  intros Hbuf Hlen. unfold write_bytes. rewrite Hbuf.
  by destruct (Nat.leb_spec (ptr_off p + length bytes) (length buf)); [|lia].
Qed.

Lemma read_bytes_Ok (mem : Memory) (p : Ptr) (n : nat) (buf : list Byte.byte) :
  mem !! ptr_buf p = Some buf -> ptr_off p + n <= length buf ->
  read_bytes mem p n = Ok (take n (drop (ptr_off p) buf)).
Proof.
  intros Hbuf Hlen. unfold read_bytes. rewrite Hbuf.
  by destruct (Nat.leb_spec (ptr_off p + n) (length buf)); [|lia].
Qed.

(** [Copy] returns the pointer just past the elements it has written, so
    that the [Clear] (or [Copy]) made at the returned pointer continues where
    it ended.  After [Clear(Copy(src, n, dst), m)], for a source in another
    buffer than [dst]: the bytes of the [n] elements at [src] are at [dst],
    the [m] elements after them are zero, every other byte of the buffer and
    every other buffer is as it was, and the pointer returned is
    [dst + n + m]. *)
Theorem Copy_then_Clear (sizeof_U : nat) (src dst : Ptr) (n m : nat)
  (mem : Memory) (sbuf dbuf : list Byte.byte) :
  ptr_buf src <> ptr_buf dst ->
  mem !! ptr_buf src = Some sbuf -> mem !! ptr_buf dst = Some dbuf ->
  ptr_off src + sizeof_U * n <= length sbuf ->
  ptr_off dst + sizeof_U * (n + m) <= length dbuf ->
  exists p mem1 mem2 dbuf',
    Copy sizeof_U src n dst mem = Ok (p, mem1)
    /\ Clear sizeof_U p m mem1 = Ok (ptr_add sizeof_U dst (n + m), mem2)
    /\ mem2 !! ptr_buf dst = Some dbuf'
    /\ length dbuf' = length dbuf
    /\ (forall j, j < sizeof_U * n ->
          dbuf' !! (ptr_off dst + j) = sbuf !! (ptr_off src + j))
    /\ (forall j, sizeof_U * n <= j < sizeof_U * (n + m) ->
          dbuf' !! (ptr_off dst + j) = Some Byte.x00)
    /\ (forall j, j < ptr_off dst \/ ptr_off dst + sizeof_U * (n + m) <= j ->
          dbuf' !! j = dbuf !! j)
    /\ (forall a, a <> ptr_buf dst -> mem2 !! a = mem !! a).
Proof.
  intros Hne Hs Hd Hsl Hdl.
  set (bytes := take (sizeof_U * n) (drop (ptr_off src) sbuf)).
  assert (Hbytes : length bytes = sizeof_U * n).
  { unfold bytes. rewrite length_take, length_drop. lia. }
  set (d1 := list_inserts (ptr_off dst) bytes dbuf).
  set (zeros := replicate (sizeof_U * m) Byte.x00).
  set (p := ptr_add sizeof_U dst n).
  set (d2 := list_inserts (ptr_off p) zeros d1).
  exists p, (<[ptr_buf dst := d1]> mem), (<[ptr_buf dst := d2]> mem), d2.
  assert (Hd1 : length d1 = length dbuf) by apply length_inserts.
  split_and!.
  - unfold Copy, cudaMemcpyAsync.
    rewrite (read_bytes_Ok _ _ _ sbuf) by done. cbn [bind]. fold bytes.
    rewrite (write_bytes_Ok _ _ _ dbuf) by (done || lia). done.
  - unfold Clear, cudaMemsetAsync. fold zeros.
    rewrite (write_bytes_Ok _ p zeros d1).
    + cbn [bind]. unfold p, ptr_add. cbn [ptr_buf ptr_off].
      rewrite insert_insert_eq. do 3 f_equal. lia.
    + apply lookup_insert_eq.
    + unfold zeros, p. cbn [ptr_add ptr_off]. rewrite length_replicate. lia.
  - apply lookup_insert_eq.
  - unfold d2. by rewrite length_inserts.
  - intros j Hj. unfold d2, p. cbn [ptr_add ptr_off].
    rewrite list_lookup_inserts_lt by lia. unfold d1.
    rewrite list_lookup_inserts by (rewrite ?Hbytes; lia).
    replace (ptr_off dst + j - ptr_off dst) with j by lia.
    unfold bytes. rewrite lookup_take_lt by lia. apply lookup_drop.
  - intros j Hj. unfold d2, p. cbn [ptr_add ptr_off].
    assert (Hz : length zeros = sizeof_U * m) by apply length_replicate.
    rewrite list_lookup_inserts by (rewrite ?Hz, ?Hd1; lia).
    apply lookup_replicate_2. lia.
  - intros j Hj. unfold d2, p, d1. cbn [ptr_add ptr_off].
    destruct Hj as [Hj|Hj].
    + by rewrite !list_lookup_inserts_lt by lia.
    + rewrite !list_lookup_inserts_ge; [done|lia|].
      unfold zeros. rewrite length_replicate. lia.
  - intros a Ha. by rewrite lookup_insert_ne.
Qed.

(** Two elements of two bytes copied to the start of a buffer of eight
    bytes, and the element after them cleared. *)
Lemma Copy_then_Clear_witness :
  let sbuf := [Byte.x01; Byte.x02; Byte.x03; Byte.x04] in
  let dbuf := replicate 8 Byte.xff in
  let mem : Memory := {[ 1 := sbuf; 2 := dbuf ]} in
  exists p mem1 mem2 dbuf',
    Copy 2 (mkPtr 1 0) 2 (mkPtr 2 0) mem = Ok (p, mem1)
    /\ Clear 2 p 1 mem1 = Ok (ptr_add 2 (mkPtr 2 0) (2 + 1), mem2)
    /\ mem2 !! 2 = Some dbuf'
    /\ length dbuf' = length dbuf
    /\ (forall j, j < 2 * 2 -> dbuf' !! (0 + j) = sbuf !! (0 + j))
    /\ (forall j, 2 * 2 <= j < 2 * (2 + 1) -> dbuf' !! (0 + j) = Some Byte.x00)
    /\ (forall j, j < 0 \/ 0 + 2 * (2 + 1) <= j -> dbuf' !! j = dbuf !! j)
    /\ (forall a, a <> 2 -> mem2 !! a = mem !! a).
Proof.
  intros sbuf dbuf mem.
  apply (Copy_then_Clear 2 (mkPtr 1 0) (mkPtr 2 0) 2 1 mem sbuf dbuf).
  - simpl. lia.
  - reflexivity.
  - reflexivity.
  - simpl. lia.
  - simpl. lia.
Defined.

(** ** The grid-stride loop of the temperature kernel *)

(** [applyTemperaturePenalty<T>] processes every logit exactly once under
    every launch configuration.  For any positive numbers of blocks and of
    threads per block, every column [v < vocab_size] of every row holds
    [(L[v] + B[v]) * (T)temperature_inverse], computed from the logit [L[v]]
    that was there before the launch, and every padding column holds
    [-getMaxValue<T>()]; and every other launch with positive numbers
    returns the same buffer. *)
Theorem temperature_kernel_any_launch (T : dtype) (bias : option (list spec_float))
  (temperature_inverse : spec_float) (m vocab_size vocab_size_padd : nat)
  (gridDim blockDim : nat) (logits : Logits) :
  0 < gridDim -> 0 < blockDim ->
  0 < vocab_size_padd -> bias_fits bias vocab_size_padd ->
  length logits = m * vocab_size_padd ->
  exists out,
    launch gridDim blockDim
      (applyTemperaturePenalty T bias temperature_inverse m vocab_size
         vocab_size_padd gridDim blockDim) logits = Ok out
    /\ length out = length logits
    /\ (forall row v x,
          row < m -> v < vocab_size_padd ->
          logits !! (row * vocab_size_padd + v) = Some x ->
          out !! (row * vocab_size_padd + v) =
            Some (if v <? vocab_size
                  then Fp.mul (fmt T) (Fp.add (fmt T) x (bias_at T bias v))
                         (of_float T temperature_inverse)
                  else Fp.opp (getMaxValue T)))
    /\ (forall gridDim' blockDim', 0 < gridDim' -> 0 < blockDim' ->
          launch gridDim' blockDim'
            (applyTemperaturePenalty T bias temperature_inverse m vocab_size
               vocab_size_padd gridDim' blockDim') logits = Ok out).
Proof.
  intros Hg Hb Hvp Hbias Hlen.
  destruct (applyTemperaturePenalty_launch T bias temperature_inverse m vocab_size
              vocab_size_padd gridDim blockDim logits Hg Hb Hvp Hbias Hlen)
    as (out & Hrun & Hlen' & Hout).
  exists out. split; [done|]. split; [done|]. split.
  - intros row v x Hrow Hv Hx. rewrite Hout, Hx, fmap_Some_eq. f_equal.
    unfold temperature_scaled.
    by destruct (div_mod_unique vocab_size_padd row v Hv) as [_ ->].
  - intros gridDim' blockDim' Hg' Hb'.
    destruct (applyTemperaturePenalty_launch T bias temperature_inverse m
                vocab_size vocab_size_padd gridDim' blockDim' logits Hg' Hb' Hvp
                Hbias Hlen) as (out' & Hrun' & _ & Hout').
    rewrite Hrun'. f_equal. apply list_eq. intros j. by rewrite Hout, Hout'.
Qed.

(** Six logits, two rows of three columns of which one is padding, under
    one block of four threads; three blocks of one thread give the same. *)
Lemma temperature_kernel_any_launch_witness :
  let logits := [f32 1; f32 2; f32 3; f32 4; f32 5; f32 6] in
  exists out,
    launch 1 4 (applyTemperaturePenalty Float None (f32 2) 2 2 3 1 4) logits
    = Ok out
    /\ length out = length logits
    /\ (forall row v x,
          row < 2 -> v < 3 ->
          logits !! (row * 3 + v) = Some x ->
          out !! (row * 3 + v) =
            Some (if v <? 2
                  then Fp.mul (fmt Float) (Fp.add (fmt Float) x (bias_at Float None v))
                         (of_float Float (f32 2))
                  else Fp.opp (getMaxValue Float)))
    /\ (forall gridDim' blockDim', 0 < gridDim' -> 0 < blockDim' ->
          launch gridDim' blockDim'
            (applyTemperaturePenalty Float None (f32 2) 2 2 3 gridDim' blockDim')
            logits = Ok out).
Proof.
  intros logits.
  apply (temperature_kernel_any_launch Float None (f32 2) 2 2 3 1 4 logits);
    try reflexivity; try done; lia.
Defined.

(** ** Indexed copy from one set of buffers to another *)

Section CopyOutOfPlace.
Variables (src_idx dst_idx : list nat).

Let S := effective_indices src_idx dst_idx.
Let D := effective_indices dst_idx src_idx.
Let src_ptr := if is_empty src_idx then None else Some src_idx.
Let dst_ptr := if is_empty dst_idx then None else Some dst_idx.

Hypothesis Hlen : length S = length D.
Hypothesis HnodupD : NoDup D.

Lemma copy_buffer_out_of_place (src dst sz : nat) (mem : Memory)
  (sb db : list Byte.byte) (n : nat) :
  src <> dst -> mem !! src = Some sb -> mem !! dst = Some db ->
  (forall s, s ∈ S -> s * sz + sz <= length sb) ->
  (forall d, d ∈ D -> d * sz + sz <= length db) ->
  n <= length S ->
  exists db_n,
    copy_buffer src dst sz src_ptr dst_ptr n mem = Ok (<[dst := db_n]> mem)
    /\ length db_n = length db
    /\ (forall k s d, k < n -> S !! k = Some s -> D !! k = Some d ->
          slot db_n sz d = slot sb sz s)
    /\ (forall j, (forall k d, k < n -> D !! k = Some d -> d <> j) ->
          slot db_n sz j = slot db sz j).
Proof.
  intros Hne Hsrc Hdst HS HD.
  induction n as [|n IH]; intros Hn.
  - exists db. split_and!; [|done| |done].
    + unfold copy_buffer. simpl. by rewrite insert_id.
    + intros k s d Hk. lia.
  - destruct IH as (db_n & Hrun & Hlen' & Hcopied & Hkept); [lia|].
    destruct (lookup_lt_is_Some_2 S n ltac:(lia)) as [si Hsi].
    destruct (lookup_lt_is_Some_2 D n ltac:(lia)) as [di Hdi].
    pose proof (HS si (list_elem_of_lookup_2 _ _ _ Hsi)) as Hsr.
    pose proof (HD di (list_elem_of_lookup_2 _ _ _ Hdi)) as Hdr.
    set (bytes := take sz (drop (si * sz) sb)).
    assert (Hbytes : slot sb sz si = Some bytes) by (by apply slot_in_range).
    assert (Hblen : length bytes = sz) by (by apply slot_length in Hbytes as [? _]).
    exists (write_slot db_n sz di bytes).
    split_and!.
    + unfold copy_buffer in *. rewrite seq_S, foldM_app, Hrun. simpl.
      unfold src_ptr, dst_ptr.
      rewrite (index_at_effective _ _ _ _ Hsi), (index_at_effective _ _ _ _ Hdi).
      simpl. unfold copy_slot.
      rewrite lookup_insert_ne, Hsrc, Hbytes, lookup_insert_eq by done.
      destruct (di * sz + sz <=? length db_n) eqn:E;
        [|apply Nat.leb_gt in E; lia].
      by rewrite insert_insert_eq.
    + by rewrite length_write_slot.
    + intros k s d Hk Hs Hd.
      destruct (decide (k = n)) as [->|Hkn].
      * assert (s = si) by congruence. assert (d = di) by congruence. subst s d.
        rewrite Hbytes. apply slot_write_eq; [done|lia].
      * assert (di <> d).
        { intros ->. apply Hkn. by apply (NoDup_lookup D k n d). }
        rewrite slot_write_ne by done. apply Hcopied with k; [lia|done..].
    + intros j Hj.
      assert (di <> j) by (by apply (Hj n); [lia|]).
      rewrite slot_write_ne by done. apply Hkept.
      intros k d Hk. apply Hj. lia.
Qed.

Lemma copy_cpys_out_of_place (cpys : list Cpy) (mem : Memory) :
  cpys_out_of_place cpys ->
  (forall c, c ∈ cpys -> cpy_ready mem S D c) ->
  exists mem',
    foldM (fun c =>
             copy_buffer (cpy_src c) (cpy_dst c) (cpy_elem_sz c) src_ptr dst_ptr
               (length S))
      cpys mem = Ok mem'
    /\ (forall c, c ∈ cpys -> cpy_moved mem mem' S D c)
    /\ (forall a, a ∉ cpy_dst <$> cpys -> mem' !! a = mem !! a).
Proof.
  revert mem. induction cpys as [|c cpys IH]; intros mem [Hnd Hcross] Hready.
  - exists mem. split_and!; [done| |done]. intros c Hc. by apply elem_of_nil in Hc.
  - rewrite fmap_cons in Hnd. apply NoDup_cons in Hnd as [Hnot Hnd].
    destruct (Hready c ltac:(left)) as (sb & db & Hsrc & Hdst & HS & HD).
    destruct (copy_buffer_out_of_place (cpy_src c) (cpy_dst c) (cpy_elem_sz c)
                mem sb db (length S)) as (db1 & Hrun1 & Hlen1 & Hcopied1 & Hkept1);
      [apply Hcross; left|done..|].
    set (mem1 := <[cpy_dst c := db1]> mem) in *.
    assert (Hsame : forall c2, c2 ∈ cpys ->
              mem1 !! cpy_src c2 = mem !! cpy_src c2
              /\ mem1 !! cpy_dst c2 = mem !! cpy_dst c2).
    { intros c2 Hc2. unfold mem1. split.
      - apply lookup_insert_ne. intros E.
        by apply (Hcross c2 c); [right|left|].
      - apply lookup_insert_ne. intros E. apply Hnot. rewrite E.
        by apply list_elem_of_fmap_2. }
    destruct (IH mem1) as (mem' & Hrun & Hdone & Hkeep).
    { split; [done|]. intros c1 c2 H1 H2. apply Hcross; by right. }
    { intros c2 Hc2. destruct (Hsame c2 Hc2) as [Es Ed].
      destruct (Hready c2 ltac:(by right)) as (sb2 & db2 & Hs2 & Hd2 & HS2 & HD2).
      exists sb2, db2. by rewrite Es, Ed. }
    exists mem'. split_and!.
    + simpl. rewrite Hrun1. done.
    + intros c' [->|Hc']%elem_of_cons.
      * exists sb, db, db1. split_and!; [done|done| |done| |].
        -- rewrite (Hkeep _ Hnot). apply lookup_insert_eq.
        -- intros k s d Hs Hd. apply (Hcopied1 k); [|done..].
           by apply lookup_lt_Some in Hs.
        -- intros j HjD. apply Hkept1. intros k d _ Hd ->.
           apply HjD. by apply list_elem_of_lookup_2 in Hd.
      * destruct (Hsame c' Hc') as [Es Ed].
        destruct (Hdone c' Hc') as (sb' & db' & db'' & Hs & Hd & Hd' & Hl & Hc & Hk).
        exists sb', db', db''. rewrite <- Es, <- Ed. by split_and!.
    + intros a Ha. rewrite fmap_cons, not_elem_of_cons in Ha. destruct Ha as [Hne Ha].
      rewrite (Hkeep a Ha). by apply lookup_insert_ne.
Qed.
End CopyOutOfPlace.

(** When no copy reads a buffer that a copy writes, the index lists may
    overlap: [IndexedCopy] leaves in the destination buffer of every copy, at
    each [dst_idx[k]], what its source buffer holds at [src_idx[k]], and at
    every slot that is not a destination index what the buffer held.  The
    destination indices are pairwise distinct; an empty index vector stands
    for the identity indices. *)
Theorem IndexedCopy_between_buffers (src_idx dst_idx : list nat)
  (cpys : list Cpy) (mem : Memory) :
  length src_idx = length dst_idx \/ src_idx = [] \/ dst_idx = [] ->
  NoDup (effective_indices dst_idx src_idx) ->
  cpys_out_of_place cpys ->
  (forall c, c ∈ cpys ->
     cpy_ready mem (effective_indices src_idx dst_idx)
       (effective_indices dst_idx src_idx) c) ->
  exists mem',
    IndexedCopy src_idx dst_idx cpys mem = Ok mem'
    /\ (forall c, c ∈ cpys ->
          cpy_moved mem mem' (effective_indices src_idx dst_idx)
            (effective_indices dst_idx src_idx) c)
    /\ (forall a, a ∉ cpy_dst <$> cpys -> mem' !! a = mem !! a).
Proof.
  intros Hcheck Hnodup Hsep Hready.
  destruct (effective_indices_length src_idx dst_idx Hcheck) as [HlS HlD].
  unfold IndexedCopy.
  rewrite (proj1 (IndexedCopy_check_passes src_idx dst_idx) Hcheck).
  unfold IndexedCopyImpl.
  destruct (Nat.max (length src_idx) (length dst_idx) =? 0) eqn:E0.
  - apply Nat.eqb_eq in E0. exists mem. split_and!; [done| |done].
    intros c Hc. destruct (Hready c Hc) as (sb & db & Hs & Hd & _ & _).
    exists sb, db, db. split_and!; [done..| |done].
    intros k s d Hk%lookup_lt_Some. lia.
  - cbv zeta. rewrite invokeIndexedCopy_cpys, <- HlS.
    apply copy_cpys_out_of_place; [lia|done..].
Qed.

(** The two slots of buffer 7 copied to buffer 8 in reverse order. *)
Lemma IndexedCopy_between_buffers_witness :
  let mem : Memory :=
    {[ 7 := [Byte.x01; Byte.x02]; 8 := [Byte.x03; Byte.x04] ]} in
  let cpys := [mkCpy 7 8 1 1] in
  exists mem',
    IndexedCopy [0; 1] [1; 0] cpys mem = Ok mem'
    /\ (forall c, c ∈ cpys ->
          cpy_moved mem mem' (effective_indices [0; 1] [1; 0])
            (effective_indices [1; 0] [0; 1]) c)
    /\ (forall a, a ∉ cpy_dst <$> cpys -> mem' !! a = mem !! a).
Proof.
  intros mem cpys.
  apply (IndexedCopy_between_buffers [0; 1] [1; 0] cpys mem).
  - left. reflexivity.
  - change (effective_indices [1; 0] [0; 1]) with [1; 0].
    apply NoDup_cons. split; [|apply NoDup_singleton].
    intros Hin%list_elem_of_singleton. lia.
  - split; [apply NoDup_singleton|].
    intros c1 c2 ->%list_elem_of_singleton ->%list_elem_of_singleton. simpl. lia.
  - intros c ->%list_elem_of_singleton. exists [Byte.x01; Byte.x02], [Byte.x03; Byte.x04].
    split; [reflexivity|]. split; [reflexivity|].
    change (effective_indices [0; 1] [1; 0]) with [0; 1].
    change (effective_indices [1; 0] [0; 1]) with [1; 0].
    split; intros i Hi; rewrite !elem_of_cons, elem_of_nil in Hi;
      destruct Hi as [->|[->|[]]]; vm_compute; lia.
Defined.

(** ** Minimum-length penalty applied twice *)

(** The minimum-length penalty is idempotent: on the buffer it has
    returned, with the same lengths and end ids, it returns that buffer. *)
Theorem min_length_penalty_idempotent (T : dtype) (logits : Logits)
  (min_lengths sequence_lengths : list Z) (vocab_size_padded batch_size : nat)
  (end_ids : list Z) (end_ids_size : nat) :
  0 < batch_size -> 0 < end_ids_size ->
  length logits = batch_size * vocab_size_padded ->
  length end_ids = batch_size * end_ids_size ->
  length sequence_lengths = batch_size ->
  length min_lengths = batch_size ->
  Forall (fun end_id => (end_id < Z.of_nat vocab_size_padded)%Z) end_ids ->
  exists out,
    invokeMinLengthPenalty T logits min_lengths sequence_lengths
      vocab_size_padded batch_size end_ids end_ids_size = Ok out
    /\ invokeMinLengthPenalty T out min_lengths sequence_lengths
         vocab_size_padded batch_size end_ids end_ids_size = Ok out.
Proof.
  intros Hb HE Hlen Hend Hseq Hmin Hrange.
  assert (Hrange' : forall i end_id, i < batch_size * end_ids_size ->
            end_ids !! i = Some end_id -> (end_id < Z.of_nat vocab_size_padded)%Z).
  { intros i end_id _ Hi. rewrite Forall_forall in Hrange.
    apply Hrange. by apply list_elem_of_lookup_2 in Hi. }
  destruct (invokeMinLengthPenalty_spec T logits min_lengths sequence_lengths
              vocab_size_padded batch_size end_ids end_ids_size)
    as (out & Hrun & Hlen1 & Hout); try done; try lia.
  destruct (invokeMinLengthPenalty_spec T out min_lengths sequence_lengths
              vocab_size_padded batch_size end_ids end_ids_size)
    as (out' & Hrun' & Hlen2 & Hout'); try done; try lia.
  exists out. split; [done|]. rewrite Hrun'. f_equal.
  apply (rows_ext vocab_size_padded batch_size); [congruence..|].
  intros bid col Hbid Hcol. rewrite Hout', Hout by done.
  by destruct (min_length_masked_int _ _ _ _ _ _).
Qed.

(** One row with [sequence_length = 3], [min_length = 5] and the end id 2. *)
Lemma min_length_penalty_idempotent_witness :
  exists out,
    invokeMinLengthPenalty Float [f32 1; f32 2; f32 3; f32 4] [5%Z] [3%Z] 4 1
      [2%Z] 1 = Ok out
    /\ invokeMinLengthPenalty Float out [5%Z] [3%Z] 4 1 [2%Z] 1 = Ok out.
Proof.
  apply (min_length_penalty_idempotent Float [f32 1; f32 2; f32 3; f32 4]
           [5%Z] [3%Z] 4 1 [2%Z] 1); try reflexivity; try lia.
  repeat constructor.
Defined.
